(** * CfdOF geometric matching: a shallow embedding of CfdTools.py

    The development covers the tolerant comparison [floatEqual], the
    single-element matcher [isSameGeometry] / [findElementInShape] and the
    bulk sort-merge matcher [matchFacesToTargetShape] of [CfdTools.py].

    Python floats are IEEE-754 binary64 values.  They are represented by the
    standard library's [spec_float] at precision 53 and maximal exponent
    1024, whose operations are executable and round to nearest even, as
    CPython's do. *)

From Stdlib Require Import ZArith Lia Bool DecimalString.
From Stdlib Require Import Floats.SpecFloat.
From stdpp Require Import base option list sorting gmap strings.

Local Open Scope Z_scope.

(** ** Python floats *)

Module PyFloat.

Definition float := spec_float.

Definition prec : Z := 53.
Definition emax : Z := 1024.

(** [a - b], [a * b], [abs(a)] *)
Definition sub (a b : float) : float := SFsub prec emax a b.
Definition mul (a b : float) : float := SFmul prec emax a b.
Definition abs (a : float) : float := SFabs a.

(** [a < b], [a <= b], [a > b] *)
Definition lt (a b : float) : bool := SFltb a b.
Definition le (a b : float) : bool := SFleb a b.
Definition gt (a b : float) : bool := SFltb b a.

(** The builtin [max(a, b)] keeps its first argument unless the second
    compares strictly greater. *)
Definition max (a b : float) : float := if gt b a then b else a.

(** Conversion of a Python int (as in [10*sys.float_info.epsilon]). *)
Definition of_int (n : Z) : float := binary_normalize prec emax n 0 false.

(** [2**k] for an integer exponent in range. *)
Definition pow2 (k : Z) : float := SFldexp prec emax (of_int 1) k.

(** [sys.float_info.epsilon], the gap between 1.0 and the next float. *)
Definition epsilon : float := S754_finite false 4503599627370496 (-104).

(** The literal [1e-12], i.e. the binary64 value nearest to 10^-12. *)
Definition lit_1e_12 : float := S754_finite false 4951760157141521 (-92).

(** Neither a NaN nor an infinity. *)
Definition finite (a : float) : bool :=
  match a with
  | S754_zero _ | S754_finite _ _ _ => true
  | S754_infinity _ | S754_nan => false
  end.

Definition is_nan (a : float) : bool :=
  match a with S754_nan => true | _ => false end.

End PyFloat.

Import PyFloat.

(** ** [floatEqual] *)

Definition reltol : float := mul (of_int 10) epsilon.
Definition abstol : float := lit_1e_12.

(** [return abs(a-b) < abstol or abs(a - b) <= reltol*max(abs(a), abs(b))] *)
Definition floatEqual (a b : float) : bool :=
  lt (abs (sub a b)) abstol
  || le (abs (sub a b)) (mul reltol (max (abs a) (abs b))).

(** The contract of the specification, written from its words: the
    comparison against the absolute tolerance, or the comparison against the
    relative tolerance scaled by the larger magnitude, where the larger
    magnitude is the one that is not below the other. *)
Definition larger_magnitude (a b : float) : float :=
  match SFcompare (abs a) (abs b) with
  | Some Lt => abs b
  | _ => abs a
  end.

Definition within_abstol (a b : float) : Prop :=
  SFcompare (abs (sub a b)) lit_1e_12 = Some Lt.

Definition within_reltol (a b : float) : Prop :=
  let bound := mul (mul (of_int 10) epsilon) (larger_magnitude a b) in
  SFcompare (abs (sub a b)) bound = Some Lt
  \/ SFcompare (abs (sub a b)) bound = Some Eq.

(** ** The sort key wrapper built by [compKeyFn] *)

Record K := mkK { val : float }.

Definition K_eq (self other : K) : bool := floatEqual (val self) (val other).
Definition K_ne (self other : K) : bool := negb (floatEqual (val self) (val other)).
Definition K_lt (self other : K) : bool :=
  lt (val self) (val other) && negb (floatEqual (val self) (val other)).
Definition K_gt (self other : K) : bool :=
  gt (val self) (val other) && negb (floatEqual (val self) (val other)).
Definition K_le (self other : K) : bool :=
  lt (val self) (val other) || floatEqual (val self) (val other).
Definition K_ge (self other : K) : bool :=
  gt (val self) (val other) || floatEqual (val self) (val other).

(** [compKeyFn(key)] is the class whose constructor stores [key(val)]. *)
Definition compKeyFn {A : Type} (key : A -> float) : A -> K :=
  fun v => mkK (key v).

(** Exactly one of three booleans is set. *)
Definition exactly_one (p q r : bool) : Prop :=
  (p = true /\ q = false /\ r = false)
  \/ (p = false /\ q = true /\ r = false)
  \/ (p = false /\ q = false /\ r = true).

(** A total preorder: a transitive relation relating every pair one way or
    the other. *)
Definition total_preorder {A : Type} (dom : A -> Prop) (leq : A -> A -> bool) : Prop :=
  (forall a b, dom a -> dom b -> leq a b = true \/ leq b a = true)
  /\ (forall a b c, dom a -> dom b -> dom c ->
        leq a b = true -> leq b c = true -> leq a c = true).

Definition finite_key (k : K) : Prop := finite (val k) = true.

(** ** Geometry handed over by the CAD kernel *)

Inductive ShapeTypeName :=
  | Vertex | Edge | Wire | Face | Shell | Solid | CompSolid | Compound.

Global Instance ShapeTypeName_eq_dec : EqDecision ShapeTypeName.
Proof. solve_decision. Defined.

(** The string a [ShapeType] attribute holds. *)
Definition ShapeType_str (st : ShapeTypeName) : string :=
  match st with
  | Vertex => "Vertex" | Edge => "Edge" | Wire => "Wire" | Face => "Face"
  | Shell => "Shell" | Solid => "Solid" | CompSolid => "CompSolid"
  | Compound => "Compound"
  end.

(** [CenterOfMass], read as [.x .y .z] or as [[0] [1] [2]]. *)
Record Vector := mkVector { x : float; y : float; z : float }.

(** A vertex of an element, read as [.X .Y .Z]. *)
Module Vtx.
Record t := mk { X : float; Y : float; Z : float }.
End Vtx.

(** A sub-element (face, solid, edge or vertex) as the matcher reads it. *)
Record Element := mkElement {
  ShapeType : ShapeTypeName;
  CenterOfMass : Vector;
  Area : float;
  Vertexes : list Vtx.t
}.

(** A shape with its enumerated sub-elements. *)
Record Shape := mkShape {
  shape_ShapeType : ShapeTypeName;
  Solids : list Element;
  Faces : list Element;
  Edges : list Element;
  shape_Vertexes : list Element
}.

(** ** [isSameGeometry] *)

(** [floatEqual(vs1.X, vs2.X) and floatEqual(vs1.Y, vs2.Y) and floatEqual(vs1.Z, vs2.Z)] *)
Definition vertex_match (vs1 vs2 : Vtx.t) : bool :=
  floatEqual (Vtx.X vs1) (Vtx.X vs2)
  && floatEqual (Vtx.Y vs1) (Vtx.Y vs2)
  && floatEqual (Vtx.Z vs1) (Vtx.Z vs2).

(** The inner loop over [shape2.Vertexes]: one increment and [break] at the
    first match. *)
Fixpoint scan_Vertexes (vs1 : Vtx.t) (l2 : list Vtx.t) (same_Vertexes : nat) : nat :=
  match l2 with
  | [] => same_Vertexes
  | vs2 :: l2' =>
      if vertex_match vs1 vs2 then S same_Vertexes
      else scan_Vertexes vs1 l2' same_Vertexes
  end.

(** The outer loop over [shape1.Vertexes]. *)
Fixpoint count_same_Vertexes (l1 l2 : list Vtx.t) (same_Vertexes : nat) : nat :=
  match l1 with
  | [] => same_Vertexes
  | vs1 :: l1' => count_same_Vertexes l1' l2 (scan_Vertexes vs1 l2 same_Vertexes)
  end.

Definition CenterOfMass_equal (shape1 shape2 : Element) : bool :=
  floatEqual (x (CenterOfMass shape1)) (x (CenterOfMass shape2))
  && floatEqual (y (CenterOfMass shape1)) (y (CenterOfMass shape2))
  && floatEqual (z (CenterOfMass shape1)) (z (CenterOfMass shape2)).

(** The result is [Some True], [Some False], or [None] when the function
    falls off its end without a [return]. *)
Definition isSameGeometry (shape1 shape2 : Element) : option bool :=
  let same_Vertexes := 0%nat in
  if (length (Vertexes shape1) =? length (Vertexes shape2))%nat
     && (0 <? length (Vertexes shape1))%nat
  then
    if negb (floatEqual (x (CenterOfMass shape1)) (x (CenterOfMass shape2)))
       || negb (floatEqual (y (CenterOfMass shape1)) (y (CenterOfMass shape2)))
       || negb (floatEqual (z (CenterOfMass shape1)) (z (CenterOfMass shape2)))
    then Some false
    else if negb (floatEqual (Area shape1) (Area shape2))
    then Some false
    else
      let same_Vertexes :=
        count_same_Vertexes (Vertexes shape1) (Vertexes shape2) same_Vertexes in
      if (same_Vertexes =? length (Vertexes shape1))%nat
      then Some true
      else Some false
  else None.

(** Truth value of a result in an [if]: [None] and [False] are both falsy. *)
Definition truthy (r : option bool) : bool :=
  match r with Some true => true | _ => false end.

(** The number of vertices of the first list that have a tolerant match
    somewhere in the second list. *)
Definition matched_vertex_count (l1 l2 : list Vtx.t) : nat :=
  length (filter (fun vs1 => existsb (vertex_match vs1) l2 = true) l1).

(** ** [findElementInShape] *)

(** [str(n)] of a non-negative int. *)
Definition str (n : nat) : string := NilZero.string_of_uint (Nat.to_uint n).

(** What the function writes to the console. *)
Inductive ConsoleOutput :=
  | PrintError (msg : string)
      (** [FreeCAD.Console.PrintError(msg)] *)
  | PrintError_not_found (anElement : Element) (aShape : Shape)
      (** ['Solid ' + str(anElement) + ' not found in: ' + str(aShape) + '\n'] *)
  | print (msg : string).

Definition msg_solid_in_solid : string :=
  "We have been searching for a Solid in a Solid and we have not found it. In most cases this should be searching for a Solid inside a CompSolid. Check the ShapeType of your Part to mesh.".

Definition msg_compound : string :=
  String.append "Compound is not supported." (String (Ascii.ascii_of_nat 10) EmptyString).

(** [for index, e in enumerate(l): if isSameGeometry(e, anElement): return ...]:
    the index at which the loop returns, if it does. *)
Fixpoint scan_elements (l : list Element) (anElement : Element) (index : nat) : option nat :=
  match l with
  | [] => None
  | e :: l' =>
      if truthy (isSameGeometry e anElement) then Some index
      else scan_elements l' anElement (S index)
  end.

(** [ele = ele_st + str(index + 1)] *)
Definition element_name (ele_st : ShapeTypeName) (index : nat) : string :=
  String.append (ShapeType_str ele_st) (str (index + 1)).

(** The returned value ([None] when the function falls off its end) and the
    console output, in order. *)
Definition findElementInShape (aShape : Shape) (anElement : Element)
  : option string * list ConsoleOutput :=
  let ele_st := ShapeType anElement in
  match ele_st with
  | Solid | CompSolid =>
      match scan_elements (Solids aShape) anElement 0 with
      | Some index => (Some (element_name ele_st index), [])
      | None =>
          (None,
           PrintError_not_found anElement aShape
           :: (if bool_decide (ele_st = Solid) && bool_decide (shape_ShapeType aShape = Solid)
               then [print msg_solid_in_solid] else []))
      end
  | Face | Shell =>
      match scan_elements (Faces aShape) anElement 0 with
      | Some index => (Some (element_name ele_st index), [])
      | None => (None, [])
      end
  | Edge | Wire =>
      match scan_elements (Edges aShape) anElement 0 with
      | Some index => (Some (element_name ele_st index), [])
      | None => (None, [])
      end
  | Vertex =>
      match scan_elements (shape_Vertexes aShape) anElement 0 with
      | Some index => (Some (element_name ele_st index), [])
      | None => (None, [])
      end
  | Compound => (None, [PrintError msg_compound])
  end.

(** ** The document and exceptions *)

(** A reference [(object name, sub-element name)], e.g. [("Box", "Face3")]. *)
Abbreviation Ref := (string * string)%type.

(** A document object; [obj.Shape.getElement(name)] looks the name up among
    the sub-elements of its shape and raises [Part.OCCError] when there is
    none. *)
Record DocumentObject := mkObject { getElement : gmap string Element }.

(** [FreeCAD.ActiveDocument]: [getObject(name)] is the lookup. *)
Abbreviation Document := (gmap string DocumentObject).

Inductive Exception :=
  | RuntimeError (msg : string)
  | IndexError.

Inductive Outcome (A : Type) :=
  | Returned (v : A)
  | Raised (e : Exception).
Arguments Returned {A} v.
Arguments Raised {A} e.

Global Instance Outcome_bind : MBind Outcome := fun A B f m =>
  match m with
  | Returned v => f v
  | Raised e => Raised e
  end.

(** [l[n]] *)
Definition index_ {A : Type} (l : list A) (n : nat) : Outcome A :=
  match l !! n with
  | Some v => Returned v
  | None => Raised IndexError
  end.

(** [ll[n].append(v)] *)
Definition append_at {A : Type} (ll : list (list A)) (n : nat) (v : A)
  : Outcome (list (list A)) :=
  match ll !! n with
  | Some l => Returned (<[n := l ++ [v]]> ll)
  | None => Raised IndexError
  end.

Definition msg_object_not_found (name : string) : string :=
  String.append "Referenced object '"
    (String.append name "' not found - object may have been deleted").

Definition msg_face_not_found (name sub : string) : string :=
  String.append "Referenced face '"
    (String.append name
       (String.append ":"
          (String.append sub "' not found - face may have been deleted"))).

(** The body of the reference loop up to the [append]. *)
Definition resolve (doc : Document) (br : Ref) : Outcome Element :=
  match doc !! br.1 with
  | None => Raised (RuntimeError (msg_object_not_found br.1))
  | Some obj =>
      match getElement obj !! br.2 with
      | None => Raised (RuntimeError (msg_face_not_found br.1 br.2))
      | Some bf => Returned bf
      end
  end.

(** ** [matchFacesToTargetShape] *)

(** Entries of [src_face_list]: [(bf, i, br)]. *)
Abbreviation SrcFace := (Element * nat * Ref)%type.
(** Entries of [mesh_face_list]: [(face, original index)]. *)
Abbreviation MeshFace := (Element * nat)%type.
(** Entries of a row of [candidate_mesh_faces]: [(i, group, br)]. *)
Abbreviation Candidate := (nat * nat * Ref)%type.

(** [for br in rl: ... src_face_list.append((bf, i, br))] *)
Fixpoint resolve_group (doc : Document) (i : nat) (rl : list Ref)
    (src_face_list : list SrcFace) : Outcome (list SrcFace) :=
  match rl with
  | [] => Returned src_face_list
  | br :: rl' =>
      bf ← resolve doc br;
      resolve_group doc i rl' (src_face_list ++ [(bf, i, br)])
  end.

(** [for i, rl in enumerate(ref_lists): ...] *)
Fixpoint resolve_groups (doc : Document) (i : nat) (ref_lists : list (list Ref))
    (src_face_list : list SrcFace) : Outcome (list SrcFace) :=
  match ref_lists with
  | [] => Returned src_face_list
  | rl :: ref_lists' =>
      src_face_list' ← resolve_group doc i rl src_face_list;
      resolve_groups doc (S i) ref_lists' src_face_list'
  end.

(** [list.sort(key=...)]: a stable sort that compares keys with [__lt__]
    only, each new element against elements already placed.  It is rendered
    as the stable insertion sort; every stable comparison sort gives this
    result as long as [__lt__] is a strict weak order on the keys at hand,
    which is what [consistent_keys] below asks of the keys.  Where the
    tolerant [__lt__] is not a strict weak order (keys 1.6e-12, 0.8e-12 and
    0, each tolerantly equal to the next but not the first to the last),
    the order CPython leaves depends on its run detection and can differ
    from this rendering: it leaves those three keys in place, the insertion
    sort moves 0 to the front.  General statements about the order of a
    sorted list therefore assume [consistent_keys]; the other general
    statements use of the sort only that it returns a permutation of its
    input. *)
Fixpoint sort_insert {A : Type} (key : A -> K) (v : A) (sorted : list A) : list A :=
  match sorted with
  | [] => [v]
  | w :: rest =>
      if K_lt (key v) (key w) then v :: w :: rest
      else w :: sort_insert key v rest
  end.

Definition list_sort {A : Type} (key : A -> K) (l : list A) : list A :=
  fold_left (fun sorted v => sort_insert key v sorted) l [].

(** The three passes: by z, then y, then x of the centre of mass. *)
Definition sort_by_CenterOfMass {A : Type} (face : A -> Element) (l : list A) : list A :=
  let l := list_sort (compKeyFn (fun bf => z (CenterOfMass (face bf)))) l in
  let l := list_sort (compKeyFn (fun bf => y (CenterOfMass (face bf)))) l in
  list_sort (compKeyFn (fun bf => x (CenterOfMass (face bf)))) l.

Module Sweep.
Record State := mk {
  i : nat;
  j : nat;
  j_match_start : nat;
  matching : bool;
  candidate_mesh_faces : list (list Candidate)
}.
End Sweep.

(** The value the loop body assigns to [cmp]. *)
Definition CofM_cmp (bf mf : Element) : Z :=
  if floatEqual (x (CenterOfMass bf)) (x (CenterOfMass mf)) then
    if floatEqual (y (CenterOfMass bf)) (y (CenterOfMass mf)) then
      if floatEqual (z (CenterOfMass bf)) (z (CenterOfMass mf)) then 0
      else if lt (z (CenterOfMass bf)) (z (CenterOfMass mf)) then -1 else 1
    else if lt (y (CenterOfMass bf)) (y (CenterOfMass mf)) then -1 else 1
  else if lt (x (CenterOfMass bf)) (x (CenterOfMass mf)) then -1 else 1.

(** One iteration of the [while] loop, given [src_face_list[i]] and
    [mesh_face_list[j]]. *)
Definition sweep_body (src_i : SrcFace) (mesh_j : MeshFace) (st : Sweep.State)
  : Outcome Sweep.State :=
  let bf := src_i.1.1 in
  let mf := mesh_j.1 in
  let cmp := CofM_cmp bf mf in
  candidates ←
    (if (cmp =? 0)%Z
     then append_at (Sweep.candidate_mesh_faces st) (Sweep.j st)
            (Sweep.i st, src_i.1.2, src_i.2)
     else Returned (Sweep.candidate_mesh_faces st));
  Returned
    (if (cmp =? 0)%Z then
       Sweep.mk (Sweep.i st) (Sweep.j st + 1)
         (if Sweep.matching st then Sweep.j_match_start st else Sweep.j st)
         true candidates
     else if (cmp <? 0)%Z then
       Sweep.mk (Sweep.i st + 1)
         (if Sweep.matching st then Sweep.j_match_start st else Sweep.j st)
         (Sweep.j_match_start st) false candidates
     else
       Sweep.mk (Sweep.i st) (Sweep.j st + 1) (Sweep.j_match_start st)
         false candidates)%nat.

(** [while i < len(src_face_list) and j < len(mesh_face_list): ...], run for
    at most [fuel] iterations.  Lemma [sweep_exits] below shows that with the
    budget [sweep] hands over the loop always leaves through its guard. *)
Fixpoint sweep_loop (fuel : nat) (src_face_list : list SrcFace)
    (mesh_face_list : list MeshFace) (st : Sweep.State) : Outcome Sweep.State :=
  match fuel with
  | O => Returned st
  | S fuel' =>
      match src_face_list !! Sweep.i st, mesh_face_list !! Sweep.j st with
      | Some src_i, Some mesh_j =>
          st' ← sweep_body src_i mesh_j st;
          sweep_loop fuel' src_face_list mesh_face_list st'
      | _, _ => Returned st
      end
  end.

(** A bound on the number of iterations: every iteration either advances [i]
    or advances [j] without moving [i]. *)
Definition sweep_budget (st : Sweep.State) (n_src n_mesh : nat) : nat :=
  ((n_src - Sweep.i st) * (n_mesh + 1) + (n_mesh - Sweep.j st))%nat.

Definition sweep_init (mesh_face_list : list MeshFace) : Sweep.State :=
  Sweep.mk 0 0 0 false (map (fun _ => []) mesh_face_list).

Definition sweep (src_face_list : list SrcFace) (mesh_face_list : list MeshFace)
  : Outcome Sweep.State :=
  let st := sweep_init mesh_face_list in
  sweep_loop (sweep_budget st (length src_face_list) (length mesh_face_list))
    src_face_list mesh_face_list st.

(** The loop condition. *)
Definition sweep_running (src_face_list : list SrcFace)
    (mesh_face_list : list MeshFace) (st : Sweep.State) : bool :=
  (Sweep.i st <? length src_face_list)%nat
  && (Sweep.j st <? length mesh_face_list)%nat.

(** [for k in range(len(candidate_mesh_faces[j])): ...] *)
Fixpoint confirm_row (src_face_list : list SrcFace) (mesh_face_list : list MeshFace)
    (j : nat) (row : list Candidate) (successful_candidates : list (list (nat * Ref)))
  : Outcome (list (list (nat * Ref))) :=
  match row with
  | [] => Returned successful_candidates
  | (i, nb, bref) :: row' =>
      src_i ← index_ src_face_list i;
      mesh_j ← index_ mesh_face_list j;
      successful_candidates' ←
        (if truthy (isSameGeometry src_i.1.1 mesh_j.1)
         then append_at successful_candidates mesh_j.2 (nb, bref)
         else Returned successful_candidates);
      confirm_row src_face_list mesh_face_list j row' successful_candidates'
  end.

(** [for j in range(len(candidate_mesh_faces)): ...] *)
Fixpoint confirm_rows (src_face_list : list SrcFace) (mesh_face_list : list MeshFace)
    (j : nat) (rows : list (list Candidate))
    (successful_candidates : list (list (nat * Ref)))
  : Outcome (list (list (nat * Ref))) :=
  match rows with
  | [] => Returned successful_candidates
  | row :: rows' =>
      successful_candidates' ←
        confirm_row src_face_list mesh_face_list j row successful_candidates;
      confirm_rows src_face_list mesh_face_list (S j) rows' successful_candidates'
  end.

(** The function on Python 3 (the branch [sys.version_info >= (3,)]). *)
Definition matchFacesToTargetShape (doc : Document) (ref_lists : list (list Ref))
    (shape : Shape) : Outcome (list (list (nat * Ref))) :=
  let mesh_face_list : list MeshFace :=
    zip (Faces shape) (seq 0 (length (Faces shape))) in
  src_face_list ← resolve_groups doc 0 ref_lists [];
  let src_face_list := sort_by_CenterOfMass (fun bf : SrcFace => bf.1.1) src_face_list in
  let mesh_face_list := sort_by_CenterOfMass (fun mf : MeshFace => mf.1) mesh_face_list in
  st ← sweep src_face_list mesh_face_list;
  confirm_rows src_face_list mesh_face_list 0 (Sweep.candidate_mesh_faces st)
    (map (fun _ => []) mesh_face_list).

(** ** Sample geometry used in the examples below *)

Module Sample.

(** The float of a small integer. *)
Definition fl (n : Z) : float := of_int n.

Definition vtx (a b c : Z) : Vtx.t := Vtx.mk (fl a) (fl b) (fl c).

(** A planar element of type [st] with centre of mass [(cx, 0, 0)], the given
    area and the given vertices. *)
Definition element (st : ShapeTypeName) (cx area : Z) (vs : list Vtx.t) : Element :=
  mkElement st (mkVector (fl cx) (fl 0) (fl 0)) (fl area) vs.

(** A face with four corner vertices around [(cx, 0, 0)]. *)
Definition quad (cx area : Z) : Element :=
  element Face cx area
    [vtx (cx - 1) (-1) 0; vtx (cx + 1) (-1) 0; vtx (cx + 1) 1 0; vtx (cx - 1) 1 0].

(** The same face with its vertices listed in another order. *)
Definition quad_permuted (cx area : Z) : Element :=
  element Face cx area
    [vtx (cx + 1) 1 0; vtx (cx - 1) (-1) 0; vtx (cx - 1) 1 0; vtx (cx + 1) (-1) 0].

(** Three distinct faces side by side. *)
Definition strip : Shape := mkShape Shell [] [quad 0 4; quad 3 4; quad 6 4] [] [].

(** A compound that lists one face twice, followed by another face. *)
Definition doubled : Shape := mkShape Compound [] [quad 0 4; quad 0 4; quad 6 4] [] [].

(** Two distinct faces. *)
Definition pair : Shape := mkShape Shell [] [quad 0 4; quad 6 4] [] [].

(** A shape with a single face. *)
Definition single : Shape := mkShape Face [] [quad 0 4] [] [].

(** A document object exposing the faces of a shape as Face1, Face2, ... *)
Definition object_of (s : Shape) : DocumentObject :=
  mkObject (list_to_map
    (imap (fun k f => (String.append "Face" (str (k + 1)), f)) (Faces s))).

Definition doc : Document :=
  {[ "Strip"%string := object_of strip;
     "Doubled"%string := object_of doubled;
     "Single"%string := object_of single;
     "Touching"%string := object_of single ]}.

(** Two elements with equal centre of mass, area and vertex count; the first
    repeats a vertex. *)
Definition repeated_vertex : Element := element Face 0 4 [vtx 0 0 0; vtx 0 0 0].
Definition two_vertices : Element := element Face 0 4 [vtx 0 0 0; vtx 1 0 0].

Definition two_vertices_swapped : Element := element Face 0 4 [vtx 1 0 0; vtx 0 0 0].

Definition a_compound : Element := element Compound 0 4 [vtx 0 0 0].

End Sample.

(** ** Vocabulary of the statements below *)

(** The reference resolves to an element in the document. *)
Definition resolves (doc : Document) (br : Ref) : Prop :=
  exists bf, resolve doc br = Returned bf.

(** The reference does not resolve: its lookup raises. *)
Definition unresolved (doc : Document) (br : Ref) : Prop :=
  exists e, resolve doc br = Raised e.

(** Tolerant vertex matching between two vertex lists is one-to-one: no two
    positions of either list match the same position of the other. *)
Definition one_to_one_match (l1 l2 : list Vtx.t) : Prop :=
  (forall i i' j v v' w,
      l1 !! i = Some v -> l1 !! i' = Some v' -> l2 !! j = Some w ->
      vertex_match v w = true -> vertex_match v' w = true -> i = i')
  /\ (forall i j j' v w w',
      l1 !! i = Some v -> l2 !! j = Some w -> l2 !! j' = Some w' ->
      vertex_match v w = true -> vertex_match v w' = true -> j = j').

(** Two elements present the same geometry to the matcher. *)
Definition same_geometry_data (e1 e2 : Element) : Prop :=
  CenterOfMass e1 = CenterOfMass e2 /\ Area e1 = Area e2 /\ Vertexes e1 = Vertexes e2.

(** All coordinates and the area of an element are finite floats. *)
Definition finite_vertex (v : Vtx.t) : bool :=
  finite (Vtx.X v) && finite (Vtx.Y v) && finite (Vtx.Z v).

Definition finite_CenterOfMass (e : Element) : bool :=
  finite (x (CenterOfMass e)) && finite (y (CenterOfMass e))
  && finite (z (CenterOfMass e)).

Definition finite_element (e : Element) : bool :=
  finite_CenterOfMass e && finite (Area e) && forallb finite_vertex (Vertexes e).

(** [e'] is [e] with its vertex list reordered. *)
Definition vertex_permuted (e e' : Element) : Prop :=
  ShapeType e' = ShapeType e /\ CenterOfMass e' = CenterOfMass e
  /\ Area e' = Area e /\ Vertexes e' ≡ₚ Vertexes e.

(** The tolerant ordering of the key [c] is consistent on the elements of a
    list: whenever one key is tolerantly below another, every third key is
    tolerantly above the first or tolerantly below the second.  (Keys that
    are tolerantly equal then form clusters that are strictly separated from
    each other.) *)
Definition consistent_keys (c : Element -> float) (fs : list Element) : Prop :=
  forall f g h, f ∈ fs -> g ∈ fs -> h ∈ fs ->
    K_lt (compKeyFn c f) (compKeyFn c h) = true ->
    K_lt (compKeyFn c f) (compKeyFn c g) = true
    \/ K_lt (compKeyFn c g) (compKeyFn c h) = true.

(** The faces of a list can be told apart by their centres of mass, and the
    tolerant ordering is consistent on each axis. *)
Definition separated_CenterOfMass (fs : list Element) : Prop :=
  (forall i j f g, i <> j -> fs !! i = Some f -> fs !! j = Some g ->
                   CenterOfMass_equal f g = false)
  /\ consistent_keys (fun f => x (CenterOfMass f)) fs
  /\ consistent_keys (fun f => y (CenterOfMass f)) fs
  /\ consistent_keys (fun f => z (CenterOfMass f)) fs.

(** ** Vocabulary of the sweep *)

(** Every recorded candidate points into [src_face_list], and there is one
    row per target face. *)
Definition candidates_in_range (n_src n_mesh : nat) (rows : list (list Candidate)) : Prop :=
  length rows = n_mesh /\ Forall (Forall (fun c : Candidate => (c.1.1 < n_src)%nat)) rows.

(** ** Vocabulary of the sorting argument *)

(** Tolerant "less than" on the sort keys of two entries. *)
Definition key_lt {A : Type} (key : A -> K) (a b : A) : Prop :=
  K_lt (key a) (key b) = true.

(** The order a stable sort by [key] produces from a list that arrived in an
    order [prev] ([prev q p]: the list wants [q] before [p]): by key first,
    by the earlier order among entries the key does not separate. *)
Definition refined {A : Type} (key : A -> K) (prev : A -> A -> Prop) (q p : A) : Prop :=
  key_lt key q p \/ (~ key_lt key q p /\ ~ key_lt key p q /\ prev q p).

(** No entry of the list stands behind one that the order wants after it. *)
Definition no_inversion {A : Type} (R : A -> A -> Prop) : list A -> Prop :=
  StronglySorted (fun p q => ~ R q p).

(** The entry's face is one of the faces [fs]. *)
Definition on_fs {A : Type} (face : A -> Element) (fs : list Element) (a : A) : Prop :=
  face a ∈ fs.

(** The keys of the three passes and the orders they produce in turn. *)
Definition keyx {A : Type} (face : A -> Element) : A -> K :=
  compKeyFn (fun bf => x (CenterOfMass (face bf))).
Definition keyy {A : Type} (face : A -> Element) : A -> K :=
  compKeyFn (fun bf => y (CenterOfMass (face bf))).
Definition keyz {A : Type} (face : A -> Element) : A -> K :=
  compKeyFn (fun bf => z (CenterOfMass (face bf))).

Definition after_z {A : Type} (face : A -> Element) : A -> A -> Prop :=
  refined (keyz face) (fun _ _ => False).
Definition after_y {A : Type} (face : A -> Element) : A -> A -> Prop :=
  refined (keyy face) (after_z face).
Definition after_x {A : Type} (face : A -> Element) : A -> A -> Prop :=
  refined (keyx face) (after_y face).

(** ** Vocabulary of the identity case *)

(** Entries [(face, original index, reference)] seen as an entry of
    [src_face_list] (group 0) and as an entry of [mesh_face_list]. *)
Definition as_src (t : SrcFace) : SrcFace := (t.1.1, 0%nat, t.2).
Definition as_mesh (t : SrcFace) : MeshFace := (t.1.1, t.1.2).

(** Rows of [candidate_mesh_faces] when the first [k] sorted faces have been
    paired with themselves and nothing else has been recorded. *)
Definition diag (L : list SrcFace) (k : nat) : list (list Candidate) :=
  imap (fun k' t => if bool_decide (k' < k)%nat then [(k', 0%nat, t.2)] else []) L.

(** [successful_candidates[t's original index].append((0, t's reference))] *)
Definition place (acc : list (list (nat * Ref))) (t : SrcFace) : list (list (nat * Ref)) :=
  match acc !! t.1.2 with
  | Some l => <[t.1.2 := l ++ [(0%nat, t.2)]]> acc
  | None => acc
  end.

(** The faces with their index and their reference. *)
Definition tagged (faces : list Element) (refs : list Ref) : list SrcFace :=
  imap (fun k (fr : Element * Ref) => (fr.1, k, fr.2)) (zip faces refs).

(** ** Vocabulary of the soundness of the bulk matcher *)

(** The entry [(bf, i, br)] of [src_face_list] stems from the reference
    lists: [br] is listed in group [i] and resolves to [bf]. *)
Definition from_ref_lists (doc : Document) (ref_lists : list (list Ref))
    (item : SrcFace) : Prop :=
  exists rl, ref_lists !! item.1.2 = Some rl /\ item.2 ∈ rl
             /\ resolve doc item.2 = Returned item.1.1.

(** Every recorded candidate [(i, group, br)] repeats the group and the
    reference of [src_face_list[i]]. *)
Definition candidates_from (src_face_list : list SrcFace)
    (rows : list (list Candidate)) : Prop :=
  Forall (Forall (fun c : Candidate =>
            exists bf, src_face_list !! c.1.1 = Some (bf, c.1.2, c.2))) rows.

(** Every pair of every entry is backed by an entry of [src_face_list] and
    an entry of [mesh_face_list] that are the same geometry. *)
Definition entries_confirmed (src_face_list : list SrcFace)
    (mesh_face_list : list MeshFace) (acc : list (list (nat * Ref))) : Prop :=
  forall k entry pair, acc !! k = Some entry -> pair ∈ entry ->
    exists bf mf, (bf, pair.1, pair.2) ∈ src_face_list
                  /\ (mf, k) ∈ mesh_face_list
                  /\ isSameGeometry bf mf = Some true.

(** The (group index, reference) pairs handed to the matcher, group by
    group. *)
Definition tagged_refs (first : nat) (ref_lists : list (list Ref)) : list (nat * Ref) :=
  concat (imap (fun i rl => map (pair (first + i)%nat) rl) ref_lists).

(** The pair a confirmed candidate contributes to an entry. *)
Definition pair_of (c : Candidate) : nat * Ref := (c.1.2, c.2).

(** While the sweep stands at [(i, j)], a row never lists a position of
    [src_face_list] twice, and only positions before [i], or [i] itself in
    rows before [j]. *)
Definition rows_distinct (i j : nat) (rows : list (list Candidate)) : Prop :=
  forall j' row, rows !! j' = Some row ->
    NoDup (map (fun c : Candidate => c.1.1) row)
    /\ Forall (fun c : Candidate => (c.1.1 < i)%nat \/ (c.1.1 = i /\ (j' < j)%nat)) row.

(** Every entry is empty or lists, in order, the pairs of some candidates
    of the one row among the first [j0] whose target face has the entry's
    index. *)
Definition entries_from_rows (mesh_face_list : list MeshFace)
    (rows : list (list Candidate)) (j0 : nat) (acc : list (list (nat * Ref))) : Prop :=
  forall k e, acc !! k = Some e ->
    e = []
    \/ exists j' row cs mf,
         (j' < j0)%nat /\ mesh_face_list !! j' = Some (mf, k)
         /\ rows !! j' = Some row /\ cs `sublist_of` row /\ e = map pair_of cs.

(** A coordinate of the centre of mass, or the area, is a NaN. *)
Definition has_nan (e : Element) : bool :=
  is_nan (x (CenterOfMass e)) || is_nan (y (CenterOfMass e))
  || is_nan (z (CenterOfMass e)) || is_nan (Area e).

(** A square whose area is a NaN. *)
Definition nan_area_quad : Element :=
  {| ShapeType := Face; CenterOfMass := CenterOfMass (Sample.quad 0 4);
     Area := S754_nan; Vertexes := Vertexes (Sample.quad 0 4) |}.

From Stdlib Require DecimalNat.

(** The sub-elements of [aShape] that [findElementInShape] walks for a
    candidate of type [ele_st]; a compound candidate is never searched for. *)
Definition searched (aShape : Shape) (ele_st : ShapeTypeName) : list Element :=
  match ele_st with
  | Solid | CompSolid => Solids aShape
  | Face | Shell => Faces aShape
  | Edge | Wire => Edges aShape
  | Vertex => shape_Vertexes aShape
  | Compound => []
  end.

(** [index] is the first position of [l] whose element is the same geometry
    as [anElement]. *)
Definition first_same_geometry (l : list Element) (anElement : Element) (index : nat) : Prop :=
  (exists e, l !! index = Some e /\ isSameGeometry e anElement = Some true)
  /\ forall j e, (j < index)%nat -> l !! j = Some e ->
                 isSameGeometry e anElement <> Some true.

(** * Mesh set-up: CfdMeshTools.py *)

(** ** Float literals and the builtin [min] *)

(** The literals [1.0], [1.2], [0.01] and [0.001]: the binary64 values
    nearest to the decimal fractions. *)
Definition lit_1_0 : float := S754_finite false 4503599627370496 (-52).
Definition lit_1_2 : float := S754_finite false 5404319552844595 (-52).
Definition lit_0_01 : float := S754_finite false 5764607523034235 (-59).
Definition lit_0_001 : float := S754_finite false 4611686018427388 (-62).

(** [a / b], used to cross-check the literals. *)
Definition div (a b : float) : float := SFdiv prec emax a b.

(** The builtin [min(a, b)] keeps its first argument unless the second
    compares strictly smaller. *)
Definition min (a b : float) : float := if lt b a then b else a.

(** Truth value of a float: anything but a zero. *)
Definition float_truthy (a : float) : bool :=
  match a with S754_zero _ => false | _ => true end.

(** ** Face names: [CfdMeshTools.__init__] *)

(** ["face{}".format(i)] *)
Definition face_name (i : nat) : string := String.append "face" (str i).

(** [for (i, f) in enumerate(Faces): shape_face_names.append("face{}".format(i))] *)
Definition shape_face_names (faces : list Element) : list string :=
  imap (fun i _ => face_name i) faces.

(** [for i in range(len(Faces)): BoundaryFaceMap['face'+str(i)] = i+1] of
    [writeMeshCase], starting from the empty dict. *)
Definition BoundaryFaceMap (faces : list Element) : gmap string nat :=
  fold_left (fun m i => <[face_name i := (i + 1)%nat]> m) (seq 0 (length faces)) ∅.

(** ** Limits on refinement parameters: [processRefinements] *)

(** [expratio = min(1.2, max(1.0, expratio))] *)
Definition limit_expratio (expratio : float) : float :=
  min lit_1_2 (max lit_1_0 expratio).

Definition newline : string := String (Ascii.ascii_of_nat 10) EmptyString.

Definition msg_rellen_greater (name : string) : string :=
  String.append "The meshregion: "
    (String.append name
       (String.append " should not use a relative length greater than unity." newline)).

Definition msg_rellen_smaller (name lower : string) : string :=
  String.append "The meshregion: "
    (String.append name
       (String.append " should not use a relative length smaller than "
          (String.append lower (String.append "." newline)))).

(** The limiting of [mr_rellen = mr_obj.RelativeLength] with the lower limit
    [lower], written [lower_str] in the message: the new value and what is
    written to the error console.  The statements stand under
    [if mr_obj.RelativeLength:]; the result is [None] when that test fails
    (a relative length of 0.0 or -0.0), in which case nothing is limited and
    the refinement is reported as not used. *)
Definition limit_rellen (lower : float) (lower_str : string) (name : string)
    (mr_rellen : float) : option (float * list ConsoleOutput) :=
  if float_truthy mr_rellen then
    Some (if gt mr_rellen lit_1_0 then
            (lit_1_0, [PrintError (msg_rellen_greater name)])
          else if lt mr_rellen lower then
            (lower, [PrintError (msg_rellen_smaller name lower_str)])
          else (mr_rellen, []))
  else None.

(** The gmsh branch limits to [0.01], the cfMesh and snappyHexMesh branch to
    [0.001]. *)
Definition limit_rellen_gmsh : string -> float -> option (float * list ConsoleOutput) :=
  limit_rellen lit_0_01 "0.01".

(** ** Boundary layers of the cfMesh branch of [processRefinements] *)

(** The properties of a mesh refinement object that the branch reads;
    [FirstLayerHeight] is the [Value] of the quantity. *)
Record MeshRefinement := mkMeshRefinement {
  Name : string;
  RelativeLength : float;
  References : list Ref;
  Internal : bool;
  NumberLayers : Z;
  ExpansionRatio : float;
  FirstLayerHeight : float
}.

(** An entry of [cf_settings['BoundaryLayers']]. *)
Record BoundaryLayer := mkBoundaryLayer {
  bl_NumberLayers : Z;
  bl_ExpansionRatio : float;
  bl_FirstLayerHeight : float
}.

(** What the boundary-layer loop updates: the [defaultdict]
    [ele_meshpatch_map], the [patch_list] of the refinement and
    [cf_settings['BoundaryLayers']]. *)
Record Settings := mkSettings {
  ele_meshpatch_map : gmap string (list string);
  patch_list : list string;
  BoundaryLayers : gmap string BoundaryLayer
}.

(** [self.scale = 0.001] *)
Definition scale : float := lit_0_001.

(** The list of reference lists handed to [matchFacesToTargetShape]: the
    references of a refinement with more than one layer that is not
    internal, an empty list for any other. *)
Definition region_face_lists (mr_objs : list MeshRefinement) : list (list Ref) :=
  map (fun mr_obj =>
         if (1 <? NumberLayers mr_obj)%Z && negb (Internal mr_obj)
         then References mr_obj else [])
      mr_objs.

(** The entry written for a face matched by [mr_obj]. *)
Definition boundary_layer_of (mr_obj : MeshRefinement) : BoundaryLayer :=
  {| bl_NumberLayers := NumberLayers mr_obj;
     bl_ExpansionRatio := limit_expratio (ExpansionRatio mr_obj);
     bl_FirstLayerHeight := mul scale (FirstLayerHeight mr_obj) |}.

(** The body of [if mr_id == mf[j][0]:] for the face name [sfN]. *)
Definition add_boundary_layer (mr_obj : MeshRefinement) (sfN : string) (st : Settings)
  : Settings :=
  {| ele_meshpatch_map :=
       <[Name mr_obj := default [] (ele_meshpatch_map st !! Name mr_obj) ++ [sfN]]>
         (ele_meshpatch_map st);
     patch_list := patch_list st ++ [sfN];
     BoundaryLayers := <[sfN := boundary_layer_of mr_obj]> (BoundaryLayers st) |}.

(** [for j in range(len(mf)): if mr_id == mf[j][0]: ...] for the entry [mf]
    of face [i]. *)
Fixpoint scan_matched (ShapeFaceNames : list string) (mr_id : nat)
    (mr_obj : MeshRefinement) (i : nat) (mf : list (nat * Ref)) (st : Settings)
  : Outcome Settings :=
  match mf with
  | [] => Returned st
  | p :: mf' =>
      st ← (if bool_decide (mr_id = p.1)
            then sfN ← index_ ShapeFaceNames i;
                 Returned (add_boundary_layer mr_obj sfN st)
            else Returned st);
      scan_matched ShapeFaceNames mr_id mr_obj i mf' st
  end.

(** [for (i, mf) in enumerate(bl_matched_faces): ...], from face [i] on. *)
Fixpoint scan_faces (ShapeFaceNames : list string) (mr_id : nat)
    (mr_obj : MeshRefinement) (i : nat) (bl_matched_faces : list (list (nat * Ref)))
    (st : Settings) : Outcome Settings :=
  match bl_matched_faces with
  | [] => Returned st
  | mf :: rest =>
      st ← scan_matched ShapeFaceNames mr_id mr_obj i mf st;
      scan_faces ShapeFaceNames mr_id mr_obj (S i) rest st
  end.

(** [if mr_obj.RelativeLength: ... if ... mr_obj.NumberLayers > 1 and not
    Internal: for (i, mf) in ...]: the loop stands under both tests. *)
Definition boundary_layers (ShapeFaceNames : list string)
    (bl_matched_faces : list (list (nat * Ref))) (mr_id : nat)
    (mr_obj : MeshRefinement) (st : Settings) : Outcome Settings :=
  if float_truthy (RelativeLength mr_obj) then
    if (1 <? NumberLayers mr_obj)%Z && negb (Internal mr_obj)
    then scan_faces ShapeFaceNames mr_id mr_obj 0 bl_matched_faces st
    else Returned st
  else Returned st.

(** Some pair of the entry belongs to refinement [mr_id]. *)
Definition touched (mr_id : nat) (mf : list (nat * Ref)) : bool :=
  existsb (fun p => bool_decide (mr_id = p.1)) mf.

(** Two refinements with boundary layers on the first and on the last face
    of [Sample.strip], and the empty settings. *)
Definition sample_refinement (name face : string) : MeshRefinement :=
  {| Name := name; RelativeLength := lit_0_01;
     References := [("Strip"%string, face)]; Internal := false;
     NumberLayers := 3; ExpansionRatio := of_int 2; FirstLayerHeight := of_int 1 |}.

Definition sample_refinements : list MeshRefinement :=
  [sample_refinement "MeshRefinement" "Face1";
   sample_refinement "MeshRefinement001" "Face3"].

Definition no_settings : Settings :=
  {| ele_meshpatch_map := ∅; patch_list := []; BoundaryLayers := ∅ |}.

(** * Members of an analysis: the getters of CfdTools.py *)

(** The proxy classes the getters test with [isinstance]. *)
Inductive ProxyClass :=
  | _CfdAnalysis | _CfdMesh | _CfdMeshRefinement | _CfdSolverFoam
  | _CfdInitialVariables | _CfdFluidBoundary | OtherProxy.

Global Instance ProxyClass_eq_dec : EqDecision ProxyClass.
Proof. solve_decision. Defined.

(** A document object as the getters see it: its [Name], and its [Proxy]
    when it has that attribute. *)
Record FCObject := mkFCObject {
  obj_Name : string;
  Proxy : option ProxyClass
}.

Global Instance FCObject_eq_dec : EqDecision FCObject.
Proof. solve_decision. Defined.

(** [hasattr(i, "Proxy") and isinstance(i.Proxy, cls)] *)
Definition has_proxy (cls : ProxyClass) (i : FCObject) : bool :=
  match Proxy i with
  | Some c => bool_decide (c = cls)
  | None => false
  end.

(** [s.startswith(p)] *)
Definition startswith (s p : string) : bool := String.prefix p s.

(** [sub in s] *)
Fixpoint contains (sub s : string) : bool :=
  String.prefix sub s
  || match s with
     | EmptyString => false
     | String _ s' => contains sub s'
     end.

(** [getMesh]: the first member that is a mesh object, or [None]. *)
Fixpoint getMesh (Group : list FCObject) : option FCObject :=
  match Group with
  | [] => None
  | i :: rest => if has_proxy _CfdMesh i then Some i else getMesh rest
  end.

Definition msg_more_than_one_mesh : string :=
  "Analysis contains more than one mesh object.".

(** The loop of [getMeshObject] over [members], with its variables
    [isPresent] and [meshObj] and the console output so far. *)
Fixpoint getMeshObject_loop (members : list FCObject) (isPresent : bool)
    (meshObj : list FCObject) (out : list ConsoleOutput)
  : bool * list FCObject * list ConsoleOutput :=
  match members with
  | [] => (isPresent, meshObj, out)
  | i :: rest =>
      if has_proxy _CfdMesh i then
        if isPresent
        then getMeshObject_loop rest isPresent meshObj
               (out ++ [PrintError msg_more_than_one_mesh])
        else getMeshObject_loop rest true (meshObj ++ [i]) out
      else getMeshObject_loop rest isPresent meshObj out
  end.

(** [getMeshObject]: [analysis_object] is the [Group] of the analysis, or
    [None]; [Objects] are the objects of the active document.  The result is
    [meshObj[0]], an object or [None], with the console output; [IndexError]
    stands for an empty [meshObj] at that point. *)
Definition getMeshObject (analysis_object : option (list FCObject))
    (Objects : list FCObject) : Outcome (option FCObject) * list ConsoleOutput :=
  let members :=
    match analysis_object with
    | Some Group => Group
    | None => Objects
    end in
  let '(isPresent, meshObj, out) := getMeshObject_loop members false [] [] in
  let meshObj := if isPresent then Some <$> meshObj else [None] in
  (index_ meshObj 0, out).

(** [getPorousZoneObjects], [getInitialisationZoneObjects], [getZoneObjects] *)
Definition getPorousZoneObjects (Group : list FCObject) : list FCObject :=
  filter (fun i => startswith (obj_Name i) "PorousZone" = true) Group.

Definition getInitialisationZoneObjects (Group : list FCObject) : list FCObject :=
  filter (fun i => startswith (obj_Name i) "InitialisationZone" = true) Group.

Definition getZoneObjects (Group : list FCObject) : list FCObject :=
  filter (fun i => contains "Zone" (obj_Name i) = true) Group.

(** [getPhysicsModel]: the loop keeps overwriting [physicsModel]. *)
Definition getPhysicsModel (Group : list FCObject) : option FCObject :=
  let '(isPresent, physicsModel) :=
    fold_left
      (fun (st : bool * option FCObject) i =>
         if contains "PhysicsModel" (obj_Name i) then (true, Some i) else st)
      Group (false, None) in
  if isPresent then physicsModel else None.

(** [getMeshRefinementObjs]: [ref_objs = ref_objs + [obj]] for every
    refinement object of the group. *)
Definition getMeshRefinementObjs (Group : list FCObject) : list FCObject :=
  fold_left
    (fun ref_objs obj =>
       if has_proxy _CfdMeshRefinement obj then ref_objs ++ [obj] else ref_objs)
    Group [].

(** ** The active analysis *)

(** An object of the active document with its [IsActiveAnalysis] flag. *)
Record DocObject := mkDocObject {
  doc_obj : FCObject;
  IsActiveAnalysis : bool
}.

Definition set_IsActiveAnalysis (b : bool) (obj : DocObject) : DocObject :=
  {| doc_obj := doc_obj obj; IsActiveAnalysis := b |}.

(** [setActiveAnalysis(analysis)], where [analysis] is the object at that
    position of [FreeCAD.ActiveDocument.Objects]: the new state of the
    objects. *)
Definition setActiveAnalysis (Objects : list DocObject) (analysis : nat) : list DocObject :=
  let Objects :=
    map (fun obj => if has_proxy _CfdAnalysis (doc_obj obj)
                    then set_IsActiveAnalysis false obj else obj) Objects in
  alter (set_IsActiveAnalysis true) analysis Objects.

(** [getActiveAnalysis()]: the position and the object, or [None]. *)
Fixpoint getActiveAnalysis_from (Objects : list DocObject) (pos : nat)
  : option (nat * DocObject) :=
  match Objects with
  | [] => None
  | obj :: rest =>
      if has_proxy _CfdAnalysis (doc_obj obj) && IsActiveAnalysis obj
      then Some (pos, obj)
      else getActiveAnalysis_from rest (S pos)
  end.

Definition getActiveAnalysis (Objects : list DocObject) : option (nat * DocObject) :=
  getActiveAnalysis_from Objects 0.

(** A document with a mesh object and two analyses, the first one active. *)
Definition sample_objects : list DocObject :=
  [ {| doc_obj := {| obj_Name := "CfdAnalysis"; Proxy := Some _CfdAnalysis |};
       IsActiveAnalysis := true |};
    {| doc_obj := {| obj_Name := "Box_Mesh"; Proxy := Some _CfdMesh |};
       IsActiveAnalysis := false |};
    {| doc_obj := {| obj_Name := "CfdAnalysis001"; Proxy := Some _CfdAnalysis |};
       IsActiveAnalysis := false |} ].

(** ** Index lists of the gmsh settings: [writeMeshCase] *)

(** [c in chars] for a character *)
Fixpoint char_in (c : Ascii.ascii) (chars : string) : bool :=
  match chars with
  | EmptyString => false
  | String a chars' => Ascii.eqb c a || char_in c chars'
  end.

(** [s.rstrip(chars)]: [s] without its longest tail made of characters of
    [chars]. *)
Fixpoint rstrip (chars s : string) : string :=
  match s with
  | EmptyString => EmptyString
  | String c s' =>
      match rstrip chars s' with
      | EmptyString => if char_in c chars then EmptyString else String c EmptyString
      | r => String c r
      end
  end.

(** [''.join(l)] and [sep.join(l)] *)
Definition join (l : list string) : string := fold_right String.append EmptyString l.

Fixpoint sep_join (sep : string) (l : list string) : string :=
  match l with
  | [] => EmptyString
  | [s] => s
  | s :: rest => String.append s (String.append sep (sep_join sep rest))
  end.

(** [(''.join((str(n+1) + ', ') for n in ns)).rstrip(', ')] *)
Definition index_list (ns : list nat) : string :=
  rstrip ", " (join (map (fun n => String.append (str (n + 1)) ", ") ns)).

(** [gmsh_settings['Solids']], with [range(len(Solids))] for [ns] *)
Definition Solids_setting (aShape : Shape) : string :=
  index_list (seq 0 (length (Solids aShape))).

(** Every character is a decimal digit. *)
Definition is_digit (c : Ascii.ascii) : bool :=
  (48 <=? Ascii.nat_of_ascii c)%nat && (Ascii.nat_of_ascii c <=? 57)%nat.

Fixpoint all_digits (s : string) : bool :=
  match s with
  | EmptyString => true
  | String c s' => is_digit c && all_digits s'
  end.

(** ** Vocabulary of the completeness argument *)

(** The candidate row of target position [j] holds reference position [i]. *)
Definition recorded (rows : list (list Candidate)) (i j : nat) : Prop :=
  exists row c, rows !! j = Some row /\ c ∈ row /\ c.1.1 = i.

(** What the sweep has dealt with when it stands at [st]: every match of an
    earlier reference position is recorded; so is every match of the
    current one with an earlier target position; no earlier target position
    compares above the current reference position; and a run of matches
    started at or before the current target position. *)
Definition covered (src_face_list : list SrcFace) (mesh_face_list : list MeshFace)
    (st : Sweep.State) : Prop :=
  (forall i' j' s m,
      (i' < Sweep.i st)%nat -> src_face_list !! i' = Some s ->
      mesh_face_list !! j' = Some m -> CofM_cmp s.1.1 m.1 = 0%Z ->
      recorded (Sweep.candidate_mesh_faces st) i' j')
  /\ (forall j' s m,
        (j' < Sweep.j st)%nat -> src_face_list !! Sweep.i st = Some s ->
        mesh_face_list !! j' = Some m -> CofM_cmp s.1.1 m.1 = 0%Z ->
        recorded (Sweep.candidate_mesh_faces st) (Sweep.i st) j')
  /\ (forall j' s m,
        (j' < Sweep.j st)%nat -> src_face_list !! Sweep.i st = Some s ->
        mesh_face_list !! j' = Some m -> CofM_cmp s.1.1 m.1 <> (-1)%Z)
  /\ (Sweep.matching st = true -> (Sweep.j_match_start st <= Sweep.j st)%nat).

(** The candidate passes the comprehensive check against [mf]. *)
Definition confirmed (src_face_list : list SrcFace) (mf : Element) (c : Candidate) : bool :=
  match src_face_list !! c.1.1 with
  | Some s => truthy (isSameGeometry s.1.1 mf)
  | None => false
  end.

(** No two reference occurrences of the call resolve to elements with
    tolerantly equal centres of mass. *)
Definition no_reference_ties (doc : Document) (ref_lists : list (list Ref)) : Prop :=
  forall p q br br' bf bf',
    p <> q -> concat ref_lists !! p = Some br -> concat ref_lists !! q = Some br' ->
    resolve doc br = Returned bf -> resolve doc br' = Returned bf' ->
    CenterOfMass_equal bf bf' = false.

(** The elements the references resolve to and the faces of the target
    shape are all among [fs]. *)
Definition elements_among (doc : Document) (ref_lists : list (list Ref)) (shape : Shape)
    (fs : list Element) : Prop :=
  (forall rl br bf, rl ∈ ref_lists -> br ∈ rl -> resolve doc br = Returned bf -> bf ∈ fs)
  /\ (forall f, f ∈ Faces shape -> f ∈ fs).

(** * [floatEqual] and exact values *)

From Stdlib Require QArith Qabs Qminmax Qpower.

(** The binary64 values a Python float can take: the canonical
    representations. *)
Definition well_formed (a : float) : Prop := valid_binary prec emax a = true.

(** The number [m * 2^e] rounded to binary64, to nearest with ties to even;
    a number too large in magnitude gives an infinity. *)
Definition rounded (m e : Z) : float := binary_normalize prec emax m e false.

(** The comparisons [x < y] and [x <= y] of two binary64 values. *)
Definition below (x y : float) : Prop := SFcompare x y = Some Lt.
Definition at_most (x y : float) : Prop :=
  SFcompare x y = Some Lt \/ SFcompare x y = Some Eq.

Module Exact.
Import QArith Qabs Qminmax.
Local Open Scope Q_scope.

(** The rational number [m * 2^e]. *)
Definition dyadic (m e : Z) : Q := inject_Z m * 2 ^ e.

(** The number a finite float stands for. *)
Definition value (a : float) : Q :=
  match a with
  | S754_finite s m e => dyadic (cond_Zopp s (Zpos m)) e
  | _ => 0
  end.

(** The contract of the specification read over exact values, with the
    absolute tolerance [tol]: [|a - b| < tol] or
    [|a - b| <= 10 * 2^-52 * max(|a|, |b|)]. *)
Definition exact_contract (tol : Q) (a b : float) : Prop :=
  Qabs (value a - value b) < tol
  \/ Qabs (value a - value b)
     <= 10 * 2 ^ (-52) * Qmax (Qabs (value a)) (Qabs (value b)).

(** [m * 2^e] is exactly [a - b]. *)
Definition is_difference (m e : Z) (a b : float) : Prop :=
  dyadic m e == value a - value b.

(** [m * 2^e] is exactly [10 * 2^-52 * max(|a|, |b|)]. *)
Definition is_relative_bound (m e : Z) (a b : float) : Prop :=
  dyadic m e == 10 * 2 ^ (-52) * Qmax (Qabs (value a)) (Qabs (value b)).

(** The real number 10^-12. *)
Definition ten_to_minus_12 : Q := 1 / 10 ^ 12.

(** The float [x] is within half a unit in its last place of the number
    [q]: it is [q] rounded to nearest. *)
Definition nearest (x : float) (q : Q) : Prop :=
  match x with
  | S754_finite _ _ e => Qabs (value x - q) <= dyadic 1 (e - 1)
  | _ => False
  end.

End Exact.

(** The floats 1228.8, 1228.8 - 12 * 2^-42 and 5e-324. *)
Definition lit_1228_8 : float := S754_finite false 5404319552844595 (-42).
Definition below_1228_8 : float := S754_finite false 5404319552844583 (-42).
Definition lit_5e_324 : float := S754_finite false 1 (-1074).
(** ** Facts about binary64 comparison and subtraction *)

Section FloatFacts.

Lemma SFcompare_antisym (a b : float) :
  SFcompare b a = CompOpp <$> SFcompare a b.
Proof.
  destruct a as [sa|sa| |sa ma ea], b as [sb|sb| |sb mb eb];
    try destruct sa; try destruct sb; simpl; try reflexivity.
  - rewrite (Z.compare_antisym ea eb).
    change (Pos.compare_cont Eq mb ma) with (Pos.compare mb ma).
    change (Pos.compare_cont Eq ma mb) with (Pos.compare ma mb).
    rewrite (Pos.compare_antisym ma mb).
    destruct (ea ?= eb); simpl; try reflexivity.
  - rewrite (Z.compare_antisym ea eb).
    change (Pos.compare_cont Eq mb ma) with (Pos.compare mb ma).
    change (Pos.compare_cont Eq ma mb) with (Pos.compare ma mb).
    rewrite (Pos.compare_antisym ma mb).
    destruct (ea ?= eb); simpl; try reflexivity.
Qed.

Lemma lt_asym (a b : float) : lt a b = true -> lt b a = false.
Proof.
  unfold lt, SFltb. rewrite (SFcompare_antisym a b).
  destruct (SFcompare a b) as [[]|]; simpl; congruence.
Qed.

Lemma SFcompare_finite (a b : float) :
  finite a = true -> finite b = true -> is_Some (SFcompare a b).
Proof.
  destruct a, b; simpl; intros; try discriminate; eauto.
Qed.

(** Equal magnitudes are the same value. *)
Lemma SFcompare_abs_Eq (a b : float) :
  SFcompare (abs a) (abs b) = Some Eq -> abs a = abs b.
Proof.
  destruct a as [sa|sa| |sa ma ea], b as [sb|sb| |sb mb eb];
    simpl; intros H; try discriminate; try reflexivity.
  destruct (ea ?= eb) eqn:He; try discriminate.
  apply Z.compare_eq in He. injection H as H.
  apply Pos.compare_eq in H. congruence.
Qed.

Lemma max_abs_sym (a b : float) :
  is_nan a = false -> is_nan b = false ->
  max (abs a) (abs b) = max (abs b) (abs a).
Proof.
  intros Ha Hb. unfold max, gt, SFltb.
  rewrite (SFcompare_antisym (abs a) (abs b)).
  destruct (SFcompare (abs a) (abs b)) as [[]|] eqn:Hc; simpl; try reflexivity.
  - now apply SFcompare_abs_Eq.
  - destruct a, b; simpl in *; discriminate.
Qed.

Lemma abs_binary_round (s : bool) (m : positive) (e : Z) :
  SFabs (binary_round prec emax s m e) = SFabs (binary_round prec emax false m e).
Proof.
  unfold binary_round, binary_round_aux.
  destruct (shl_align _ _ _) as [mz ez].
  destruct (shr_fexp _ _ _ _ _) as [mrs' e'].
  destruct (shr_fexp _ _ _ _ _) as [mrs'' e''].
  destruct (shr_m mrs''); try reflexivity.
  destruct (e'' <=? emax - prec); reflexivity.
Qed.

Lemma abs_binary_normalize_opp (z e : Z) :
  SFabs (binary_normalize prec emax (- z) e false)
  = SFabs (binary_normalize prec emax z e false).
Proof.
  destruct z; simpl; try reflexivity.
  - apply abs_binary_round.
  - symmetry. apply abs_binary_round.
Qed.

Lemma abs_sub_sym (a b : float) : abs (sub a b) = abs (sub b a).
Proof.
  destruct a as [sa|sa| |sa ma ea], b as [sb|sb| |sb mb eb];
    try destruct sa; try destruct sb; try reflexivity;
    unfold abs, sub, SFsub;
    rewrite (Z.min_comm eb ea), <- abs_binary_normalize_opp;
    f_equal; f_equal; unfold cond_Zopp; lia.
Qed.

Lemma sub_diag (a : float) : finite a = true -> abs (sub a a) = S754_zero false.
Proof.
  destruct a as [s|s| |s m e]; try discriminate; intros _.
  - destruct s; reflexivity.
  - unfold abs, sub, SFsub. rewrite Z.sub_diag. reflexivity.
Qed.

Lemma sub_compare_Eq (a b : float) :
  finite a = true -> finite b = true ->
  SFcompare a b = Some Eq -> abs (sub a b) = S754_zero false.
Proof.
  destruct a as [sa|sa| |sa ma ea], b as [sb|sb| |sb mb eb];
    try discriminate; intros _ _.
  - destruct sa, sb; reflexivity.
  - destruct sb; discriminate.
  - destruct sa; discriminate.
  - intros H. assert (sa = sb /\ ea = eb /\ ma = mb) as (-> & -> & ->).
    { simpl in H. destruct sa, sb; try discriminate;
        destruct (ea ?= eb) eqn:He; try discriminate;
        apply Z.compare_eq in He; injection H as H;
        change (Pos.compare_cont Eq ma mb) with (Pos.compare ma mb) in H;
        destruct (Pos.compare ma mb) eqn:Hm; try discriminate;
        apply Pos.compare_eq in Hm; auto. }
    apply (sub_diag (S754_finite sb mb eb)). reflexivity.
Qed.

End FloatFacts.

(** ** Algebra of [floatEqual] *)

Lemma floatEqual_zero_diff (a b : float) :
  abs (sub a b) = S754_zero false -> floatEqual a b = true.
Proof. unfold floatEqual. intros ->. reflexivity. Qed.

Lemma floatEqual_refl (a : float) : finite a = true -> floatEqual a a = true.
Proof. intros Ha. apply floatEqual_zero_diff. now apply sub_diag. Qed.

Lemma floatEqual_nan_l (a b : float) : is_nan a = true -> floatEqual a b = false.
Proof. destruct a; try discriminate. destruct b; reflexivity. Qed.

Lemma floatEqual_nan_r (a b : float) : is_nan b = true -> floatEqual a b = false.
Proof. destruct b; try discriminate. destruct a; reflexivity. Qed.

Lemma floatEqual_sym (a b : float) : floatEqual a b = floatEqual b a.
Proof.
  destruct (is_nan a) eqn:Ha.
  { now rewrite floatEqual_nan_l, floatEqual_nan_r. }
  destruct (is_nan b) eqn:Hb.
  { now rewrite floatEqual_nan_r, floatEqual_nan_l. }
  unfold floatEqual. now rewrite (abs_sub_sym a b), (max_abs_sym a b).
Qed.

Lemma floatEqual_compare_Eq (a b : float) :
  finite a = true -> finite b = true ->
  SFcompare a b = Some Eq -> floatEqual a b = true.
Proof. intros Ha Hb H. apply floatEqual_zero_diff. now apply sub_compare_Eq. Qed.

(** Two finite values that are not tolerantly equal are strictly ordered one
    way or the other. *)
Lemma floatEqual_false_lt (a b : float) :
  finite a = true -> finite b = true -> floatEqual a b = false ->
  lt a b = negb (lt b a).
Proof.
  intros Ha Hb Hfe.
  destruct (SFcompare_finite a b Ha Hb) as [c Hc].
  unfold lt, SFltb. rewrite (SFcompare_antisym a b), Hc.
  destruct c; simpl; try reflexivity.
  rewrite (floatEqual_compare_Eq a b) in Hfe by assumption. discriminate.
Qed.

(** The two tolerances have the values the source names: [epsilon] is 2^-52,
    [reltol] is exactly ten times that, and [abstol] is the binary64 value
    within half a unit in the last place (2^-93) of 10^-12. *)
Lemma tolerance_constants :
  epsilon = pow2 (-52)
  /\ reltol = S754_finite false (10 * 2 ^ 49) (-49 - 52)
  /\ valid_binary prec emax abstol = true
  /\ abstol = S754_finite false 4951760157141521 (-92)
  /\ 2 * Z.abs (4951760157141521 * 10 ^ 12 - 2 ^ 92) <= 10 ^ 12.
Proof. repeat split; vm_compute; congruence. Qed.

(** The two tests of [floatEqual], on the float operations: the magnitude of
    the computed difference is below the float 1e-12, or is at most the
    computed product of ten machine epsilons and the larger magnitude. *)
Lemma floatEqual_contract (a b : float) :
  floatEqual a b = true <-> within_abstol a b \/ within_reltol a b.
Proof.
  unfold floatEqual, within_abstol, within_reltol, larger_magnitude.
  unfold lt, le, max, gt, SFltb, SFleb, reltol, abstol.
  rewrite orb_true_iff.
  destruct (SFcompare (abs a) (abs b)) as [[]|];
    destruct (SFcompare (abs (sub a b)) lit_1e_12) as [[]|];
    match goal with
    | |- context [SFcompare ?u (mul ?r ?v)] =>
        destruct (SFcompare u (mul r v)) as [[]|]
    end; intuition congruence.
Qed.

Lemma K_trichotomy_bool (a b : float) :
  finite a = true -> finite b = true ->
  exactly_one (K_lt (mkK a) (mkK b)) (K_eq (mkK a) (mkK b)) (K_gt (mkK a) (mkK b)).
Proof.
  intros Ha Hb. unfold exactly_one, K_lt, K_eq, K_gt, gt. simpl.
  destruct (floatEqual a b) eqn:Hfe.
  - rewrite !andb_false_r. auto.
  - rewrite !andb_true_r, (floatEqual_false_lt a b Ha Hb Hfe).
    unfold lt. destruct (SFltb b a); simpl; auto 10.
Qed.


(** ** The sort key wrapper is a trichotomy but not a preorder *)

Lemma K_le_chain :
  let a := compKeyFn id (pow2 (-39)) in
  let b := compKeyFn id (pow2 (-40)) in
  let c := compKeyFn id (of_int 0) in
  K_le a b = true /\ K_le b c = true /\ K_le a c = false
  /\ K_eq a b = true /\ K_eq b c = true /\ K_eq a c = false.
Proof. vm_compute. repeat split. Qed.

(** C8, as stated, fails: on the finite keys 2^-39, 2^-40 and 0 the
    comparison [<=] of the wrapper holds from the first to the second and
    from the second to the third but not from the first to the third, so the
    wrapper's order is not a preorder. *)
Lemma compKeyFn_not_total_preorder :
  K_le (compKeyFn id (pow2 (-39))) (compKeyFn id (pow2 (-40))) = true
  /\ K_le (compKeyFn id (pow2 (-40))) (compKeyFn id (of_int 0)) = true
  /\ K_le (compKeyFn id (pow2 (-39))) (compKeyFn id (of_int 0)) = false
  /\ ~ total_preorder finite_key K_le.
Proof.
  destruct K_le_chain as (Hab & Hbc & Hac & _).
  repeat split; try assumption.
  intros [_ Htrans].
  assert (H39 : finite_key (compKeyFn id (pow2 (-39)))) by (vm_compute; reflexivity).
  assert (H40 : finite_key (compKeyFn id (pow2 (-40)))) by (vm_compute; reflexivity).
  assert (H0 : finite_key (compKeyFn id (of_int 0))) by (vm_compute; reflexivity).
  pose proof (Htrans _ _ _ H39 H40 H0 Hab Hbc).
  congruence.
Qed.

(** C8, amended: for finite key values exactly one of [<], [==], [>] of the
    wrapper holds; [==] holds exactly when [floatEqual] does; and when
    [floatEqual] is false, [<] and [>] are the numeric comparisons.  (No
    transitivity is claimed.) *)
Theorem compKeyFn_trichotomy {A : Type} (key : A -> float) (u v : A) :
  finite (key u) = true -> finite (key v) = true ->
  exactly_one (K_lt (compKeyFn key u) (compKeyFn key v))
              (K_eq (compKeyFn key u) (compKeyFn key v))
              (K_gt (compKeyFn key u) (compKeyFn key v))
  /\ K_eq (compKeyFn key u) (compKeyFn key v) = floatEqual (key u) (key v)
  /\ (floatEqual (key u) (key v) = false ->
      K_lt (compKeyFn key u) (compKeyFn key v) = lt (key u) (key v)
      /\ K_gt (compKeyFn key u) (compKeyFn key v) = gt (key u) (key v)).
Proof.
  intros Hu Hv. split; [|split].
  - now apply K_trichotomy_bool.
  - reflexivity.
  - intros Hfe. unfold K_lt, K_gt, compKeyFn. simpl.
    rewrite Hfe, !andb_true_r. auto.
Qed.

Lemma compKeyFn_trichotomy_witness :
  exactly_one (K_lt (compKeyFn id (of_int 1)) (compKeyFn id (of_int 2)))
              (K_eq (compKeyFn id (of_int 1)) (compKeyFn id (of_int 2)))
              (K_gt (compKeyFn id (of_int 1)) (compKeyFn id (of_int 2)))
  /\ K_eq (compKeyFn id (of_int 1)) (compKeyFn id (of_int 2))
     = floatEqual (of_int 1) (of_int 2)
  /\ (floatEqual (of_int 1) (of_int 2) = false ->
      K_lt (compKeyFn id (of_int 1)) (compKeyFn id (of_int 2)) = lt (of_int 1) (of_int 2)
      /\ K_gt (compKeyFn id (of_int 1)) (compKeyFn id (of_int 2)) = gt (of_int 1) (of_int 2)).
Proof.
  apply (compKeyFn_trichotomy id (of_int 1) (of_int 2)); reflexivity.
Defined.

(** ** [isSameGeometry] *)

Lemma scan_Vertexes_spec (vs1 : Vtx.t) (l2 : list Vtx.t) (n : nat) :
  scan_Vertexes vs1 l2 n
  = (n + if existsb (vertex_match vs1) l2 then 1 else 0)%nat.
Proof.
  induction l2 as [|vs2 l2 IH]; simpl.
  - lia.
  - destruct (vertex_match vs1 vs2); simpl; [lia | exact IH].
Qed.

Lemma count_same_Vertexes_spec (l1 l2 : list Vtx.t) (n : nat) :
  count_same_Vertexes l1 l2 n = (n + matched_vertex_count l1 l2)%nat.
Proof.
  unfold matched_vertex_count.
  revert n. induction l1 as [|vs1 l1 IH]; intros n; simpl.
  - lia.
  - rewrite IH, scan_Vertexes_spec, filter_cons.
    destruct (existsb (vertex_match vs1) l2) eqn:He.
    + rewrite decide_True by reflexivity. simpl. lia.
    + rewrite decide_False by discriminate. lia.
Qed.

Lemma matched_vertex_count_le (l1 l2 : list Vtx.t) :
  (matched_vertex_count l1 l2 <= length l1)%nat.
Proof. apply length_filter. Qed.

(** All vertices of the first list are matched exactly when the count
    reaches the length. *)
Lemma matched_vertex_count_all (l1 l2 : list Vtx.t) :
  matched_vertex_count l1 l2 = length l1
  <-> Forall (fun vs1 => existsb (vertex_match vs1) l2 = true) l1.
Proof.
  unfold matched_vertex_count. induction l1 as [|vs1 l1 IH].
  - split; [constructor | reflexivity].
  - rewrite filter_cons, Forall_cons. case_decide as Hd; simpl.
    + rewrite <- IH. split; [intros; split; [assumption | lia] | intros [_ ?]; lia].
    + pose proof (length_filter (fun vs1 => existsb (vertex_match vs1) l2 = true) l1).
      split; [lia | tauto].
Qed.

Lemma isSameGeometry_unfold (shape1 shape2 : Element) :
  length (Vertexes shape1) = length (Vertexes shape2) ->
  (0 < length (Vertexes shape1))%nat ->
  isSameGeometry shape1 shape2
  = Some (CenterOfMass_equal shape1 shape2
          && floatEqual (Area shape1) (Area shape2)
          && (matched_vertex_count (Vertexes shape1) (Vertexes shape2)
              =? length (Vertexes shape1))%nat).
Proof.
  intros Hlen Hpos. unfold isSameGeometry, CenterOfMass_equal.
  rewrite count_same_Vertexes_spec, Hlen, Nat.eqb_refl. simpl.
  rewrite <- Hlen.
  replace (0 <? length (Vertexes shape1))%nat with true
    by (symmetry; apply Nat.ltb_lt; exact Hpos).
  destruct (floatEqual (x _) (x _)), (floatEqual (y _) (y _)),
    (floatEqual (z _) (z _)), (floatEqual (Area _) (Area _)); simpl; try reflexivity.
  destruct (_ =? _)%nat; reflexivity.
Qed.

(** C5: under equal, positive vertex counts the result is [True] exactly
    when the centres of mass agree on the three axes, the areas agree, and
    the number of matched vertices of the first element equals its vertex
    count; a mismatch of a centre-of-mass component or of the area gives
    [False]. *)
Theorem isSameGeometry_iff (shape1 shape2 : Element) :
  length (Vertexes shape1) = length (Vertexes shape2) ->
  (0 < length (Vertexes shape1))%nat ->
  (isSameGeometry shape1 shape2 = Some true
   <-> floatEqual (x (CenterOfMass shape1)) (x (CenterOfMass shape2)) = true
       /\ floatEqual (y (CenterOfMass shape1)) (y (CenterOfMass shape2)) = true
       /\ floatEqual (z (CenterOfMass shape1)) (z (CenterOfMass shape2)) = true
       /\ floatEqual (Area shape1) (Area shape2) = true
       /\ matched_vertex_count (Vertexes shape1) (Vertexes shape2)
          = length (Vertexes shape1))
  /\ (floatEqual (x (CenterOfMass shape1)) (x (CenterOfMass shape2)) = false
      \/ floatEqual (y (CenterOfMass shape1)) (y (CenterOfMass shape2)) = false
      \/ floatEqual (z (CenterOfMass shape1)) (z (CenterOfMass shape2)) = false
      \/ floatEqual (Area shape1) (Area shape2) = false ->
      isSameGeometry shape1 shape2 = Some false)
  /\ (isSameGeometry shape1 shape2 = Some true
      \/ isSameGeometry shape1 shape2 = Some false).
Proof.
  intros Hlen Hpos. rewrite (isSameGeometry_unfold _ _ Hlen Hpos).
  unfold CenterOfMass_equal.
  destruct (floatEqual (x _) (x _)), (floatEqual (y _) (y _)),
    (floatEqual (z _) (z _)), (floatEqual (Area _) (Area _)); simpl;
    try (split; [split; [discriminate | intuition discriminate]
                | split; [reflexivity | auto]]).
  destruct (_ =? _)%nat eqn:He.
  - apply Nat.eqb_eq in He. split; [tauto | split; [intuition discriminate | auto]].
  - apply Nat.eqb_neq in He.
    split; [split; [discriminate | tauto] | split; [reflexivity | auto]].
Qed.

Lemma isSameGeometry_iff_witness :
  (isSameGeometry (Sample.quad 0 4) (Sample.quad_permuted 0 4) = Some true
   <-> floatEqual (x (CenterOfMass (Sample.quad 0 4)))
         (x (CenterOfMass (Sample.quad_permuted 0 4))) = true
       /\ floatEqual (y (CenterOfMass (Sample.quad 0 4)))
            (y (CenterOfMass (Sample.quad_permuted 0 4))) = true
       /\ floatEqual (z (CenterOfMass (Sample.quad 0 4)))
            (z (CenterOfMass (Sample.quad_permuted 0 4))) = true
       /\ floatEqual (Area (Sample.quad 0 4)) (Area (Sample.quad_permuted 0 4)) = true
       /\ matched_vertex_count (Vertexes (Sample.quad 0 4))
            (Vertexes (Sample.quad_permuted 0 4))
          = length (Vertexes (Sample.quad 0 4)))
  /\ (floatEqual (x (CenterOfMass (Sample.quad 0 4)))
        (x (CenterOfMass (Sample.quad_permuted 0 4))) = false
      \/ floatEqual (y (CenterOfMass (Sample.quad 0 4)))
           (y (CenterOfMass (Sample.quad_permuted 0 4))) = false
      \/ floatEqual (z (CenterOfMass (Sample.quad 0 4)))
           (z (CenterOfMass (Sample.quad_permuted 0 4))) = false
      \/ floatEqual (Area (Sample.quad 0 4)) (Area (Sample.quad_permuted 0 4)) = false ->
      isSameGeometry (Sample.quad 0 4) (Sample.quad_permuted 0 4) = Some false)
  /\ (isSameGeometry (Sample.quad 0 4) (Sample.quad_permuted 0 4) = Some true
      \/ isSameGeometry (Sample.quad 0 4) (Sample.quad_permuted 0 4) = Some false).
Proof.
  apply (isSameGeometry_iff (Sample.quad 0 4) (Sample.quad_permuted 0 4)).
  - reflexivity.
  - simpl. lia.
Defined.

Lemma isSameGeometry_None (shape1 shape2 : Element) :
  ~ (length (Vertexes shape1) = length (Vertexes shape2)
     /\ (0 < length (Vertexes shape1))%nat) ->
  isSameGeometry shape1 shape2 = None.
Proof.
  intros Hn. unfold isSameGeometry.
  destruct (length (Vertexes shape1) =? length (Vertexes shape2))%nat eqn:He;
    [|reflexivity].
  apply Nat.eqb_eq in He.
  destruct (0 <? length (Vertexes shape1))%nat eqn:Hp; [|reflexivity].
  apply Nat.ltb_lt in Hp. tauto.
Qed.

(** C10: the result is [None] exactly when the vertex counts differ or both
    vertex lists are empty; it is a boolean exactly under equal, positive
    vertex counts; and in an [if] a [None] counts as [False] does. *)
Theorem isSameGeometry_None_iff (shape1 shape2 : Element) :
  (isSameGeometry shape1 shape2 = None
   <-> length (Vertexes shape1) <> length (Vertexes shape2)
       \/ (Vertexes shape1 = [] /\ Vertexes shape2 = []))
  /\ (is_Some (isSameGeometry shape1 shape2)
      <-> length (Vertexes shape1) = length (Vertexes shape2)
          /\ (0 < length (Vertexes shape1))%nat)
  /\ (isSameGeometry shape1 shape2 = None ->
      isSameGeometry shape1 shape2 <> Some false
      /\ truthy (isSameGeometry shape1 shape2) = truthy (Some false)).
Proof.
  destruct (decide (length (Vertexes shape1) = length (Vertexes shape2)
                    /\ (0 < length (Vertexes shape1))%nat)) as [[Hlen Hpos]|Hn].
  - rewrite (isSameGeometry_unfold _ _ Hlen Hpos).
    split; [|split].
    + split; [discriminate|].
      intros [Hne | [H1 _]]; [congruence|].
      rewrite H1 in Hpos. simpl in Hpos. lia.
    + split; [tauto | eauto].
    + discriminate.
  - rewrite (isSameGeometry_None _ _ Hn). split; [|split].
    + split; [|reflexivity]. intros _.
      destruct (decide (length (Vertexes shape1) = length (Vertexes shape2))) as [He|]; [|tauto].
      right. destruct (Vertexes shape1) as [|a l1], (Vertexes shape2) as [|b l2];
        simpl in *; try discriminate; try tauto.
      exfalso. apply Hn. split; [assumption | lia].
    + split; [intros [b Hb]; discriminate | tauto].
    + intros _. split; [discriminate | reflexivity].
Qed.

(** ** [findElementInShape] and compounds *)

(** C3, as stated, fails: for a compound candidate the value returned is
    [None], the very value returned for a face that is not found; the only
    trace is a message on the error console. *)
Lemma findElementInShape_Compound_returns_None :
  ShapeType Sample.a_compound = Compound
  /\ (findElementInShape Sample.strip Sample.a_compound).1 = None
  /\ (findElementInShape Sample.strip (Sample.quad 9 4)).1 = None.
Proof. vm_compute. repeat split. Qed.

(** C3, amended: for every target shape a compound candidate makes the
    function write "Compound is not supported." to the error console and
    return [None]; nothing else is written and no exception is raised. *)
Theorem findElementInShape_Compound (aShape : Shape) (anElement : Element) :
  ShapeType anElement = Compound ->
  findElementInShape aShape anElement = (None, [PrintError msg_compound]).
Proof. intros H. unfold findElementInShape. rewrite H. reflexivity. Qed.

Lemma findElementInShape_Compound_witness :
  findElementInShape Sample.strip Sample.a_compound
  = (None, [PrintError msg_compound]).
Proof.
  apply (findElementInShape_Compound Sample.strip Sample.a_compound).
  reflexivity.
Defined.

(** ** Resolution of references *)

Lemma resolve_group_Returned (doc : Document) (i : nat) (rl : list Ref)
    (acc src : list SrcFace) :
  resolve_group doc i rl acc = Returned src -> Forall (resolves doc) rl.
Proof.
  revert acc. induction rl as [|br rl IH]; intros acc H; [constructor|].
  simpl in H. destruct (resolve doc br) as [bf|e] eqn:Hbr; [|discriminate].
  constructor; [now exists bf | exact (IH _ H)].
Qed.

Lemma resolve_group_Raised (doc : Document) (i : nat) (rl : list Ref)
    (acc : list SrcFace) (e : Exception) :
  resolve_group doc i rl acc = Raised e ->
  exists pre br post,
    rl = pre ++ br :: post /\ Forall (resolves doc) pre /\ resolve doc br = Raised e.
Proof.
  revert acc. induction rl as [|br rl IH]; intros acc H; [discriminate|].
  simpl in H. destruct (resolve doc br) as [bf|e'] eqn:Hbr.
  - destruct (IH _ H) as (pre & br' & post & -> & Hpre & Hbr').
    exists (br :: pre), br', post. repeat split; [|assumption].
    constructor; [now exists bf | assumption].
  - injection H as ->. exists [], br, rl. repeat split; [constructor | assumption].
Qed.

Lemma resolve_groups_Returned (doc : Document) (i : nat) (ref_lists : list (list Ref))
    (acc src : list SrcFace) :
  resolve_groups doc i ref_lists acc = Returned src ->
  Forall (Forall (resolves doc)) ref_lists.
Proof.
  revert i acc. induction ref_lists as [|rl rest IH]; intros i acc H; [constructor|].
  simpl in H. destruct (resolve_group doc i rl acc) as [acc'|e] eqn:Hrl; [|discriminate].
  constructor; [exact (resolve_group_Returned _ _ _ _ _ Hrl) | exact (IH _ _ H)].
Qed.

Lemma resolve_groups_Raised (doc : Document) (i : nat) (ref_lists : list (list Ref))
    (acc : list SrcFace) (e : Exception) :
  resolve_groups doc i ref_lists acc = Raised e ->
  exists pre br post,
    concat ref_lists = pre ++ br :: post
    /\ Forall (resolves doc) pre /\ resolve doc br = Raised e.
Proof.
  revert i acc. induction ref_lists as [|rl rest IH]; intros i acc H; [discriminate|].
  simpl in H. destruct (resolve_group doc i rl acc) as [acc'|e'] eqn:Hrl.
  - destruct (IH _ _ H) as (pre & br & post & Hcat & Hpre & Hbr).
    exists (rl ++ pre), br, post. simpl. rewrite Hcat, app_assoc.
    repeat split; [|assumption].
    apply Forall_app. split; [exact (resolve_group_Returned _ _ _ _ _ Hrl) | assumption].
  - injection H as ->.
    destruct (resolve_group_Raised _ _ _ _ _ Hrl) as (pre & br & post & -> & Hpre & Hbr).
    exists pre, br, (post ++ concat rest). simpl. rewrite <- app_assoc.
    repeat split; assumption.
Qed.

Lemma resolves_not_unresolved (doc : Document) (br : Ref) :
  resolves doc br -> ~ unresolved doc br.
Proof. intros [bf H] [e He]. congruence. Qed.

(** C2, as stated, fails: with one reference to a deleted object among
    references that all resolve, the call raises and returns no matching at
    all, neither for the same group nor for the other group. *)
Lemma matchFaces_unresolved_aborts :
  let ref_lists : list (list Ref) :=
    [[("Strip", "Face1"); ("Deleted", "Face1"); ("Strip", "Face3")];
     [("Strip", "Face2")]]%string in
  resolves Sample.doc ("Strip", "Face1")%string
  /\ unresolved Sample.doc ("Deleted", "Face1")%string
  /\ resolves Sample.doc ("Strip", "Face3")%string
  /\ resolves Sample.doc ("Strip", "Face2")%string
  /\ matchFacesToTargetShape Sample.doc ref_lists Sample.strip
     = Raised (RuntimeError (msg_object_not_found "Deleted"))
  /\ forall result,
       matchFacesToTargetShape Sample.doc ref_lists Sample.strip <> Returned result.
Proof.
  assert (H : matchFacesToTargetShape Sample.doc
                [[("Strip", "Face1"); ("Deleted", "Face1"); ("Strip", "Face3")];
                 [("Strip", "Face2")]]%string Sample.strip
              = Raised (RuntimeError (msg_object_not_found "Deleted")))
    by (vm_compute; reflexivity).
  cbv zeta. rewrite H. repeat split.
  - eexists. vm_compute. reflexivity.
  - eexists. vm_compute. reflexivity.
  - eexists. vm_compute. reflexivity.
  - eexists. vm_compute. reflexivity.
  - discriminate.
Qed.

(** C2, amended: when some reference of some group does not resolve, the
    call raises the RuntimeError of the first such reference in group order
    and returns nothing: matching is aborted for every reference. *)
Theorem matchFaces_unresolved_raises (doc : Document) (ref_lists : list (list Ref))
    (shape : Shape) :
  Exists (Exists (unresolved doc)) ref_lists ->
  exists pre br post e,
    concat ref_lists = pre ++ br :: post
    /\ Forall (resolves doc) pre
    /\ resolve doc br = Raised e
    /\ matchFacesToTargetShape doc ref_lists shape = Raised e.
Proof.
  intros Hex. unfold matchFacesToTargetShape.
  destruct (resolve_groups doc 0 ref_lists []) as [src|e] eqn:Hres.
  - exfalso. apply resolve_groups_Returned in Hres.
    apply Exists_exists in Hex as (rl & Hrl & Hex).
    apply Exists_exists in Hex as (br & Hbr & Hun).
    rewrite Forall_forall in Hres. specialize (Hres rl Hrl).
    rewrite Forall_forall in Hres. specialize (Hres br Hbr).
    exact (resolves_not_unresolved _ _ Hres Hun).
  - destruct (resolve_groups_Raised _ _ _ _ _ Hres) as (pre & br & post & Hcat & Hpre & Hbr).
    exists pre, br, post, e. repeat split; assumption.
Qed.

Lemma matchFaces_unresolved_raises_witness :
  exists pre br post e,
    concat [[("Strip", "Face1"); ("Deleted", "Face1")]; [("Strip", "Face2")]]%string
    = pre ++ br :: post
    /\ Forall (resolves Sample.doc) pre
    /\ resolve Sample.doc br = Raised e
    /\ matchFacesToTargetShape Sample.doc
         [[("Strip", "Face1"); ("Deleted", "Face1")]; [("Strip", "Face2")]]%string
         Sample.strip = Raised e.
Proof.
  apply (matchFaces_unresolved_raises Sample.doc
           [[("Strip", "Face1"); ("Deleted", "Face1")]; [("Strip", "Face2")]]%string
           Sample.strip).
  apply Exists_cons_hd. apply Exists_cons_tl. apply Exists_cons_hd.
  exists (RuntimeError (msg_object_not_found "Deleted")). vm_compute. reflexivity.
Defined.

(** ** The sweep loses ties at the end of the target list *)

(** C4 at its failing input: two references resolve to faces with the centre
    of mass of the only (hence last) target face.  The second reference ties
    with that face on all three axes, yet the sweep records the first only,
    and the result lacks the second reference.  With one more target face
    behind the tie, both references are found. *)
Theorem sweep_drops_tie_at_end_of_list :
  let r1 : Ref := ("Single", "Face1")%string in
  let r2 : Ref := ("Touching", "Face1")%string in
  let src_face_list : list SrcFace :=
    sort_by_CenterOfMass (fun bf : SrcFace => bf.1.1)
      [(Sample.quad 0 4, 0%nat, r1); (Sample.quad 0 4, 0%nat, r2)] in
  let mesh_face_list : list MeshFace :=
    sort_by_CenterOfMass (fun mf : MeshFace => mf.1) [(Sample.quad 0 4, 0%nat)] in
  src_face_list !! 1%nat = Some (Sample.quad 0 4, 0%nat, r2)
  /\ mesh_face_list !! 0%nat = Some (Sample.quad 0 4, 0%nat)
  /\ CenterOfMass_equal (Sample.quad 0 4) (Sample.quad 0 4) = true
  /\ (exists st, sweep src_face_list mesh_face_list = Returned st
                 /\ Sweep.candidate_mesh_faces st = [[(0%nat, 0%nat, r1)]])
  /\ matchFacesToTargetShape Sample.doc [[r1; r2]] Sample.single
     = Returned [[(0%nat, r1)]]
  /\ matchFacesToTargetShape Sample.doc [[r1; r2]] Sample.pair
     = Returned [[(0%nat, r1); (0%nat, r2)]; []].
Proof.
  cbv zeta. repeat split; try (vm_compute; reflexivity).
  eexists. split; vm_compute; reflexivity.
Qed.

(** ** Symmetry of [isSameGeometry] *)

Lemma vertex_match_sym (v w : Vtx.t) : vertex_match v w = vertex_match w v.
Proof.
  unfold vertex_match.
  now rewrite (floatEqual_sym (Vtx.X v)), (floatEqual_sym (Vtx.Y v)),
    (floatEqual_sym (Vtx.Z v)).
Qed.

Lemma CenterOfMass_equal_sym (s1 s2 : Element) :
  CenterOfMass_equal s1 s2 = CenterOfMass_equal s2 s1.
Proof.
  unfold CenterOfMass_equal.
  now rewrite (floatEqual_sym (x (CenterOfMass s1))),
    (floatEqual_sym (y (CenterOfMass s1))), (floatEqual_sym (z (CenterOfMass s1))).
Qed.

Section Pigeonhole.
Context {A B : Type} (R : A -> B -> Prop) (l1 : list A) (l2 : list B).
Hypothesis same_length : length l1 = length l2.
Hypothesis injective :
  forall i i' j a a' b,
    l1 !! i = Some a -> l1 !! i' = Some a' -> l2 !! j = Some b ->
    R a b -> R a' b -> i = i'.

Lemma choose_partners (l : list A) :
  Forall (fun a => exists j b, l2 !! j = Some b /\ R a b) l ->
  exists js, Forall2 (fun a j => exists b, l2 !! j = Some b /\ R a b) l js.
Proof.
  induction 1 as [|a l (j & b & Hj & Hr) _ [js IH]].
  - exists []. constructor.
  - exists (j :: js). constructor; eauto.
Qed.

(** If every element of the first list has a partner in the second, every
    element of the second has one in the first. *)
Lemma all_partnered :
  Forall (fun a => exists j b, l2 !! j = Some b /\ R a b) l1 ->
  forall j b, l2 !! j = Some b -> exists i a, l1 !! i = Some a /\ R a b.
Proof.
  intros Hall. destruct (choose_partners l1 Hall) as [js Hjs].
  assert (Hnodup : NoDup js).
  { apply NoDup_alt. intros i i' j Hi Hi'.
    destruct (Forall2_lookup_r _ _ _ _ _ Hjs Hi) as (a & Ha & b & Hb & Hr).
    destruct (Forall2_lookup_r _ _ _ _ _ Hjs Hi') as (a' & Ha' & b' & Hb' & Hr').
    assert (b' = b) as -> by congruence.
    exact (injective _ _ _ _ _ _ Ha Ha' Hb Hr Hr'). }
  assert (Hlen : length js = length l2).
  { rewrite <- same_length. symmetry. exact (Forall2_length _ _ _ Hjs). }
  assert (Hin : forall j, j ∈ js -> (j < length l2)%nat).
  { intros j Hj. apply list_elem_of_lookup in Hj as [i Hi].
    destruct (Forall2_lookup_r _ _ _ _ _ Hjs Hi) as (a & Ha & b & Hb & Hr).
    exact (lookup_lt_Some _ _ _ Hb). }
  intros j b Hj.
  assert (Hj' : j ∈ js).
  { apply list_elem_of_In.
    apply (List.NoDup_length_incl (l := js) (l' := seq 0 (length l2))).
    - apply NoDup_ListNoDup. exact Hnodup.
    - rewrite length_seq. lia.
    - intros k Hk. apply List.in_seq. apply list_elem_of_In in Hk.
      specialize (Hin k Hk). lia.
    - apply List.in_seq. pose proof (lookup_lt_Some _ _ _ Hj). lia. }
  apply list_elem_of_lookup in Hj' as [i Hi].
  destruct (Forall2_lookup_r _ _ _ _ _ Hjs Hi) as (a & Ha & b' & Hb' & Hr).
  assert (b' = b) as -> by congruence.
  eauto.
Qed.
End Pigeonhole.

Lemma existsb_vertex_match (v : Vtx.t) (l : list Vtx.t) :
  existsb (vertex_match v) l = true
  <-> exists j w, l !! j = Some w /\ vertex_match v w = true.
Proof.
  rewrite List.existsb_exists. split.
  - intros (w & Hin & Hm). apply list_elem_of_In, list_elem_of_lookup in Hin as [j Hj].
    eauto.
  - intros (j & w & Hj & Hm). exists w. split; [|assumption].
    apply list_elem_of_In, list_elem_of_lookup. eauto.
Qed.

Lemma one_to_one_match_sym (l1 l2 : list Vtx.t) :
  one_to_one_match l1 l2 -> one_to_one_match l2 l1.
Proof.
  intros [H1 H2]. split.
  - intros i i' j v v' w Hi Hi' Hj Hm Hm'.
    rewrite vertex_match_sym in Hm, Hm'. exact (H2 _ _ _ _ _ _ Hj Hi Hi' Hm Hm').
  - intros i j j' v w w' Hi Hj Hj' Hm Hm'.
    rewrite vertex_match_sym in Hm, Hm'. exact (H1 _ _ _ _ _ _ Hj Hj' Hi Hm Hm').
Qed.

Lemma all_matched_flip (l1 l2 : list Vtx.t) :
  length l1 = length l2 -> one_to_one_match l1 l2 ->
  Forall (fun v => existsb (vertex_match v) l2 = true) l1 ->
  Forall (fun w => existsb (vertex_match w) l1 = true) l2.
Proof.
  intros Hlen [Hinj _] Hall.
  apply Forall_lookup. intros j w Hj.
  apply existsb_vertex_match.
  destruct (all_partnered (fun v w => vertex_match v w = true) l1 l2 Hlen Hinj) with (j := j) (b := w)
    as (i & v & Hi & Hm); [|assumption|].
  - eapply Forall_impl; [exact Hall|]. intros v Hv. now apply existsb_vertex_match.
  - exists i, v. split; [assumption|]. now rewrite vertex_match_sym.
Qed.

Lemma matched_vertex_count_sym (l1 l2 : list Vtx.t) :
  length l1 = length l2 -> one_to_one_match l1 l2 ->
  (matched_vertex_count l1 l2 =? length l1)%nat
  = (matched_vertex_count l2 l1 =? length l2)%nat.
Proof.
  intros Hlen H11.
  destruct (matched_vertex_count l1 l2 =? length l1)%nat eqn:H12;
    destruct (matched_vertex_count l2 l1 =? length l2)%nat eqn:H21; try reflexivity.
  - apply Nat.eqb_eq, matched_vertex_count_all in H12.
    apply Nat.eqb_neq in H21. exfalso. apply H21.
    apply matched_vertex_count_all. now apply all_matched_flip.
  - apply Nat.eqb_eq, matched_vertex_count_all in H21.
    apply Nat.eqb_neq in H12. exfalso. apply H12.
    apply matched_vertex_count_all. apply all_matched_flip; try easy.
    now apply one_to_one_match_sym.
Qed.

Lemma isSameGeometry_data (s1 s2 t1 t2 : Element) :
  same_geometry_data t1 s1 -> same_geometry_data t2 s2 ->
  isSameGeometry t1 t2 = isSameGeometry s1 s2.
Proof.
  intros (Hc1 & Ha1 & Hv1) (Hc2 & Ha2 & Hv2).
  unfold isSameGeometry. now rewrite Hc1, Ha1, Hv1, Hc2, Ha2, Hv2.
Qed.

(** C9, as stated, fails: with equal centres of mass, areas and vertex
    counts, an element that repeats a vertex matches one with two distinct
    vertices, but not the other way round. *)
Lemma isSameGeometry_not_symmetric :
  isSameGeometry Sample.repeated_vertex Sample.two_vertices = Some true
  /\ isSameGeometry Sample.two_vertices Sample.repeated_vertex = Some false.
Proof. vm_compute. split; reflexivity. Qed.

(** C9, amended: whenever the tolerant vertex matching between the two
    vertex lists is one-to-one, the two argument orders give the same
    result; and the result depends only on the centres of mass, areas and
    vertex lists of the two elements. *)
Theorem isSameGeometry_symmetric (s1 s2 : Element) :
  one_to_one_match (Vertexes s1) (Vertexes s2) ->
  isSameGeometry s1 s2 = isSameGeometry s2 s1
  /\ (forall t1 t2, same_geometry_data t1 s1 -> same_geometry_data t2 s2 ->
                    isSameGeometry t1 t2 = isSameGeometry s1 s2).
Proof.
  intros H11. split; [|intros t1 t2; apply isSameGeometry_data].
  destruct (decide (length (Vertexes s1) = length (Vertexes s2)
                    /\ (0 < length (Vertexes s1))%nat)) as [[Hlen Hpos]|Hn].
  - rewrite (isSameGeometry_unfold s1 s2 Hlen Hpos).
    rewrite (isSameGeometry_unfold s2 s1) by lia.
    now rewrite CenterOfMass_equal_sym, (floatEqual_sym (Area s1)),
      (matched_vertex_count_sym _ _ Hlen H11).
  - rewrite (isSameGeometry_None s1 s2 Hn).
    rewrite (isSameGeometry_None s2 s1); [reflexivity|].
    intros [Hlen Hpos]. apply Hn. split; lia.
Qed.

Lemma isSameGeometry_symmetric_witness :
  isSameGeometry Sample.two_vertices Sample.two_vertices_swapped
  = isSameGeometry Sample.two_vertices_swapped Sample.two_vertices
  /\ (forall t1 t2, same_geometry_data t1 Sample.two_vertices ->
                    same_geometry_data t2 Sample.two_vertices_swapped ->
                    isSameGeometry t1 t2
                    = isSameGeometry Sample.two_vertices Sample.two_vertices_swapped).
Proof.
  apply (isSameGeometry_symmetric Sample.two_vertices Sample.two_vertices_swapped).
  split.
  - intros [|[|i]] [|[|i']] [|[|j]] v v' w Hi Hi' Hj Hm Hm';
      try reflexivity; try discriminate;
      injection Hi as <-; injection Hi' as <-; injection Hj as <-;
      vm_compute in Hm, Hm'; discriminate.
  - intros [|[|i]] [|[|j]] [|[|j']] v w w' Hi Hj Hj' Hm Hm';
      try reflexivity; try discriminate;
      injection Hi as <-; injection Hj as <-; injection Hj' as <-;
      vm_compute in Hm, Hm'; discriminate.
Defined.

(** ** Identification of an extracted face *)

Lemma vertex_match_refl (v : Vtx.t) : finite_vertex v = true -> vertex_match v v = true.
Proof.
  unfold finite_vertex, vertex_match. rewrite !andb_true_iff.
  intros [[Hx Hy] Hz]. now rewrite !floatEqual_refl.
Qed.

Lemma CenterOfMass_equal_refl (e e' : Element) :
  finite_CenterOfMass e = true -> CenterOfMass e' = CenterOfMass e ->
  CenterOfMass_equal e e' = true.
Proof.
  unfold finite_CenterOfMass, CenterOfMass_equal. rewrite !andb_true_iff.
  intros [[Hx Hy] Hz] ->. now rewrite !floatEqual_refl.
Qed.

(** An element with at least one vertex and finite data is the same geometry
    as any copy of it whose vertices are listed in another order. *)
Lemma isSameGeometry_vertex_permuted (e e' : Element) :
  Vertexes e <> [] -> finite_element e = true -> vertex_permuted e e' ->
  isSameGeometry e e' = Some true.
Proof.
  intros Hne Hfin (_ & Hcom & Harea & Hperm).
  unfold finite_element in Hfin. rewrite !andb_true_iff in Hfin.
  destruct Hfin as [[Hfc Hfa] Hfv].
  assert (Hlen : length (Vertexes e) = length (Vertexes e'))
    by (symmetry; exact (Permutation_length Hperm)).
  assert (Hpos : (0 < length (Vertexes e))%nat)
    by (destruct (Vertexes e); [congruence | simpl; lia]).
  rewrite (isSameGeometry_unfold e e' Hlen Hpos).
  rewrite (CenterOfMass_equal_refl e e' Hfc Hcom), Harea, (floatEqual_refl _ Hfa).
  simpl. f_equal. apply Nat.eqb_eq, matched_vertex_count_all.
  apply Forall_forall. intros v Hv.
  apply List.existsb_exists. exists v. split.
  - apply list_elem_of_In. now rewrite Hperm.
  - apply vertex_match_refl.
    rewrite List.forallb_forall in Hfv. apply Hfv. now apply list_elem_of_In.
Qed.

(** The scan returns the first index whose element matches. *)
Lemma scan_elements_Some (l : list Element) (anElement : Element) (start k : nat) (e : Element) :
  l !! k = Some e -> isSameGeometry e anElement = Some true ->
  exists j e',
    (j <= k)%nat /\ l !! j = Some e' /\ isSameGeometry e' anElement = Some true
    /\ (forall j' e'', (j' < j)%nat -> l !! j' = Some e'' ->
                       isSameGeometry e'' anElement <> Some true)
    /\ scan_elements l anElement start = Some (start + j)%nat.
Proof.
  revert start k. induction l as [|a l IH]; intros start k Hk Hsame; [discriminate|].
  simpl. destruct (isSameGeometry a anElement) as [[|]|] eqn:Ha; simpl.
  - exists 0%nat, a. repeat split; try (simpl; lia); try assumption.
    f_equal. lia.
  - destruct k as [|k]; [simpl in Hk; congruence|].
    destruct (IH (S start) k Hk Hsame) as (j & e' & Hjk & Hj & He' & Hmin & Hscan).
    exists (S j), e'. repeat split; try assumption; try lia.
    + intros [|j'] e'' Hlt Hl; simpl in Hl; [congruence|].
      apply (Hmin j' e''); [lia | assumption].
    + rewrite Hscan. f_equal. lia.
  - destruct k as [|k]; [simpl in Hk; congruence|].
    destruct (IH (S start) k Hk Hsame) as (j & e' & Hjk & Hj & He' & Hmin & Hscan).
    exists (S j), e'. repeat split; try assumption; try lia.
    + intros [|j'] e'' Hlt Hl; simpl in Hl; [congruence|].
      apply (Hmin j' e''); [lia | assumption].
    + rewrite Hscan. f_equal. lia.
Qed.

(** C6, as stated, fails: the second face of a shape that lists the same
    face twice is identified as "Face1". *)
Lemma findElementInShape_first_match_wins :
  Faces Sample.doubled !! 1%nat = Some (Sample.quad 0 4)
  /\ (findElementInShape Sample.doubled (Sample.quad 0 4)).1 = Some "Face1"%string.
Proof. vm_compute. split; reflexivity. Qed.

(** C6, amended: for a face F with at least one vertex and finite data that
    is the k-th face of S (counting from 0 here), identifying F, or F with
    its vertices reordered, returns "Face" followed by j+1 for the first
    index j whose face is the same geometry as the candidate; j is at most
    k, and it is k when no earlier face of S is the same geometry. *)
Theorem findElementInShape_round_trip (S : Shape) (k : nat) (F F' : Element) :
  Faces S !! k = Some F ->
  ShapeType F = Face -> Vertexes F <> [] -> finite_element F = true ->
  vertex_permuted F F' ->
  exists j E,
    (j <= k)%nat /\ Faces S !! j = Some E /\ isSameGeometry E F' = Some true
    /\ (forall j' E', (j' < j)%nat -> Faces S !! j' = Some E' ->
                      isSameGeometry E' F' <> Some true)
    /\ findElementInShape S F'
       = (Some (String.append "Face" (str (j + 1))), [])
    /\ ((forall j' E', (j' < k)%nat -> Faces S !! j' = Some E' ->
                       isSameGeometry E' F' <> Some true) -> j = k).
Proof.
  intros Hk Hst Hne Hfin Hperm.
  pose proof (isSameGeometry_vertex_permuted F F' Hne Hfin Hperm) as Hsame.
  destruct (scan_elements_Some (Faces S) F' 0 k F Hk Hsame)
    as (j & E & Hjk & Hj & HE & Hmin & Hscan).
  exists j, E. repeat split; try assumption.
  - unfold findElementInShape.
    destruct Hperm as (Hst' & _). rewrite Hst', Hst, Hscan. reflexivity.
  - intros Hnone. destruct (decide (j = k)) as [|Hjne]; [assumption|].
    exfalso. apply (Hnone j E); [lia | assumption | assumption].
Qed.

Lemma findElementInShape_round_trip_witness :
  exists j E,
    (j <= 1)%nat /\ Faces Sample.strip !! j = Some E
    /\ isSameGeometry E (Sample.quad_permuted 3 4) = Some true
    /\ (forall j' E', (j' < j)%nat -> Faces Sample.strip !! j' = Some E' ->
                      isSameGeometry E' (Sample.quad_permuted 3 4) <> Some true)
    /\ findElementInShape Sample.strip (Sample.quad_permuted 3 4)
       = (Some (String.append "Face" (str (j + 1))), [])
    /\ ((forall j' E', (j' < 1)%nat -> Faces Sample.strip !! j' = Some E' ->
                       isSameGeometry E' (Sample.quad_permuted 3 4) <> Some true)
        -> j = 1%nat).
Proof.
  apply (findElementInShape_round_trip Sample.strip 1 (Sample.quad 3 4)
           (Sample.quad_permuted 3 4)).
  - reflexivity.
  - reflexivity.
  - discriminate.
  - vm_compute. reflexivity.
  - repeat split. simpl.
    etransitivity; [apply perm_swap|]. apply perm_skip.
    symmetry. apply (Permutation_cons_append [_; _]).
Defined.

(** ** The stable sort *)

Section StableSort.
Context {A : Type} (key : A -> K).

(** [prev q p]: the order in which the list arrived wants [q] before [p]. *)
Context (prev : A -> A -> Prop).

(** The elements under consideration. *)
Context (dom : A -> Prop).


Hypothesis key_lt_asym : forall a b, dom a -> dom b -> key_lt key a b -> ~ key_lt key b a.
Hypothesis key_lt_cotrans :
  forall a b c, dom a -> dom b -> dom c -> key_lt key a c -> key_lt key a b \/ key_lt key b c.


Lemma sort_insert_perm (v : A) (l : list A) : sort_insert key v l ≡ₚ v :: l.
Proof.
  induction l as [|w l IH]; simpl; [reflexivity|].
  destruct (K_lt (key v) (key w)); [reflexivity|].
  rewrite IH. apply perm_swap.
Qed.

Lemma list_sort_perm_acc (l acc : list A) :
  fold_left (fun sorted v => sort_insert key v sorted) l acc ≡ₚ acc ++ l.
Proof.
  revert acc. induction l as [|v l IH]; intros acc; simpl.
  - now rewrite app_nil_r.
  - rewrite IH, sort_insert_perm. now rewrite <- Permutation_middle.
Qed.

Lemma list_sort_perm (l : list A) : list_sort key l ≡ₚ l.
Proof. unfold list_sort. now rewrite list_sort_perm_acc. Qed.

Lemma sort_insert_sorted (v : A) (l : list A) :
  dom v -> Forall dom l ->
  Forall (fun w => ~ prev v w) l ->
  no_inversion (refined key prev) l ->
  no_inversion (refined key prev) (sort_insert key v l).
Proof.
  intros Hv Hdom Hprev Hs.
  induction Hs as [|w l Hs IH Hw]; simpl.
  - repeat constructor.
  - apply Forall_cons in Hdom as [Hdw Hdl].
    apply Forall_cons in Hprev as [Hpw Hpl].
    destruct (K_lt (key v) (key w)) eqn:Hlt.
    + (* v goes in front of w *)
      constructor; [constructor; assumption|].
      constructor.
      * intros [Hwv | (_ & Hn & _)]; [|exact (Hn Hlt)].
        exact (key_lt_asym v w Hv Hdw Hlt Hwv).
      * rewrite Forall_forall in Hw, Hdl. apply Forall_forall. intros u Hu.
        assert (Hvu : key_lt key v u).
        { destruct (key_lt_cotrans v u w Hv (Hdl u Hu) Hdw Hlt) as [|Huw]; [assumption|].
          exfalso. apply (Hw u Hu). now left. }
        intros [Huv | (_ & Hn & _)]; [|exact (Hn Hvu)].
        exact (key_lt_asym v u Hv (Hdl u Hu) Hvu Huv).
    + (* w stays in front *)
      constructor; [exact (IH Hdl Hpl)|].
      rewrite sort_insert_perm. constructor; [|assumption].
      intros [Hvw | (_ & _ & Hp)]; [|exact (Hpw Hp)].
      unfold key_lt in Hvw. congruence.
Qed.

Lemma list_sort_sorted_acc (l acc : list A) :
  Forall dom acc -> Forall dom l ->
  no_inversion (refined key prev) acc ->
  no_inversion prev l ->
  Forall (fun a => Forall (fun r => ~ prev r a) l) acc ->
  no_inversion (refined key prev) (fold_left (fun sorted v => sort_insert key v sorted) l acc).
Proof.
  revert acc. induction l as [|v l IH]; intros acc Hda Hdl Hacc Hl Hcross; simpl;
    [assumption|].
  apply Forall_cons in Hdl as [Hdv Hdl].
  apply StronglySorted_inv in Hl as [Hl Hvl].
  apply IH; try assumption.
  - rewrite sort_insert_perm. now constructor.
  - apply sort_insert_sorted; try assumption.
    eapply Forall_impl; [exact Hcross|]. intros a Ha.
    now apply Forall_cons in Ha as [Ha _].
  - rewrite sort_insert_perm. constructor; [exact Hvl|].
    eapply Forall_impl; [exact Hcross|]. intros a Ha.
    now apply Forall_cons in Ha as [_ Ha].
Qed.

(** A stable sort refines the order the list arrived in. *)
Lemma list_sort_sorted (l : list A) :
  Forall dom l -> no_inversion prev l -> no_inversion (refined key prev) (list_sort key l).
Proof.
  intros Hd Hl. apply list_sort_sorted_acc; try assumption; constructor.
Qed.

End StableSort.

(** Sorting commutes with a map that preserves keys. *)
Lemma sort_insert_map {A B : Type} (g : A -> B) (keyA : A -> K) (keyB : B -> K)
    (v : A) (l : list A) :
  (forall a, keyB (g a) = keyA a) ->
  sort_insert keyB (g v) (map g l) = map g (sort_insert keyA v l).
Proof.
  intros Hk. induction l as [|w l IH]; simpl; [reflexivity|].
  rewrite !Hk. destruct (K_lt (keyA v) (keyA w)); simpl; [reflexivity|].
  now rewrite IH.
Qed.

Lemma list_sort_map {A B : Type} (g : A -> B) (keyA : A -> K) (keyB : B -> K)
    (l : list A) :
  (forall a, keyB (g a) = keyA a) ->
  list_sort keyB (map g l) = map g (list_sort keyA l).
Proof.
  intros Hk. unfold list_sort.
  change (@nil B) with (map g []). generalize (@nil A) as acc.
  induction l as [|v l IH]; intros acc; simpl; [reflexivity|].
  rewrite (sort_insert_map g keyA keyB) by assumption. apply IH.
Qed.

Lemma sort_by_CenterOfMass_map {A B : Type} (g : A -> B) (faceA : A -> Element)
    (faceB : B -> Element) (l : list A) :
  (forall a, faceB (g a) = faceA a) ->
  sort_by_CenterOfMass faceB (map g l) = map g (sort_by_CenterOfMass faceA l).
Proof.
  intros Hf. unfold sort_by_CenterOfMass.
  rewrite (list_sort_map g (compKeyFn (fun bf => z (CenterOfMass (faceA bf)))))
    by (intros a; unfold compKeyFn; now rewrite Hf).
  rewrite (list_sort_map g (compKeyFn (fun bf => y (CenterOfMass (faceA bf)))))
    by (intros a; unfold compKeyFn; now rewrite Hf).
  rewrite (list_sort_map g (compKeyFn (fun bf => x (CenterOfMass (faceA bf)))))
    by (intros a; unfold compKeyFn; now rewrite Hf).
  reflexivity.
Qed.

Lemma sort_by_CenterOfMass_perm {A : Type} (face : A -> Element) (l : list A) :
  sort_by_CenterOfMass face l ≡ₚ l.
Proof. unfold sort_by_CenterOfMass. now rewrite !list_sort_perm. Qed.

(** ** The three passes sort by centre of mass *)

Lemma StronglySorted_lookup {A : Type} (R : A -> A -> Prop) (l : list A)
    (i j : nat) (p q : A) :
  StronglySorted R l -> (i < j)%nat -> l !! i = Some p -> l !! j = Some q -> R p q.
Proof.
  intros Hs. revert i j. induction Hs as [|a l Hs IH Ha]; intros i j Hij Hi Hj;
    [discriminate|].
  destruct j as [|j]; [lia|]. simpl in Hj.
  destruct i as [|i]; simpl in Hi.
  - injection Hi as ->. rewrite Forall_forall in Ha. apply Ha.
    apply list_elem_of_lookup. eauto.
  - apply (IH i j); [lia | assumption | assumption].
Qed.

Lemma StronglySorted_trivial {A : Type} (l : list A) :
  StronglySorted (fun _ _ : A => ~ False) l.
Proof.
  induction l; constructor; [assumption|]. apply Forall_forall. tauto.
Qed.

(** One axis of the lexicographic comparison: if the refined order does not
    put [b] before [a], then either [a] is strictly and tolerantly below
    [b], or the two tie on this axis and the earlier order decides. *)
Lemma axis_no_inversion (a b : float) (P : Prop) :
  finite a = true -> finite b = true ->
  ~ (K_lt (mkK b) (mkK a) = true
     \/ (K_lt (mkK b) (mkK a) <> true /\ K_lt (mkK a) (mkK b) <> true /\ P)) ->
  (floatEqual a b = false /\ lt a b = true) \/ (floatEqual a b = true /\ ~ P).
Proof.
  intros Ha Hb H. unfold K_lt in H. simpl in H.
  rewrite (floatEqual_sym b a) in H.
  destruct (floatEqual a b) eqn:Hfe.
  - right. split; [reflexivity|]. intros HP. apply H. right.
    rewrite !andb_false_r. repeat split; try discriminate. exact HP.
  - left. split; [reflexivity|].
    rewrite (floatEqual_false_lt a b Ha Hb Hfe).
    destruct (lt b a); [|reflexivity].
    exfalso. apply H. now left.
Qed.

Lemma CofM_cmp_antisym (p q : Element) :
  finite_CenterOfMass p = true -> finite_CenterOfMass q = true ->
  CofM_cmp q p = (- CofM_cmp p q)%Z.
Proof.
  unfold finite_CenterOfMass. rewrite !andb_true_iff.
  intros [[Hpx Hpy] Hpz] [[Hqx Hqy] Hqz]. unfold CofM_cmp.
  rewrite (floatEqual_sym (x (CenterOfMass q))), (floatEqual_sym (y (CenterOfMass q))),
    (floatEqual_sym (z (CenterOfMass q))).
  destruct (floatEqual (x (CenterOfMass p)) (x (CenterOfMass q))) eqn:Hx.
  - destruct (floatEqual (y (CenterOfMass p)) (y (CenterOfMass q))) eqn:Hy.
    + destruct (floatEqual (z (CenterOfMass p)) (z (CenterOfMass q))) eqn:Hz;
        [reflexivity|].
      rewrite (floatEqual_false_lt _ _ Hpz Hqz Hz).
      now destruct (lt (z (CenterOfMass q)) (z (CenterOfMass p))).
    + rewrite (floatEqual_false_lt _ _ Hpy Hqy Hy).
      now destruct (lt (y (CenterOfMass q)) (y (CenterOfMass p))).
  - rewrite (floatEqual_false_lt _ _ Hpx Hqx Hx).
    now destruct (lt (x (CenterOfMass q)) (x (CenterOfMass p))).
Qed.

Lemma CofM_cmp_refl (p : Element) :
  finite_CenterOfMass p = true -> CofM_cmp p p = 0.
Proof.
  unfold finite_CenterOfMass. rewrite !andb_true_iff.
  intros [[Hpx Hpy] Hpz]. unfold CofM_cmp. now rewrite !floatEqual_refl.
Qed.

Section ThreePasses.
Context {A : Type} (face : A -> Element) (fs : list Element).
Hypothesis fs_finite : Forall (fun f => finite_CenterOfMass f = true) fs.
Hypothesis fs_x : consistent_keys (fun f => x (CenterOfMass f)) fs.
Hypothesis fs_y : consistent_keys (fun f => y (CenterOfMass f)) fs.
Hypothesis fs_z : consistent_keys (fun f => z (CenterOfMass f)) fs.



Lemma K_lt_asym (a b : K) : K_lt a b = true -> K_lt b a <> true.
Proof.
  unfold K_lt. rewrite !andb_true_iff. intros [Hab _] [Hba _].
  rewrite (lt_asym _ _ Hab) in Hba. discriminate.
Qed.

Lemma sort_by_CenterOfMass_sorted (l : list A) :
  Forall (on_fs face fs) l -> no_inversion (after_x face) (sort_by_CenterOfMass face l).
Proof.
  intros Hl. unfold sort_by_CenterOfMass.
  apply (list_sort_sorted (keyx face) (after_y face) (on_fs face fs)).
  - intros a b _ _. apply K_lt_asym.
  - intros a b c Ha Hb Hc. apply (fs_x (face a) (face b) (face c) Ha Hb Hc).
  - now rewrite !list_sort_perm.
  - apply (list_sort_sorted (keyy face) (after_z face) (on_fs face fs)).
    + intros a b _ _. apply K_lt_asym.
    + intros a b c Ha Hb Hc. apply (fs_y (face a) (face b) (face c) Ha Hb Hc).
    + now rewrite list_sort_perm.
    + apply (list_sort_sorted (keyz face) (fun _ _ => False) (on_fs face fs)).
      * intros a b _ _. apply K_lt_asym.
      * intros a b c Ha Hb Hc. apply (fs_z (face a) (face b) (face c) Ha Hb Hc).
      * assumption.
      * apply StronglySorted_trivial.
Qed.

(** Two elements in sorted order whose centres of mass differ compare as
    "less" in the sweep. *)
Lemma after_x_CofM_cmp (p q : A) :
  on_fs face fs p -> on_fs face fs q -> ~ after_x face q p ->
  CenterOfMass_equal (face p) (face q) = false ->
  CofM_cmp (face p) (face q) = (-1)%Z.
Proof.
  intros Hp Hq Hno Hne.
  rewrite Forall_forall in fs_finite.
  pose proof (fs_finite _ Hp) as Hfp. pose proof (fs_finite _ Hq) as Hfq.
  unfold finite_CenterOfMass in Hfp, Hfq. rewrite !andb_true_iff in Hfp, Hfq.
  destruct Hfp as [[Hpx Hpy] Hpz], Hfq as [[Hqx Hqy] Hqz].
  unfold CofM_cmp. unfold CenterOfMass_equal in Hne.
  destruct (axis_no_inversion _ _ _ Hpx Hqx Hno) as [[Hx Hlx] | [Hx Hnoy]];
    rewrite Hx; [now rewrite Hlx|].
  destruct (axis_no_inversion _ _ _ Hpy Hqy Hnoy) as [[Hy Hly] | [Hy Hnoz]];
    rewrite Hy; [now rewrite Hly|].
  destruct (axis_no_inversion _ _ _ Hpz Hqz Hnoz) as [[Hz Hlz] | [Hz _]];
    rewrite Hz; [now rewrite Hlz|].
  rewrite Hx, Hy, Hz in Hne. discriminate.
Qed.

End ThreePasses.

(** ** The sweep terminates within its budget *)

Lemma append_at_Some {A : Type} (ll : list (list A)) (n : nat) (l : list A) (v : A) :
  ll !! n = Some l -> append_at ll n v = Returned (<[n := l ++ [v]]> ll).
Proof. unfold append_at. now intros ->. Qed.

Section SweepTermination.
Context (src_face_list : list SrcFace) (mesh_face_list : list MeshFace).

Let budget (st : Sweep.State) : nat :=
  sweep_budget st (length src_face_list) (length mesh_face_list).

Lemma sweep_body_progress (st st' : Sweep.State) (src_i : SrcFace) (mesh_j : MeshFace) :
  src_face_list !! Sweep.i st = Some src_i ->
  mesh_face_list !! Sweep.j st = Some mesh_j ->
  sweep_body src_i mesh_j st = Returned st' ->
  (budget st' < budget st)%nat
  /\ length (Sweep.candidate_mesh_faces st') = length (Sweep.candidate_mesh_faces st).
Proof.
  intros Hi Hj Hbody.
  apply lookup_lt_Some in Hi, Hj.
  unfold sweep_body in Hbody.
  destruct (CofM_cmp src_i.1.1 mesh_j.1 =? 0)%Z eqn:H0.
  - unfold append_at in Hbody.
    destruct (Sweep.candidate_mesh_faces st !! Sweep.j st) as [row|] eqn:Hrow;
      [|discriminate].
    injection Hbody as <-. unfold budget, sweep_budget. simpl.
    rewrite length_insert. split; [lia | reflexivity].
  - destruct (CofM_cmp src_i.1.1 mesh_j.1 <? 0)%Z eqn:Hneg;
      injection Hbody as <-; unfold budget, sweep_budget; simpl;
      (split; [|reflexivity]).
    + destruct (Sweep.matching st); nia.
    + lia.
Qed.

Lemma sweep_body_Returned (st : Sweep.State) (src_i : SrcFace) (mesh_j : MeshFace) :
  (Sweep.j st < length (Sweep.candidate_mesh_faces st))%nat ->
  exists st', sweep_body src_i mesh_j st = Returned st'.
Proof.
  intros Hj. unfold sweep_body, append_at.
  destruct (lookup_lt_is_Some_2 _ _ Hj) as [row ->].
  destruct (CofM_cmp src_i.1.1 mesh_j.1 =? 0)%Z; simpl; eauto.
Qed.

Lemma sweep_loop_done (fuel : nat) (st : Sweep.State) :
  sweep_running src_face_list mesh_face_list st = false ->
  sweep_loop fuel src_face_list mesh_face_list st = Returned st.
Proof.
  intros Hrun. destruct fuel as [|fuel]; [reflexivity|]. simpl.
  unfold sweep_running in Hrun. apply andb_false_iff in Hrun as [H|H];
    apply Nat.ltb_ge in H.
  - now rewrite (lookup_ge_None_2 _ _ H).
  - rewrite (lookup_ge_None_2 mesh_face_list _ H).
    now destruct (src_face_list !! Sweep.i st).
Qed.

Lemma sweep_loop_unroll (fuel : nat) (st st' : Sweep.State)
    (src_i : SrcFace) (mesh_j : MeshFace) :
  (budget st <= fuel)%nat ->
  src_face_list !! Sweep.i st = Some src_i ->
  mesh_face_list !! Sweep.j st = Some mesh_j ->
  sweep_body src_i mesh_j st = Returned st' ->
  sweep_loop fuel src_face_list mesh_face_list st
  = sweep_loop (fuel - 1) src_face_list mesh_face_list st'
  /\ (budget st' <= fuel - 1)%nat.
Proof.
  intros Hfuel Hi Hj Hbody.
  destruct (sweep_body_progress _ _ _ _ Hi Hj Hbody) as [Hlt _].
  destruct fuel as [|fuel]; [lia|]. simpl.
  rewrite Hi, Hj, Hbody, Nat.sub_0_r. split; [reflexivity | lia].
Qed.

(** Started with at least its budget, the loop leaves through its guard. *)
Lemma sweep_loop_exits (fuel : nat) (st : Sweep.State) :
  (budget st <= fuel)%nat ->
  length (Sweep.candidate_mesh_faces st) = length mesh_face_list ->
  exists st',
    sweep_loop fuel src_face_list mesh_face_list st = Returned st'
    /\ sweep_running src_face_list mesh_face_list st' = false
    /\ length (Sweep.candidate_mesh_faces st') = length mesh_face_list.
Proof.
  revert st. induction fuel as [|fuel IH]; intros st Hfuel Hlen.
  - exists st. split; [reflexivity|]. split; [|assumption].
    unfold budget, sweep_budget in Hfuel. unfold sweep_running.
    apply andb_false_iff.
    destruct (decide (Sweep.i st < length src_face_list)%nat) as [Hi|Hi].
    + right. apply Nat.ltb_ge. nia.
    + left. apply Nat.ltb_ge. lia.
  - destruct (sweep_running src_face_list mesh_face_list st) eqn:Hrun.
    + unfold sweep_running in Hrun. apply andb_true_iff in Hrun as [Hi Hj].
      apply Nat.ltb_lt in Hi, Hj.
      destruct (lookup_lt_is_Some_2 _ _ Hi) as [src_i Hsrc].
      destruct (lookup_lt_is_Some_2 _ _ Hj) as [mesh_j Hmesh].
      destruct (sweep_body_Returned st src_i mesh_j) as [st1 Hbody]; [lia|].
      destruct (sweep_body_progress _ _ _ _ Hsrc Hmesh Hbody) as [Hlt Hlen1].
      simpl. rewrite Hsrc, Hmesh, Hbody. apply IH; [lia | congruence].
    + exists st. rewrite (sweep_loop_done _ _ Hrun). auto.
Qed.

End SweepTermination.

(** The sweep always returns, and it returns a state in which the loop
    condition is false: the budget never cuts the loop short. *)
Lemma sweep_exits (src_face_list : list SrcFace) (mesh_face_list : list MeshFace) :
  exists st,
    sweep src_face_list mesh_face_list = Returned st
    /\ sweep_running src_face_list mesh_face_list st = false
    /\ length (Sweep.candidate_mesh_faces st) = length mesh_face_list.
Proof.
  unfold sweep. apply sweep_loop_exits; [lia|].
  unfold sweep_init. simpl. apply length_map.
Qed.

(** ** The sweep over a target shape and references to its own faces *)


Section IdentitySweep.
Context (L : list SrcFace).
Hypothesis cmp_self : forall k t, L !! k = Some t -> CofM_cmp t.1.1 t.1.1 = 0.
Hypothesis cmp_next :
  forall k p q, L !! k = Some p -> L !! S k = Some q ->
    CofM_cmp p.1.1 q.1.1 = (-1)%Z /\ CofM_cmp q.1.1 p.1.1 = 1.

Lemma diag_0 : diag L 0 = map (fun _ => []) (map as_mesh L).
Proof.
  apply list_eq. intros m. unfold diag.
  rewrite list_lookup_imap, !list_lookup_fmap.
  destruct (L !! m); reflexivity.
Qed.

Lemma diag_step (k : nat) (t : SrcFace) :
  L !! k = Some t ->
  append_at (diag L k) k (k, 0%nat, t.2) = Returned (diag L (S k)).
Proof.
  intros Hk.
  assert (Hrow : diag L k !! k = Some []).
  { unfold diag. rewrite list_lookup_imap, Hk. simpl.
    now rewrite bool_decide_eq_false_2 by lia. }
  rewrite (append_at_Some _ _ _ _ Hrow). f_equal.
  apply list_eq. intros m. destruct (decide (m = k)) as [->|Hne].
  - rewrite list_lookup_insert_eq by (eapply lookup_lt_Some; exact Hrow).
    unfold diag. rewrite list_lookup_imap, Hk. simpl.
    now rewrite bool_decide_eq_true_2 by lia.
  - rewrite list_lookup_insert_ne by congruence.
    unfold diag. rewrite !list_lookup_imap.
    destruct (L !! m); [|reflexivity]. simpl.
    destruct (decide (m < k)%nat).
    + now rewrite !bool_decide_eq_true_2 by lia.
    + now rewrite !bool_decide_eq_false_2 by lia.
Qed.

Lemma diag_run (d k jms fuel : nat) :
  (k + d = length L)%nat ->
  (sweep_budget (Sweep.mk k k jms false (diag L k))
     (length (map as_src L)) (length (map as_mesh L)) <= fuel)%nat ->
  exists st,
    sweep_loop fuel (map as_src L) (map as_mesh L)
      (Sweep.mk k k jms false (diag L k)) = Returned st
    /\ Sweep.candidate_mesh_faces st = diag L (length L).
Proof.
  revert k jms fuel. induction d as [|d IH]; intros k jms fuel Hk Hfuel.
  - (* i has reached the end of the list *)
    exists (Sweep.mk k k jms false (diag L k)). split.
    + apply sweep_loop_done. unfold sweep_running. simpl.
      rewrite length_map. apply andb_false_iff. left. apply Nat.ltb_ge. lia.
    + simpl. f_equal. lia.
  - destruct (lookup_lt_is_Some_2 L k) as [t Ht]; [lia|].
    (* the face meets itself *)
    set (st0 := Sweep.mk k k jms false (diag L k)) in *.
    set (st1 := Sweep.mk k (k + 1) k true (diag L (S k))).
    assert (Hb1 : sweep_body (as_src t) (as_mesh t) st0 = Returned st1).
    { unfold sweep_body. simpl. rewrite (cmp_self k t Ht). simpl.
      rewrite (diag_step k t Ht). reflexivity. }
    destruct (sweep_loop_unroll (map as_src L) (map as_mesh L) fuel st0 st1
                (as_src t) (as_mesh t)) as [-> Hfuel1]; try assumption;
      try (simpl; rewrite list_lookup_fmap, Ht; reflexivity).
    destruct d as [|d].
    { (* it was the last face: j runs off the list *)
      exists st1. split; [|simpl; f_equal; lia].
      apply sweep_loop_done. unfold sweep_running. simpl.
      rewrite !length_map. apply andb_false_iff. right. apply Nat.ltb_ge. lia. }
    destruct (lookup_lt_is_Some_2 L (S k)) as [q Hq]; [lia|].
    destruct (cmp_next k t q Ht Hq) as [Hlt Hgt].
    (* the face is below the next target face: i advances, j is reset *)
    set (st2 := Sweep.mk (k + 1) k k false (diag L (S k))).
    assert (Hb2 : sweep_body (as_src t) (as_mesh q) st1 = Returned st2).
    { unfold sweep_body. simpl. rewrite Hlt. reflexivity. }
    destruct (sweep_loop_unroll (map as_src L) (map as_mesh L) (fuel - 1) st1 st2
                (as_src t) (as_mesh q)) as [-> Hfuel2]; try assumption;
      try (simpl; rewrite list_lookup_fmap, ?Nat.add_1_r, ?Ht, ?Hq; reflexivity).
    (* the next face is above the target face left behind: j advances *)
    set (st3 := Sweep.mk (k + 1) (k + 1) k false (diag L (S k))).
    assert (Hb3 : sweep_body (as_src q) (as_mesh t) st2 = Returned st3).
    { unfold sweep_body. simpl. rewrite Hgt. reflexivity. }
    destruct (sweep_loop_unroll (map as_src L) (map as_mesh L) (fuel - 1 - 1) st2 st3
                (as_src q) (as_mesh t)) as [-> Hfuel3]; try assumption;
      try (simpl; rewrite list_lookup_fmap, ?Nat.add_1_r, ?Ht, ?Hq; reflexivity).
    subst st3. rewrite Nat.add_1_r in *.
    apply IH; [lia | assumption].
Qed.

(** The sweep pairs every sorted face with itself and records nothing else. *)
Lemma sweep_identity :
  exists st,
    sweep (map as_src L) (map as_mesh L) = Returned st
    /\ Sweep.candidate_mesh_faces st
       = imap (fun k t => [(k, 0%nat, t.2)]) L.
Proof.
  unfold sweep, sweep_init. rewrite <- diag_0.
  destruct (diag_run (length L) 0 0
              (sweep_budget (Sweep.mk 0 0 0 false (diag L 0))
                 (length (map as_src L)) (length (map as_mesh L))))
    as (st & Hst & Hc); [lia | lia |].
  exists st. split; [exact Hst|]. rewrite Hc.
  apply list_eq. intros m. unfold diag. rewrite !list_lookup_imap.
  destruct (L !! m) eqn:Hm; [|reflexivity]. simpl.
  apply lookup_lt_Some in Hm. now rewrite bool_decide_eq_true_2 by lia.
Qed.

End IdentitySweep.

(** ** Confirmation of the recorded candidates *)


Lemma length_place (acc : list (list (nat * Ref))) (t : SrcFace) :
  length (place acc t) = length acc.
Proof. unfold place. destruct (acc !! t.1.2); [apply length_insert | reflexivity]. Qed.

Lemma lookup_place (acc : list (list (nat * Ref))) (t : SrcFace) (m : nat) :
  place acc t !! m
  = (fun l => if decide (t.1.2 = m) then l ++ [(0%nat, t.2)] else l) <$> acc !! m.
Proof.
  unfold place. destruct (acc !! t.1.2) as [l|] eqn:Hl.
  - destruct (decide (t.1.2 = m)) as [<-|Hne].
    + rewrite list_lookup_insert_eq by (eapply lookup_lt_Some; exact Hl).
      now rewrite Hl.
    + rewrite list_lookup_insert_ne by assumption. now destruct (acc !! m).
  - destruct (decide (t.1.2 = m)) as [<-|Hne].
    + now rewrite Hl.
    + now destruct (acc !! m).
Qed.

Lemma length_fold_place (ts : list SrcFace) (acc : list (list (nat * Ref))) :
  length (fold_left place ts acc) = length acc.
Proof.
  revert acc. induction ts as [|t ts IH]; intros acc; simpl; [reflexivity|].
  now rewrite IH, length_place.
Qed.

Lemma lookup_fold_place (ts : list SrcFace) (acc : list (list (nat * Ref))) (m : nat) :
  fold_left place ts acc !! m
  = (fun l => l ++ map (fun t : SrcFace => (0%nat, t.2))
                     (filter (fun t : SrcFace => t.1.2 = m) ts))
    <$> acc !! m.
Proof.
  revert acc. induction ts as [|t ts IH]; intros acc; simpl.
  - destruct (acc !! m); simpl; [|reflexivity]. now rewrite app_nil_r.
  - rewrite IH, lookup_place, filter_cons.
    destruct (acc !! m) as [l|]; simpl; [|reflexivity]. f_equal.
    destruct (decide (t.1.2 = m)); simpl; [|reflexivity].
    now rewrite <- app_assoc.
Qed.

Section IdentityConfirm.
Context (L : list SrcFace).
Hypothesis same_self : forall t, t ∈ L -> isSameGeometry t.1.1 t.1.1 = Some true.
Hypothesis index_in_range : forall t, t ∈ L -> (t.1.2 < length L)%nat.

Lemma confirm_rows_identity (rest : list SrcFace) (j : nat)
    (acc : list (list (nat * Ref))) :
  drop j L = rest -> length acc = length L ->
  confirm_rows (map as_src L) (map as_mesh L) j
    (imap (fun k (t : SrcFace) => [((j + k)%nat, 0%nat, t.2)]) rest) acc
  = Returned (fold_left place rest acc).
Proof.
  revert j acc. induction rest as [|t rest IH]; intros j acc Hdrop Hlen;
    [reflexivity|].
  assert (Ht : L !! j = Some t).
  { rewrite <- (Nat.add_0_r j), <- lookup_drop, Hdrop. reflexivity. }
  assert (Hin : t ∈ L) by (apply list_elem_of_lookup; eauto).
  rewrite imap_cons. simpl.
  unfold index_. rewrite Nat.add_0_r, !list_lookup_fmap, Ht. simpl.
  rewrite (same_self t Hin). simpl.
  destruct (lookup_lt_is_Some_2 acc t.1.2) as [l Hl];
    [rewrite Hlen; now apply index_in_range|].
  rewrite (append_at_Some _ _ _ _ Hl). simpl.
  replace (<[t.1.2 := l ++ [(0%nat, t.2)]]> acc) with (place acc t)
    by (unfold place; now rewrite Hl).
  rewrite <- (IH (S j) (place acc t)).
  - f_equal. apply imap_ext. intros k u _. simpl. do 3 f_equal. lia.
  - rewrite (drop_S L t j Ht) in Hdrop. congruence.
  - now rewrite length_place.
Qed.

End IdentityConfirm.

(** ** References to the faces of the target shape itself *)


Lemma lookup_tagged (faces : list Element) (refs : list Ref) (k : nat) (t : SrcFace) :
  tagged faces refs !! k = Some t
  <-> exists f br, faces !! k = Some f /\ refs !! k = Some br /\ t = (f, k, br).
Proof.
  unfold tagged. rewrite list_lookup_imap, lookup_zip_with.
  destruct (faces !! k) as [f|], (refs !! k) as [br|]; simpl; split;
    try discriminate; try (intros (? & ? & ? & ? & ?); discriminate).
  - intros [= <-]. eauto.
  - intros (f' & br' & [= <-] & [= <-] & ->). reflexivity.
Qed.

Lemma elem_of_tagged (faces : list Element) (refs : list Ref) (t : SrcFace) :
  t ∈ tagged faces refs ->
  faces !! t.1.2 = Some t.1.1 /\ refs !! t.1.2 = Some t.2.
Proof.
  intros Ht. apply list_elem_of_lookup in Ht as [k Hk].
  apply lookup_tagged in Hk as (f & br & Hf & Hbr & ->). auto.
Qed.

Lemma length_tagged (faces : list Element) (refs : list Ref) :
  length refs = length faces -> length (tagged faces refs) = length faces.
Proof. intros H. unfold tagged. rewrite length_imap, length_zip_with. lia. Qed.

Lemma tagged_as_src (faces : list Element) (refs : list Ref) :
  map as_src (tagged faces refs) = zip_with (fun f br => (f, 0%nat, br)) faces refs.
Proof.
  apply list_eq. intros k. unfold tagged.
  rewrite list_lookup_fmap, list_lookup_imap, !lookup_zip_with.
  destruct (faces !! k), (refs !! k); reflexivity.
Qed.

Lemma tagged_as_mesh (faces : list Element) (refs : list Ref) :
  length refs = length faces ->
  map as_mesh (tagged faces refs) = zip faces (seq 0 (length faces)).
Proof.
  intros Hlen. apply list_eq. intros k. unfold tagged.
  rewrite list_lookup_fmap, list_lookup_imap, !lookup_zip_with.
  destruct (faces !! k) as [f|] eqn:Hf; simpl; [|reflexivity].
  pose proof (lookup_lt_Some _ _ _ Hf) as Hk.
  rewrite lookup_seq_lt by assumption.
  destruct (lookup_lt_is_Some_2 refs k) as [br ->]; [lia|]. reflexivity.
Qed.

Lemma tagged_indices (faces : list Element) (refs : list Ref) :
  length refs = length faces ->
  map (fun t : SrcFace => t.1.2) (tagged faces refs) = seq 0 (length faces).
Proof.
  intros Hlen. apply list_eq. intros k. unfold tagged.
  rewrite list_lookup_fmap, list_lookup_imap, lookup_zip_with.
  destruct (faces !! k) as [f|] eqn:Hf; simpl.
  - pose proof (lookup_lt_Some _ _ _ Hf) as Hk.
    rewrite lookup_seq_lt by assumption.
    destruct (lookup_lt_is_Some_2 refs k) as [br ->]; [lia|]. reflexivity.
  - apply lookup_ge_None_1 in Hf. now rewrite lookup_seq_ge.
Qed.

Lemma resolve_group_all (doc : Document) (i : nat) (rl : list Ref)
    (fs : list Element) (acc : list SrcFace) :
  Forall2 (fun br f => resolve doc br = Returned f) rl fs ->
  resolve_group doc i rl acc
  = Returned (acc ++ zip_with (fun f br => (f, i, br)) fs rl).
Proof.
  intros H. revert acc. induction H as [|br f rl fs Hbr _ IH]; intros acc; simpl.
  - now rewrite app_nil_r.
  - rewrite Hbr. simpl. rewrite IH, <- app_assoc. reflexivity.
Qed.

(** In a duplicate-free list, the elements with a property that only [c]
    has, among them [c], are [c] alone. *)
Lemma filter_singleton {A : Type} (P : A -> Prop) `{forall a, Decision (P a)}
    (l : list A) (c : A) :
  NoDup l -> c ∈ l -> P c -> (forall a, a ∈ l -> P a -> a = c) ->
  filter P l = [c].
Proof.
  intros Hnd Hc HPc Honly.
  assert (Hf : NoDup (filter P l)) by now apply NoDup_filter.
  assert (Hcf : c ∈ filter P l) by (apply list_elem_of_filter; auto).
  assert (Hall : forall a, a ∈ filter P l -> a = c).
  { intros a Ha. apply list_elem_of_filter in Ha as [HPa Ha]. auto. }
  destruct (filter P l) as [|a [|b r]].
  - inversion Hcf.
  - f_equal. apply Hall. left.
  - exfalso. assert (a = c) by (apply Hall; left).
    assert (b = c) by (apply Hall; right; left).
    subst. apply NoDup_cons in Hf as [Hf _]. apply Hf. left.
Qed.

(** * [floatEqual] over exact values *)

(** The sample values are the floats their names say. *)
Lemma sample_floats :
  lit_1228_8 = div (of_int 12288) (of_int 10)
  /\ below_1228_8 = sub lit_1228_8 (mul (of_int 12) (pow2 (-42)))
  /\ lit_5e_324 = pow2 (-1074)
  /\ well_formed lit_1228_8 /\ well_formed below_1228_8
  /\ well_formed lit_5e_324 /\ well_formed lit_1e_12.
Proof. vm_compute. repeat split. Qed.

(** C7, as stated, fails over exact values, in both directions.  The
    floats 1e-12 and 5e-324 differ by less than 10^-12 (and by less than the
    float 1e-12), yet their difference rounds to 1e-12 and [floatEqual] is
    false.  The floats 1228.8 and 1228.8 - 12 * 2^-42 differ by more than
    10^-12 and by more than 10 * 2^-52 times the larger of them, yet the
    product rounds up to the difference and [floatEqual] is true. *)
Lemma floatEqual_not_exact :
  (floatEqual lit_1e_12 lit_5e_324 = false
   /\ Exact.exact_contract Exact.ten_to_minus_12 lit_1e_12 lit_5e_324
   /\ Exact.exact_contract (Exact.value lit_1e_12) lit_1e_12 lit_5e_324)
  /\ (floatEqual lit_1228_8 below_1228_8 = true
      /\ ~ Exact.exact_contract Exact.ten_to_minus_12 lit_1228_8 below_1228_8
      /\ ~ Exact.exact_contract (Exact.value lit_1e_12) lit_1228_8 below_1228_8).
Proof.
  split; split; [vm_compute; reflexivity| |vm_compute; reflexivity|].
  - split; left; vm_compute; reflexivity.
  - split; intros [H | H]; vm_compute in H; first [discriminate | now apply H].
Qed.

(** ** Canonical representations *)

Lemma digits2_pos_size (m : positive) : digits2_pos m = Pos.size m.
Proof. induction m; simpl; congruence. Qed.

Lemma digits2_pos_bounds (m : positive) :
  Z.pos m < 2 ^ Z.pos (digits2_pos m) /\ 2 ^ Z.pos (digits2_pos m) <= 2 * Z.pos m.
Proof.
  rewrite digits2_pos_size. split.
  - pose proof (Pos.size_gt m) as H. apply Pos2Z.pos_lt_pos in H.
    now rewrite Pos2Z.inj_pow in H.
  - pose proof (Pos.size_le m) as H. apply Pos2Z.pos_le_pos in H.
    now rewrite Pos2Z.inj_pow in H.
Qed.

(** A canonical mantissa is below 2^53, its exponent is at least -1074, and
    above that exponent the mantissa is at least 2^52. *)
Lemma bounded_canonical (m : positive) (e : Z) :
  bounded prec emax m e = true ->
  -1074 <= e <= 971 /\ Z.pos m < 2 ^ 53 /\ (-1074 < e -> 2 ^ 52 <= Z.pos m)
  /\ fexp prec emax (Z.pos (digits2_pos m) + e) = e.
Proof.
  unfold bounded, canonical_mantissa, fexp, SpecFloat.emin, prec, emax.
  rewrite andb_true_iff, Z.eqb_eq, Z.leb_le. intros [Hc He].
  destruct (digits2_pos_bounds m) as [Hlt Hge].
  set (d := Z.pos (digits2_pos m)) in *.
  assert (Hd : 0 < d) by (unfold d; lia).
  split; [lia|]. split; [|split; [|exact Hc]].
  - assert (Hd53 : d <= 53) by lia.
    pose proof (Z.pow_le_mono_r 2 d 53 ltac:(lia) Hd53). lia.
  - intros Hmin. assert (d = 53) by lia.
    replace d with 53 in Hge by lia.
    change (2 ^ 53) with (2 * 2 ^ 52) in Hge. lia.
Qed.

(** Rounding leaves a canonical representation as it is. *)
Lemma binary_round_canonical (s : bool) (m : positive) (e : Z) :
  bounded prec emax m e = true ->
  binary_round prec emax s m e = S754_finite s m e.
Proof.
  intros Hb. destruct (bounded_canonical m e Hb) as (He & _ & _ & Hc).
  unfold prec, emax in *.
  unfold binary_round, shl_align, binary_round_aux, shr_fexp. simpl Zdigits2.
  rewrite Hc, Z.sub_diag. cbv beta iota zeta. simpl Zdigits2.
  rewrite Hc, Z.sub_diag. cbn [shr round_nearest_even loc_of_shr_record shr_m].
  simpl Zdigits2. rewrite Hc, Z.sub_diag. cbn [shr shr_m shr_record_of_loc].
  destruct (e <=? 1024 - 53) eqn:Hle; [reflexivity|].
  apply Z.leb_gt in Hle. lia.
Qed.

Lemma scaled_lt (m1 m2 P Q : Z) :
  0 < P -> 2 <= Q -> m1 < 2 ^ 53 -> 2 ^ 52 <= m2 -> m1 * P < m2 * (P * Q).
Proof.
  intros HP HQ H1 H2.
  apply Z.lt_le_trans with (2 ^ 53 * P); [apply Z.mul_lt_mono_pos_r; assumption|].
  replace (m2 * (P * Q)) with (m2 * Q * P) by ring.
  apply Z.mul_le_mono_nonneg_r; [lia|].
  change (2 ^ 53) with (2 ^ 52 * 2).
  apply Z.mul_le_mono_nonneg; lia.
Qed.

(** The comparison of two canonical positive floats is the comparison of
    the numbers they stand for, here scaled by 2^1074 to integers. *)
Lemma SFcompare_canonical (m1 : positive) (e1 : Z) (m2 : positive) (e2 : Z) :
  bounded prec emax m1 e1 = true -> bounded prec emax m2 e2 = true ->
  SFcompare (S754_finite false m1 e1) (S754_finite false m2 e2)
  = Some (Z.pos m1 * 2 ^ (e1 + 1074) ?= Z.pos m2 * 2 ^ (e2 + 1074)).
Proof.
  intros H1 H2.
  destruct (bounded_canonical m1 e1 H1) as (He1 & Hm1 & Hn1 & _).
  destruct (bounded_canonical m2 e2 H2) as (He2 & Hm2 & Hn2 & _).
  simpl. f_equal. symmetry.
  destruct (e1 ?= e2) eqn:Hcmp.
  - apply Z.compare_eq in Hcmp. subst e2.
    change (Pos.compare_cont Eq m1 m2) with (Z.pos m1 ?= Z.pos m2).
    symmetry. apply Zmult_compare_compat_r.
    apply Z.lt_gt, Z.pow_pos_nonneg; lia.
  - apply -> Z.compare_lt_iff in Hcmp. apply Z.compare_lt_iff.
    replace (e2 + 1074) with ((e1 + 1074) + (e2 - e1)) by lia.
    rewrite (Z.pow_add_r 2 (e1 + 1074) (e2 - e1)) by lia.
    apply scaled_lt; [apply Z.pow_pos_nonneg; lia | | assumption | apply Hn2; lia].
    change 2 with (2 ^ 1) at 1. apply Z.pow_le_mono_r; lia.
  - apply -> Z.compare_gt_iff in Hcmp. apply Z.compare_gt_iff.
    replace (e1 + 1074) with ((e2 + 1074) + (e1 - e2)) by lia.
    rewrite (Z.pow_add_r 2 (e2 + 1074) (e1 - e2)) by lia.
    apply scaled_lt; [apply Z.pow_pos_nonneg; lia | | assumption | apply Hn1; lia].
    change 2 with (2 ^ 1) at 1. apply Z.pow_le_mono_r; lia.
Qed.

(** ** Exact values *)

Module ExactFacts.
Import QArith Qabs Qminmax Qpower.
Import Exact.
Local Open Scope Q_scope.

Lemma two_power_pos (e : Z) : 0 < 2 ^ e.
Proof. apply Qpower_0_lt. reflexivity. Qed.

Lemma dyadic_shift (m e k : Z) : (0 <= k)%Z -> dyadic (m * 2 ^ k) e == dyadic m (e + k).
Proof.
  intros Hk. unfold dyadic.
  rewrite inject_Z_mult, (Zpower_Qpower 2 k Hk), Qpower_plus by discriminate.
  change (inject_Z 2) with 2. ring.
Qed.

Lemma dyadic_sub (m n e : Z) : dyadic (m - n) e == dyadic m e - dyadic n e.
Proof.
  unfold dyadic, Z.sub. rewrite inject_Z_plus, inject_Z_opp. ring.
Qed.

Lemma dyadic_opp (m e : Z) : dyadic (- m) e == - dyadic m e.
Proof. unfold dyadic. rewrite inject_Z_opp. ring. Qed.

Lemma dyadic_mult (m n e f : Z) : dyadic (m * n) (e + f) == dyadic m e * dyadic n f.
Proof.
  unfold dyadic. rewrite inject_Z_mult, Qpower_plus by discriminate. ring.
Qed.

Lemma dyadic_scaled (m e : Z) :
  (-1074 <= e)%Z -> dyadic m e == inject_Z (m * 2 ^ (e + 1074)) * 2 ^ (-1074).
Proof.
  intros He. fold (dyadic (m * 2 ^ (e + 1074)) (-1074)).
  rewrite dyadic_shift by lia. unfold dyadic.
  replace (-1074 + (e + 1074))%Z with e by lia. reflexivity.
Qed.

Lemma cond_Zopp_mul (s : bool) (m k : Z) :
  cond_Zopp s (m * k) = (cond_Zopp s m * k)%Z.
Proof. destruct s; simpl; ring. Qed.

Lemma value_abs (a : float) : value (abs a) == Qabs (value a).
Proof.
  destruct a as [s|s| |s m e]; try reflexivity.
  change (dyadic (Z.pos m) e == Qabs (dyadic (cond_Zopp s (Z.pos m)) e)).
  unfold dyadic. rewrite Qabs_Qmult.
  rewrite (Qabs_pos (2 ^ e)) by (apply Qlt_le_weak, two_power_pos).
  destruct s; reflexivity.
Qed.

(** On canonical representations the float comparison of magnitudes is the
    comparison of the exact magnitudes. *)
Lemma lt_abs_value (a b : float) :
  finite a = true -> finite b = true -> well_formed a -> well_formed b ->
  (SFcompare (abs a) (abs b) = Some Lt <-> Qabs (value a) < Qabs (value b)).
Proof.
  intros Ha Hb Va Vb. rewrite <- !value_abs.
  destruct a as [sa|sa| |sa ma ea], b as [sb|sb| |sb mb eb]; try discriminate;
    simpl abs; simpl.
  - split; [discriminate | intros H; inversion H].
  - split; [intros _ | reflexivity].
    unfold dyadic. apply Qmult_lt_0_compat; [reflexivity | apply two_power_pos].
  - split; [discriminate|]. intros H. exfalso.
    apply (Qlt_not_le _ _ H). unfold dyadic.
    apply Qmult_le_0_compat; [discriminate | apply Qlt_le_weak, two_power_pos].
  - unfold well_formed in Va, Vb. simpl in Va, Vb.
    pose proof (SFcompare_canonical ma ea mb eb Va Vb) as Hc. simpl in Hc.
    rewrite Hc.
    destruct (bounded_canonical ma ea Va) as (Hea & _).
    destruct (bounded_canonical mb eb Vb) as (Heb & _).
    rewrite (dyadic_scaled (Z.pos ma) ea), (dyadic_scaled (Z.pos mb) eb) by lia.
    rewrite Qmult_lt_r by apply two_power_pos.
    rewrite <- Zlt_Qlt. unfold Z.lt. split; congruence.
Qed.

Lemma value_larger_magnitude (a b : float) :
  finite a = true -> finite b = true -> well_formed a -> well_formed b ->
  value (larger_magnitude a b) == Qmax (Qabs (value a)) (Qabs (value b)).
Proof.
  intros Ha Hb Va Vb. unfold larger_magnitude.
  pose proof (lt_abs_value a b Ha Hb Va Vb) as Hlt.
  destruct (SFcompare (abs a) (abs b)) as [[]|] eqn:Hc.
  - rewrite value_abs. symmetry. apply Q.max_l. apply Qnot_lt_le.
    intros H. apply Hlt in H. discriminate.
  - rewrite value_abs. symmetry. apply Q.max_r. apply Qlt_le_weak.
    now apply Hlt.
  - rewrite value_abs. symmetry. apply Q.max_l. apply Qnot_lt_le.
    intros H. apply Hlt in H. discriminate.
  - rewrite value_abs. symmetry. apply Q.max_l. apply Qnot_lt_le.
    intros H. apply Hlt in H. discriminate.
Qed.

Lemma shl_align_value (m : positive) (e ez : Z) :
  (ez <= e)%Z -> Z.pos (fst (shl_align m e ez)) = (Z.pos m * 2 ^ (e - ez))%Z.
Proof.
  intros Hle. unfold shl_align. destruct (ez - e)%Z as [|d|d] eqn:Hd.
  - replace (e - ez)%Z with 0%Z by lia. simpl. lia.
  - lia.
  - simpl fst. replace (e - ez)%Z with (Z.pos d) by lia.
    change (Pos.iter xO m d) with (shift_pos d m).
    rewrite shift_pos_correct, Zpower_pos_nat, Zpower_nat_Z, positive_nat_Z.
    apply Z.mul_comm.
Qed.

Lemma dyadic_negb (s : bool) (m e : Z) :
  dyadic (cond_Zopp (negb s) m) e == - dyadic (cond_Zopp s m) e.
Proof.
  destruct s; unfold cond_Zopp, negb; rewrite dyadic_opp; [ring | reflexivity].
Qed.

(** The difference of two floats is their exact difference, rounded once. *)
Lemma difference_rounded (a b : float) :
  finite a = true -> finite b = true -> well_formed a -> well_formed b ->
  exists md ed : Z,
    is_difference md ed a b /\ abs (sub a b) = abs (rounded md ed).
Proof.
  intros Ha Hb Va Vb. unfold is_difference.
  destruct a as [sa|sa| |sa ma ea], b as [sb|sb| |sb mb eb]; try discriminate.
  - exists 0%Z, 0%Z. split; [reflexivity|]. destruct sa, sb; reflexivity.
  - exists (cond_Zopp (negb sb) (Z.pos mb)), eb. split.
    + change (value (S754_zero sa)) with 0. unfold value.
      rewrite dyadic_negb. ring.
    + unfold rounded, sub. simpl SFsub.
      destruct sb; simpl; now rewrite binary_round_canonical.
  - exists (cond_Zopp sa (Z.pos ma)), ea. split.
    + change (value (S754_zero sb)) with 0. unfold value. ring.
    + unfold rounded, sub. simpl SFsub.
      destruct sa; simpl; now rewrite binary_round_canonical.
  - exists (cond_Zopp sa (Z.pos (fst (shl_align ma ea (Z.min ea eb))))
            - cond_Zopp sb (Z.pos (fst (shl_align mb eb (Z.min ea eb)))))%Z,
           (Z.min ea eb).
    split; [|reflexivity].
    rewrite dyadic_sub, !shl_align_value, !cond_Zopp_mul, !dyadic_shift by lia.
    unfold value.
    replace (Z.min ea eb + (ea - Z.min ea eb))%Z with ea by lia.
    replace (Z.min ea eb + (eb - Z.min ea eb))%Z with eb by lia.
    reflexivity.
Qed.

Lemma reltol_finite : mul (of_int 10) epsilon = S754_finite false 5629499534213120 (-101).
Proof. vm_compute. reflexivity. Qed.

Lemma reltol_exact : dyadic 5629499534213120 (-101) == 10 * 2 ^ (-52).
Proof. vm_compute. reflexivity. Qed.

(** The product of the relative tolerance and a magnitude is their exact
    product, rounded once. *)
Lemma product_rounded (c : float) :
  finite c = true ->
  exists mt et : Z,
    dyadic mt et == 10 * 2 ^ (-52) * value (abs c)
    /\ mul (mul (of_int 10) epsilon) (abs c) = rounded mt et.
Proof.
  intros Hc. rewrite reltol_finite.
  destruct c as [s|s| |s m e]; try discriminate.
  - exists 0%Z, 0%Z. split; [|reflexivity].
    change (value (abs (S754_zero s))) with 0. unfold dyadic. ring.
  - exists (Z.pos (5629499534213120 * m)), (-101 + e)%Z. split.
    + rewrite Pos2Z.inj_mul, dyadic_mult, reltol_exact. reflexivity.
    + unfold rounded, binary_normalize, binary_round, mul. simpl SFmul.
      assert (Hd : (53 <= Z.pos (digits2_pos (5629499534213120 * m)))%Z).
      { destruct (digits2_pos_bounds (5629499534213120 * m)) as [Hlt _].
        rewrite Pos2Z.inj_mul in Hlt.
        assert (H52 : (2 ^ 52 < 2 ^ Z.pos (digits2_pos (5629499534213120 * m)))%Z).
        { eapply Z.le_lt_trans; [|exact Hlt].
          assert (H1 : (1 <= Z.pos m)%Z) by lia.
          assert (H2 : (2 ^ 52 <= 5629499534213120)%Z) by (vm_compute; discriminate).
          replace (2 ^ 52)%Z with (2 ^ 52 * 1)%Z by ring.
          apply Z.mul_le_mono_nonneg; lia. }
        apply Z.pow_lt_mono_r_iff in H52; lia. }
      unfold shl_align.
      destruct (fexp prec emax (Z.pos (digits2_pos (5629499534213120 * m)) + (-101 + e))
                - (-101 + e))%Z eqn:Hshift; try reflexivity.
      exfalso. unfold fexp, SpecFloat.emin, prec, emax in Hshift. lia.
Qed.

End ExactFacts.

(** C7, amended: for finite binary64 values [a] and [b], [floatEqual a b]
    is true exactly when d < 1e-12 or d <= t, where d is the magnitude of
    the exact difference [a - b] rounded once to binary64, t is the exact
    product of 10 * 2^-52 and the larger of the exact magnitudes of [a] and
    [b] rounded once to binary64, 1e-12 is the binary64 value nearest to
    10^-12, and [<], [<=] compare binary64 values. *)
Theorem floatEqual_rounded (a b : float) :
  finite a = true -> finite b = true -> well_formed a -> well_formed b ->
  Exact.nearest lit_1e_12 Exact.ten_to_minus_12
  /\ exists md ed mt et : Z,
       Exact.is_difference md ed a b
       /\ Exact.is_relative_bound mt et a b
       /\ (floatEqual a b = true
           <-> below (abs (rounded md ed)) lit_1e_12
               \/ at_most (abs (rounded md ed)) (rounded mt et)).
Proof.
  intros Ha Hb Va Vb. split; [vm_compute; discriminate|].
  destruct (ExactFacts.difference_rounded a b Ha Hb Va Vb) as (md & ed & Hd & Hsub).
  assert (Hfin : finite (larger_magnitude a b) = true).
  { unfold larger_magnitude.
    destruct (SFcompare (abs a) (abs b)) as [[]|]; [destruct a|destruct b|destruct a..];
      try discriminate; reflexivity. }
  assert (Habs : abs (larger_magnitude a b) = larger_magnitude a b).
  { unfold larger_magnitude.
    destruct (SFcompare (abs a) (abs b)) as [[]|]; [destruct a|destruct b|destruct a..];
      reflexivity. }
  destruct (ExactFacts.product_rounded (larger_magnitude a b) Hfin)
    as (mt & et & Ht & Hmul).
  rewrite Habs in Ht, Hmul.
  exists md, ed, mt, et. split; [exact Hd|]. split.
  - unfold Exact.is_relative_bound.
    rewrite <- (ExactFacts.value_larger_magnitude a b Ha Hb Va Vb). exact Ht.
  - rewrite floatEqual_contract.
    unfold within_abstol, within_reltol, below, at_most.
    cbv zeta. rewrite Hsub, Hmul. reflexivity.
Qed.

Lemma floatEqual_rounded_witness :
  Exact.nearest lit_1e_12 Exact.ten_to_minus_12
  /\ exists md ed mt et : Z,
       Exact.is_difference md ed lit_1228_8 below_1228_8
       /\ Exact.is_relative_bound mt et lit_1228_8 below_1228_8
       /\ (floatEqual lit_1228_8 below_1228_8 = true
           <-> below (abs (rounded md ed)) lit_1e_12
               \/ at_most (abs (rounded md ed)) (rounded mt et)).
Proof.
  apply (floatEqual_rounded lit_1228_8 below_1228_8); reflexivity.
Defined.

(** ** The call returns whenever every reference resolves *)

Lemma sweep_body_in_range (src_face_list : list SrcFace) (mesh_face_list : list MeshFace)
    (st st' : Sweep.State) (src_i : SrcFace) (mesh_j : MeshFace) :
  src_face_list !! Sweep.i st = Some src_i ->
  sweep_body src_i mesh_j st = Returned st' ->
  candidates_in_range (length src_face_list) (length mesh_face_list)
    (Sweep.candidate_mesh_faces st) ->
  candidates_in_range (length src_face_list) (length mesh_face_list)
    (Sweep.candidate_mesh_faces st').
Proof.
  intros Hi Hbody [Hlen Hall]. apply lookup_lt_Some in Hi.
  unfold sweep_body in Hbody.
  destruct (CofM_cmp src_i.1.1 mesh_j.1 =? 0)%Z.
  - unfold append_at in Hbody.
    destruct (Sweep.candidate_mesh_faces st !! Sweep.j st) as [row|] eqn:Hrow;
      [|discriminate].
    injection Hbody as <-. simpl. split; [now rewrite length_insert|].
    apply Forall_insert; [assumption|].
    apply Forall_app. split.
    + rewrite Forall_forall in Hall. apply Hall. apply list_elem_of_lookup. eauto.
    + repeat constructor. exact Hi.
  - destruct (CofM_cmp src_i.1.1 mesh_j.1 <? 0)%Z; injection Hbody as <-;
      simpl; now split.
Qed.

Lemma sweep_loop_in_range (src_face_list : list SrcFace) (mesh_face_list : list MeshFace)
    (fuel : nat) (st st' : Sweep.State) :
  sweep_loop fuel src_face_list mesh_face_list st = Returned st' ->
  candidates_in_range (length src_face_list) (length mesh_face_list)
    (Sweep.candidate_mesh_faces st) ->
  candidates_in_range (length src_face_list) (length mesh_face_list)
    (Sweep.candidate_mesh_faces st').
Proof.
  revert st. induction fuel as [|fuel IH]; intros st Hloop Hinv; simpl in Hloop.
  - now injection Hloop as <-.
  - destruct (src_face_list !! Sweep.i st) as [src_i|] eqn:Hi;
      [|now injection Hloop as <-].
    destruct (mesh_face_list !! Sweep.j st) as [mesh_j|] eqn:Hj;
      [|now injection Hloop as <-].
    destruct (sweep_body src_i mesh_j st) as [st1|e] eqn:Hbody; [|discriminate].
    simpl in Hloop. apply (IH st1 Hloop).
    exact (sweep_body_in_range _ _ _ _ _ mesh_j Hi Hbody Hinv).
Qed.

Lemma confirm_row_Returned (src_face_list : list SrcFace) (mesh_face_list : list MeshFace)
    (j : nat) (row : list Candidate) (acc : list (list (nat * Ref))) :
  Forall (fun c : Candidate => (c.1.1 < length src_face_list)%nat) row ->
  (j < length mesh_face_list)%nat ->
  Forall (fun mf : MeshFace => (mf.2 < length acc)%nat) mesh_face_list ->
  exists acc', confirm_row src_face_list mesh_face_list j row acc = Returned acc'
               /\ length acc' = length acc.
Proof.
  intros Hrow Hj Hmesh. revert acc Hmesh.
  induction Hrow as [|[[i nb] bref] row Hi _ IH]; intros acc Hmesh; simpl; [eauto|].
  simpl in Hi. unfold index_.
  destruct (lookup_lt_is_Some_2 src_face_list i Hi) as [src_i ->].
  destruct (lookup_lt_is_Some_2 mesh_face_list j Hj) as [mesh_j Hmj]. rewrite Hmj.
  simpl.
  assert (Hin : (mesh_j.2 < length acc)%nat).
  { rewrite Forall_forall in Hmesh. apply Hmesh. apply list_elem_of_lookup. eauto. }
  destruct (truthy (isSameGeometry src_i.1.1 mesh_j.1)).
  - destruct (lookup_lt_is_Some_2 acc mesh_j.2 Hin) as [l Hl].
    rewrite (append_at_Some _ _ _ _ Hl). simpl.
    destruct (IH (<[mesh_j.2 := l ++ [(nb, bref)]]> acc)) as (acc' & -> & Hlen).
    + now rewrite length_insert.
    + exists acc'. split; [reflexivity|]. now rewrite Hlen, length_insert.
  - simpl. now apply IH.
Qed.

Lemma confirm_rows_Returned (src_face_list : list SrcFace) (mesh_face_list : list MeshFace)
    (j : nat) (rows : list (list Candidate)) (acc : list (list (nat * Ref))) :
  Forall (Forall (fun c : Candidate => (c.1.1 < length src_face_list)%nat)) rows ->
  (j + length rows <= length mesh_face_list)%nat ->
  Forall (fun mf : MeshFace => (mf.2 < length acc)%nat) mesh_face_list ->
  exists acc', confirm_rows src_face_list mesh_face_list j rows acc = Returned acc'
               /\ length acc' = length acc.
Proof.
  intros Hrows. revert j acc.
  induction Hrows as [|row rows Hrow _ IH]; intros j acc Hj Hmesh; simpl; [eauto|].
  simpl in Hj.
  destruct (confirm_row_Returned src_face_list mesh_face_list j row acc Hrow)
    as (acc1 & -> & Hlen1); [lia | assumption |].
  simpl. destruct (IH (S j) acc1) as (acc' & -> & Hlen'); [lia | | ].
  - now rewrite Hlen1.
  - exists acc'. split; [reflexivity | congruence].
Qed.

Lemma resolve_groups_all (doc : Document) (i : nat) (ref_lists : list (list Ref))
    (acc : list SrcFace) :
  Forall (Forall (resolves doc)) ref_lists ->
  exists src, resolve_groups doc i ref_lists acc = Returned src.
Proof.
  intros Hall. destruct (resolve_groups doc i ref_lists acc) as [src|e] eqn:H; [eauto|].
  exfalso. destruct (resolve_groups_Raised _ _ _ _ _ H) as (pre & br & post & Hcat & _ & Hbr).
  assert (Hin : br ∈ concat ref_lists) by (rewrite Hcat; set_solver).
  apply list_elem_of_In, List.in_concat in Hin as (rl & Hrl & Hbrl).
  apply list_elem_of_In in Hrl, Hbrl.
  rewrite Forall_forall in Hall. specialize (Hall rl Hrl).
  rewrite Forall_forall in Hall. destruct (Hall br Hbrl) as [bf Hbf]. congruence.
Qed.

(** When every reference resolves, the function returns one entry per face
    of the target shape: neither the loop budget nor an index out of range
    ever ends the call. *)
Lemma matchFacesToTargetShape_returns (doc : Document) (ref_lists : list (list Ref))
    (shape : Shape) :
  Forall (Forall (resolves doc)) ref_lists ->
  exists result,
    matchFacesToTargetShape doc ref_lists shape = Returned result
    /\ length result = length (Faces shape).
Proof.
  intros Hall. unfold matchFacesToTargetShape.
  destruct (resolve_groups_all doc 0 ref_lists [] Hall) as [src0 ->]. simpl.
  set (src := sort_by_CenterOfMass (fun bf : SrcFace => bf.1.1) src0).
  set (mesh := sort_by_CenterOfMass (fun mf : MeshFace => mf.1)
                 (zip (Faces shape) (seq 0 (length (Faces shape))))).
  assert (Hmlen : length mesh = length (Faces shape)).
  { unfold mesh. rewrite sort_by_CenterOfMass_perm, length_zip_with, length_seq. lia. }
  destruct (sweep_exits src mesh) as (st & Hsweep & _ & Hrows).
  assert (Hinv : candidates_in_range (length src) (length mesh)
                   (Sweep.candidate_mesh_faces st)).
  { unfold sweep in Hsweep. apply (sweep_loop_in_range _ _ _ _ _ Hsweep).
    unfold sweep_init. simpl. split; [apply length_map|].
    apply Forall_fmap, Forall_forall. intros mf _. constructor. }
  rewrite Hsweep. simpl.
  destruct (confirm_rows_Returned src mesh 0 (Sweep.candidate_mesh_faces st)
              (map (fun _ => []) mesh)) as (result & -> & Hlen).
  - apply Hinv.
  - simpl. lia.
  - rewrite length_map, Hmlen. unfold mesh. rewrite sort_by_CenterOfMass_perm.
    apply Forall_forall. intros [f k] Hin. simpl.
    apply elem_of_zip_r in Hin. apply elem_of_seq in Hin. lia.
  - exists result. split; [reflexivity|]. now rewrite Hlen, length_map.
Qed.

(** C1, as stated, fails: for a compound that lists one face twice, the
    group of references to its own three faces yields two pairs in the
    entries of both copies. *)
Lemma matchFaces_identity_cross_matches :
  let refs : list Ref :=
    [("Doubled", "Face1"); ("Doubled", "Face2"); ("Doubled", "Face3")]%string in
  Forall2 (fun br f => resolve Sample.doc br = Returned f) refs (Faces Sample.doubled)
  /\ matchFacesToTargetShape Sample.doc [refs] Sample.doubled
     = Returned [[(0%nat, ("Doubled", "Face1")); (0%nat, ("Doubled", "Face2"))];
                 [(0%nat, ("Doubled", "Face1")); (0%nat, ("Doubled", "Face2"))];
                 [(0%nat, ("Doubled", "Face3"))]]%string.
Proof.
  cbv zeta. split; [|vm_compute; reflexivity].
  repeat constructor; vm_compute; reflexivity.
Qed.

(** References that resolve to the faces in face order. *)
Lemma matchFaces_identity_in_order (doc : Document) (shape : Shape) (refs : list Ref) :
  Forall2 (fun br f => resolve doc br = Returned f) refs (Faces shape) ->
  Forall (fun f => Vertexes f <> [] /\ finite_element f = true) (Faces shape) ->
  separated_CenterOfMass (Faces shape) ->
  matchFacesToTargetShape doc [refs] shape
  = Returned (map (fun br => [(0%nat, br)]) refs).
Proof.
  intros Hres Hfaces (Hsep & Hx & Hy & Hz).
  pose proof (Forall2_length _ _ _ Hres) as Hlen.
  set (faces := Faces shape) in *.
  assert (Hfin : Forall (fun f => finite_CenterOfMass f = true) faces).
  { eapply Forall_impl; [exact Hfaces|]. intros f [_ Hf].
    unfold finite_element in Hf. rewrite !andb_true_iff in Hf. tauto. }
  assert (Hself : forall f, f ∈ faces -> isSameGeometry f f = Some true).
  { intros f Hf. rewrite Forall_forall in Hfaces. destruct (Hfaces f Hf) as [Hne Hff].
    apply isSameGeometry_vertex_permuted; try assumption. now repeat split. }
  (* the flattened references and the indexed faces are two views of one list *)
  unfold matchFacesToTargetShape. fold faces. simpl.
  rewrite (resolve_group_all doc 0 refs faces [] Hres). simpl.
  rewrite <- (tagged_as_src faces refs), <- (tagged_as_mesh faces refs Hlen).
  rewrite (sort_by_CenterOfMass_map as_src (fun t : SrcFace => t.1.1))
    by reflexivity.
  rewrite (sort_by_CenterOfMass_map as_mesh (fun t : SrcFace => t.1.1))
    by reflexivity.
  set (L := sort_by_CenterOfMass (fun t : SrcFace => t.1.1) (tagged faces refs)).
  assert (Hperm : L ≡ₚ tagged faces refs) by apply sort_by_CenterOfMass_perm.
  assert (HL : forall t, t ∈ L ->
             faces !! t.1.2 = Some t.1.1 /\ refs !! t.1.2 = Some t.2).
  { intros t Ht. apply elem_of_tagged. now rewrite <- Hperm. }
  assert (Hon : Forall (on_fs (fun t : SrcFace => t.1.1) faces) (tagged faces refs)).
  { apply Forall_forall. intros t Ht. apply elem_of_tagged in Ht as [Ht _].
    unfold on_fs. apply list_elem_of_lookup. eauto. }
  assert (HonL : forall t, t ∈ L -> t.1.1 ∈ faces).
  { intros t Ht. destruct (HL t Ht) as [Hf _]. apply list_elem_of_lookup. eauto. }
  assert (Hnd : NoDup (map (fun t : SrcFace => t.1.2) L)).
  { rewrite Hperm, (tagged_indices faces refs Hlen). apply NoDup_seq. }
  assert (HlenL : length L = length faces).
  { rewrite Hperm. now apply length_tagged. }
  pose proof (sort_by_CenterOfMass_sorted (fun t : SrcFace => t.1.1) faces
                Hx Hy Hz (tagged faces refs) Hon) as Hsorted.
  fold L in Hsorted.
  (* the sweep *)
  destruct (sweep_identity L) as (st & Hsweep & Hcands).
  { intros k t Ht. apply CofM_cmp_refl.
    rewrite Forall_forall in Hfin. apply Hfin, HonL.
    apply list_elem_of_lookup. eauto. }
  { intros k p q Hp Hq.
    assert (Hpin : p ∈ L) by (apply list_elem_of_lookup; eauto).
    assert (Hqin : q ∈ L) by (apply list_elem_of_lookup; eauto).
    assert (Hpq : CofM_cmp p.1.1 q.1.1 = (-1)%Z).
    { apply (after_x_CofM_cmp (fun t : SrcFace => t.1.1) faces Hfin).
      - now apply HonL.
      - now apply HonL.
      - apply (StronglySorted_lookup _ L k (S k) p q Hsorted); [lia | assumption..].
      - destruct (HL p Hpin) as [Hfp _], (HL q Hqin) as [Hfq _].
        apply (Hsep p.1.2 q.1.2); try assumption.
        intros Heq. pose proof (proj1 (NoDup_alt _) Hnd) as Hnd'.
        assert (k = S k); [|lia].
        apply (Hnd' k (S k) p.1.2); rewrite list_lookup_fmap.
        + now rewrite Hp.
        + rewrite Hq. simpl. now rewrite Heq. }
    split; [assumption|].
    rewrite Forall_forall in Hfin.
    rewrite CofM_cmp_antisym, Hpq by (apply Hfin, HonL; assumption).
    reflexivity. }
  rewrite Hsweep. simpl. rewrite Hcands.
  (* the confirmation *)
  rewrite (confirm_rows_identity L) with (rest := L) (j := 0%nat).
  2: { intros t Ht. now apply Hself, HonL. }
  2: { intros t Ht. destruct (HL t Ht) as [Hf _].
       rewrite HlenL. exact (lookup_lt_Some _ _ _ Hf). }
  2: { reflexivity. }
  2: { now rewrite !length_map. }
  f_equal. apply list_eq. intros m.
  rewrite lookup_fold_place, !list_lookup_fmap.
  destruct (refs !! m) as [br|] eqn:Hbr.
  - pose proof (lookup_lt_Some _ _ _ Hbr) as Hm.
    destruct (lookup_lt_is_Some_2 faces m) as [f Hf]; [lia|].
    destruct (lookup_lt_is_Some_2 L m) as [t ->]; [lia|]. simpl. f_equal.
    assert (Hc : (f, m, br) ∈ L).
    { rewrite Hperm. apply list_elem_of_lookup. exists m.
      apply lookup_tagged. eauto. }
    rewrite (filter_singleton (fun t : SrcFace => t.1.2 = m) L (f, m, br)).
    + reflexivity.
    + eapply NoDup_fmap_1. exact Hnd.
    + exact Hc.
    + reflexivity.
    + intros [[f' k'] br'] Ha Hk'. simpl in Hk'. subst k'.
      destruct (HL _ Ha) as [Hf' Hbr']. simpl in *. congruence.
  - apply lookup_ge_None_1 in Hbr.
    rewrite (lookup_ge_None_2 L m) by lia. reflexivity.
Qed.

(** Two arrangements of the same entries without inversions coincide when
    the order leaves no two distinct entries undecided. *)
Lemma no_inversion_unique {A : Type} (R : A -> A -> Prop) (l1 l2 : list A) :
  l1 ≡ₚ l2 -> no_inversion R l1 -> no_inversion R l2 ->
  (forall p q, p ∈ l1 -> q ∈ l1 -> ~ R q p -> ~ R p q -> p = q) ->
  l1 = l2.
Proof.
  revert l2. induction l1 as [|a l1 IH]; intros l2 Hp H1 H2 Huniq.
  - now apply Permutation_nil_l.
  - destruct l2 as [|b l2]; [apply Permutation_nil_r in Hp; discriminate|].
    apply StronglySorted_inv in H1 as [H1 Ha].
    apply StronglySorted_inv in H2 as [H2 Hb].
    rewrite Forall_forall in Ha, Hb.
    assert (Hab : a = b).
    { assert (Hain : a ∈ b :: l2) by (rewrite <- Hp; left).
      apply elem_of_cons in Hain as [|Hain]; [assumption|].
      assert (Hbin : b ∈ a :: l1) by (rewrite Hp; left).
      pose proof Hbin as Hbin'.
      apply elem_of_cons in Hbin as [|Hbin]; [congruence|].
      apply Huniq; [left | assumption | now apply Ha | now apply Hb]. }
    subst b. f_equal. apply IH; try assumption.
    + exact (Permutation_cons_inv Hp).
    + intros p q Hpin Hqin. apply Huniq; now right.
Qed.

(** C1, amended: for every target shape whose faces have at least one vertex
    and finite data, can be told apart by their centres of mass, and have
    centre-of-mass coordinates on which the tolerant ordering is consistent,
    a single group of references that resolve to exactly the faces of the
    shape itself returns, for every face index k, exactly the one pair
    (0, the reference of the group that resolves to face k). *)
Theorem matchFaces_identity (doc : Document) (shape : Shape) (refs : list Ref)
    (resolved : list Element) :
  Forall2 (fun br f => resolve doc br = Returned f) refs resolved ->
  resolved ≡ₚ Faces shape ->
  Forall (fun f => Vertexes f <> [] /\ finite_element f = true) (Faces shape) ->
  separated_CenterOfMass (Faces shape) ->
  exists refs',
    refs' ≡ₚ refs
    /\ Forall2 (fun br f => resolve doc br = Returned f) refs' (Faces shape)
    /\ matchFacesToTargetShape doc [refs] shape
       = Returned (map (fun br => [(0%nat, br)]) refs').
Proof.
  intros Hres Hperm Hfaces Hsep.
  pose proof (Forall2_length _ _ _ Hres) as Hlen.
  (* reorder the references along the faces *)
  assert (Hfst : (zip resolved refs).*1 = resolved) by (apply fst_zip; lia).
  assert (Hsnd : (zip resolved refs).*2 = refs) by (apply snd_zip; lia).
  destruct (Permutation_map_inv fst (l1 := Faces shape) (zip resolved refs))
    as (pairs & Hfaces_eq & Hpairs).
  { change (Faces shape ≡ₚ (zip resolved refs).*1). now rewrite Hfst. }
  change (Faces shape = pairs.*1) in Hfaces_eq.
  assert (Hpair : forall fr, fr ∈ pairs -> resolve doc fr.2 = Returned fr.1).
  { intros fr Hin. rewrite <- Hpairs in Hin.
    apply list_elem_of_lookup in Hin as [k Hk].
    rewrite lookup_zip_with in Hk.
    destruct (resolved !! k) as [f|] eqn:Hf; [|discriminate].
    destruct (refs !! k) as [br|] eqn:Hbr; [|discriminate].
    injection Hk as <-. simpl.
    exact (Forall2_lookup_lr _ _ _ _ _ _ Hres Hbr Hf). }
  set (refs' := pairs.*2).
  assert (Hres' : Forall2 (fun br f => resolve doc br = Returned f) refs' (Faces shape)).
  { rewrite Hfaces_eq. unfold refs'. apply Forall2_fmap.
    apply Forall_Forall2_diag, Forall_forall. exact Hpair. }
  exists refs'. split; [|split; [exact Hres'|]].
  { unfold refs'. now rewrite <- Hpairs, Hsnd. }
  rewrite <- (matchFaces_identity_in_order doc shape refs' Hres' Hfaces Hsep).
  (* both calls sort the same entries, and the sorted order is unique *)
  unfold matchFacesToTargetShape. simpl.
  rewrite (resolve_group_all doc 0 refs resolved [] Hres).
  rewrite (resolve_group_all doc 0 refs' (Faces shape) [] Hres'). simpl.
  set (face := fun bf : SrcFace => bf.1.1).
  assert (Hsorted :
    sort_by_CenterOfMass face (zip_with (fun f br => (f, 0%nat, br)) resolved refs)
    = sort_by_CenterOfMass face
        (zip_with (fun f br => (f, 0%nat, br)) (Faces shape) refs')).
  { destruct Hsep as (Hdistinct & Hx & Hy & Hz).
    assert (Hfin : Forall (fun f => finite_CenterOfMass f = true) (Faces shape)).
    { eapply Forall_impl; [exact Hfaces|]. intros f [_ Hf].
      unfold finite_element in Hf. rewrite !andb_true_iff in Hf. tauto. }
    assert (Hsame : zip_with (fun f br => (f, 0%nat, br)) resolved refs
                    ≡ₚ zip_with (fun f br => (f, 0%nat, br)) (Faces shape) refs').
    { rewrite (zip_with_zip (fun f br => (f, 0%nat, br)) resolved refs).
      rewrite (zip_with_zip (fun f br => (f, 0%nat, br)) (Faces shape) refs').
      unfold refs'. rewrite Hfaces_eq, zip_fst_snd. now rewrite Hpairs. }
    assert (Hentry : forall t,
      t ∈ zip_with (fun f br => (f, 0%nat, br)) (Faces shape) refs' ->
      exists k, Faces shape !! k = Some t.1.1 /\ refs' !! k = Some t.2
                /\ t.1.2 = 0%nat).
    { intros t Ht. apply list_elem_of_lookup in Ht as [k Hk].
      rewrite lookup_zip_with in Hk.
      destruct (Faces shape !! k) as [f|] eqn:Hf; [|discriminate].
      destruct (refs' !! k) as [br|] eqn:Hbr; [|discriminate].
      injection Hk as <-. exists k. auto. }
    assert (Hon : forall l,
      l ≡ₚ zip_with (fun f br => (f, 0%nat, br)) (Faces shape) refs' ->
      Forall (on_fs face (Faces shape)) l).
    { intros l Hl. apply Forall_forall. intros t Ht. rewrite Hl in Ht.
      destruct (Hentry t Ht) as (k & Hf & _). unfold on_fs.
      apply list_elem_of_lookup. eauto. }
    apply (no_inversion_unique (after_x face)).
    - now rewrite !sort_by_CenterOfMass_perm.
    - apply (sort_by_CenterOfMass_sorted face (Faces shape) Hx Hy Hz). now apply Hon.
    - apply (sort_by_CenterOfMass_sorted face (Faces shape) Hx Hy Hz). now apply Hon.
    - intros p q Hp Hq Hqp Hpq.
      rewrite sort_by_CenterOfMass_perm, Hsame in Hp, Hq.
      destruct (Hentry p Hp) as (kp & Hfp & Hrp & Hgp).
      destruct (Hentry q Hq) as (kq & Hfq & Hrq & Hgq).
      assert (Honp : on_fs face (Faces shape) p)
        by (unfold on_fs; apply list_elem_of_lookup; eauto).
      assert (Honq : on_fs face (Faces shape) q)
        by (unfold on_fs; apply list_elem_of_lookup; eauto).
      destruct (decide (kp = kq)) as [->|Hne].
      + destruct p as [[fp gp] rp], q as [[fq gq] rq]. simpl in *. congruence.
      + exfalso.
        pose proof (Hdistinct kp kq _ _ Hne Hfp Hfq) as Hd.
        pose proof (after_x_CofM_cmp face (Faces shape) Hfin p q Honp Honq Hqp Hd) as C1.
        assert (Hd' : CenterOfMass_equal (face q) (face p) = false)
          by (now rewrite CenterOfMass_equal_sym).
        pose proof (after_x_CofM_cmp face (Faces shape) Hfin q p Honq Honp Hpq Hd') as C2.
        rewrite Forall_forall in Hfin.
        rewrite CofM_cmp_antisym, C1 in C2 by (apply Hfin; assumption).
        discriminate. }
  now rewrite Hsorted.
Qed.

Lemma strip_consistent (c : Element -> float) :
  (forall f, f ∈ Faces Sample.strip -> c f = Sample.fl 0)
  \/ (forall cx area, c (Sample.quad cx area) = Sample.fl cx) ->
  consistent_keys c (Faces Sample.strip).
Proof.
  intros Hc f g h Hf Hg Hh. unfold compKeyFn, K_lt. simpl.
  destruct Hc as [Hc | Hc].
  - rewrite (Hc f Hf), (Hc g Hg), (Hc h Hh). vm_compute. discriminate.
  - simpl in Hf, Hg, Hh. set_unfold. destruct_or!; subst; rewrite !Hc;
      vm_compute; intros H; first [discriminate | left; reflexivity | right; reflexivity].
Qed.

Lemma matchFaces_identity_witness :
  exists refs',
    refs' ≡ₚ [("Strip", "Face2"); ("Strip", "Face1"); ("Strip", "Face3")]%string
    /\ Forall2 (fun br f => resolve Sample.doc br = Returned f) refs'
         (Faces Sample.strip)
    /\ matchFacesToTargetShape Sample.doc
         [[("Strip", "Face2"); ("Strip", "Face1"); ("Strip", "Face3")]%string]
         Sample.strip
       = Returned (map (fun br => [(0%nat, br)]) refs').
Proof.
  apply (matchFaces_identity Sample.doc Sample.strip
           [("Strip", "Face2"); ("Strip", "Face1"); ("Strip", "Face3")]%string
           [Sample.quad 3 4; Sample.quad 0 4; Sample.quad 6 4]).
  - repeat constructor; vm_compute; reflexivity.
  - apply perm_swap.
  - repeat constructor; try discriminate; vm_compute; reflexivity.
  - split; [|split; [|split]].
    + intros [|[|[|i]]] [|[|[|j]]] f g Hij Hf Hg; try discriminate; try congruence;
        injection Hf as <-; injection Hg as <-; vm_compute; reflexivity.
    + apply strip_consistent. right. reflexivity.
    + apply strip_consistent. left. intros f Hf. simpl in Hf. set_unfold.
      destruct_or!; subst; reflexivity.
    + apply strip_consistent. left. intros f Hf. simpl in Hf. set_unfold.
      destruct_or!; subst; reflexivity.
Defined.

(** * Further properties of the code *)

(** ** Soundness of [matchFacesToTargetShape] *)

Lemma resolve_group_items (doc : Document) (i : nat) (rl : list Ref)
    (acc src : list SrcFace) :
  resolve_group doc i rl acc = Returned src ->
  forall item, item ∈ src ->
    item ∈ acc \/ (item.1.2 = i /\ item.2 ∈ rl /\ resolve doc item.2 = Returned item.1.1).
Proof.
  revert acc. induction rl as [|br rl IH]; intros acc H item Hin; simpl in H.
  - injection H as <-. now left.
  - destruct (resolve doc br) as [bf|e] eqn:Hbr; [|discriminate]. simpl in H.
    destruct (IH _ H item Hin) as [Hacc | (Hi & Hrl & Hres)].
    + apply elem_of_app in Hacc as [Hacc | Hnew]; [now left|].
      apply list_elem_of_singleton in Hnew as ->. right. simpl.
      repeat split; [left | assumption].
    + right. repeat split; [assumption | now right | assumption].
Qed.

Lemma resolve_groups_items (doc : Document) (i0 : nat) (ref_lists : list (list Ref))
    (acc src : list SrcFace) :
  resolve_groups doc i0 ref_lists acc = Returned src ->
  forall item, item ∈ src ->
    item ∈ acc
    \/ exists rl, (i0 <= item.1.2)%nat /\ ref_lists !! (item.1.2 - i0)%nat = Some rl
                  /\ item.2 ∈ rl /\ resolve doc item.2 = Returned item.1.1.
Proof.
  revert i0 acc. induction ref_lists as [|rl rest IH]; intros i0 acc H item Hin;
    simpl in H.
  - injection H as <-. now left.
  - destruct (resolve_group doc i0 rl acc) as [acc1|e] eqn:Hrl; [|discriminate].
    simpl in H.
    destruct (IH _ _ H item Hin) as [Hacc1 | (rl' & Hle & Hlook & Hmem & Hres)].
    + destruct (resolve_group_items _ _ _ _ _ Hrl item Hacc1)
        as [Hacc | (Hi & Hmem & Hres)]; [now left|].
      right. exists rl. rewrite Hi, Nat.sub_diag. repeat split; auto.
    + right. exists rl'. repeat split; try assumption; [lia|].
      replace (item.1.2 - i0)%nat with (S (item.1.2 - S i0)) by lia. exact Hlook.
Qed.

Lemma truthy_true (r : option bool) : truthy r = true <-> r = Some true.
Proof. destruct r as [[|]|]; simpl; split; congruence. Qed.

Lemma sweep_body_from (src_face_list : list SrcFace) (st st' : Sweep.State)
    (src_i : SrcFace) (mesh_j : MeshFace) :
  src_face_list !! Sweep.i st = Some src_i ->
  sweep_body src_i mesh_j st = Returned st' ->
  candidates_from src_face_list (Sweep.candidate_mesh_faces st) ->
  candidates_from src_face_list (Sweep.candidate_mesh_faces st').
Proof.
  intros Hi Hbody Hall. unfold sweep_body in Hbody.
  destruct (CofM_cmp src_i.1.1 mesh_j.1 =? 0)%Z.
  - unfold append_at in Hbody.
    destruct (Sweep.candidate_mesh_faces st !! Sweep.j st) as [row|] eqn:Hrow;
      [|discriminate].
    injection Hbody as <-. simpl. apply Forall_insert; [assumption|].
    apply Forall_app. split.
    + unfold candidates_from in Hall. rewrite Forall_forall in Hall.
      apply Hall. apply list_elem_of_lookup. eauto.
    + repeat constructor. simpl. exists src_i.1.1. rewrite Hi.
      now destruct src_i as [[bf nb] br].
  - destruct (CofM_cmp src_i.1.1 mesh_j.1 <? 0)%Z; injection Hbody as <-;
      simpl; assumption.
Qed.

Lemma sweep_loop_from (src_face_list : list SrcFace) (mesh_face_list : list MeshFace)
    (fuel : nat) (st st' : Sweep.State) :
  sweep_loop fuel src_face_list mesh_face_list st = Returned st' ->
  candidates_from src_face_list (Sweep.candidate_mesh_faces st) ->
  candidates_from src_face_list (Sweep.candidate_mesh_faces st').
Proof.
  revert st. induction fuel as [|fuel IH]; intros st Hloop Hinv; simpl in Hloop.
  - now injection Hloop as <-.
  - destruct (src_face_list !! Sweep.i st) as [src_i|] eqn:Hi;
      [|now injection Hloop as <-].
    destruct (mesh_face_list !! Sweep.j st) as [mesh_j|] eqn:Hj;
      [|now injection Hloop as <-].
    destruct (sweep_body src_i mesh_j st) as [st1|e] eqn:Hbody; [|discriminate].
    simpl in Hloop. apply (IH st1 Hloop).
    exact (sweep_body_from _ _ _ _ mesh_j Hi Hbody Hinv).
Qed.

Lemma append_at_confirmed (src_face_list : list SrcFace) (mesh_face_list : list MeshFace)
    (acc acc' : list (list (nat * Ref))) (m : nat) (pair : nat * Ref) :
  append_at acc m pair = Returned acc' ->
  entries_confirmed src_face_list mesh_face_list acc ->
  (exists bf mf, (bf, pair.1, pair.2) ∈ src_face_list
                 /\ (mf, m) ∈ mesh_face_list /\ isSameGeometry bf mf = Some true) ->
  entries_confirmed src_face_list mesh_face_list acc'.
Proof.
  unfold append_at. destruct (acc !! m) as [l|] eqn:Hl; [|discriminate].
  intros [= <-] Hacc Hpair k entry p Hk Hp.
  destruct (decide (k = m)) as [->|Hne].
  - rewrite list_lookup_insert_eq in Hk by (eapply lookup_lt_Some; exact Hl).
    injection Hk as <-. apply elem_of_app in Hp as [Hp|Hp].
    + exact (Hacc m l p Hl Hp).
    + apply list_elem_of_singleton in Hp as ->. exact Hpair.
  - rewrite list_lookup_insert_ne in Hk by congruence. exact (Hacc k entry p Hk Hp).
Qed.

Lemma confirm_row_confirmed (src_face_list : list SrcFace) (mesh_face_list : list MeshFace)
    (j : nat) (row : list Candidate) (acc acc' : list (list (nat * Ref))) :
  Forall (fun c : Candidate =>
            exists bf, src_face_list !! c.1.1 = Some (bf, c.1.2, c.2)) row ->
  confirm_row src_face_list mesh_face_list j row acc = Returned acc' ->
  entries_confirmed src_face_list mesh_face_list acc ->
  entries_confirmed src_face_list mesh_face_list acc'.
Proof.
  intros Hrow. revert acc.
  induction Hrow as [|[[i nb] bref] row [bf Hc] _ IH]; intros acc H Hacc; simpl in H.
  - now injection H as <-.
  - simpl in Hc. unfold index_ in H. rewrite Hc in H. simpl in H.
    destruct (mesh_face_list !! j) as [[mf k]|] eqn:Hj; [|discriminate]. simpl in H.
    destruct (truthy (isSameGeometry bf mf)) eqn:Hsame.
    + destruct (append_at acc k (nb, bref)) as [acc1|e] eqn:Happ; [|discriminate].
      simpl in H. apply (IH acc1 H).
      apply (append_at_confirmed _ _ _ _ _ _ Happ Hacc).
      exists bf, mf. simpl. repeat split.
      * apply list_elem_of_lookup. eauto.
      * apply list_elem_of_lookup. eauto.
      * now apply truthy_true.
    + simpl in H. exact (IH acc H Hacc).
Qed.

Lemma confirm_rows_confirmed (src_face_list : list SrcFace) (mesh_face_list : list MeshFace)
    (j : nat) (rows : list (list Candidate)) (acc acc' : list (list (nat * Ref))) :
  candidates_from src_face_list rows ->
  confirm_rows src_face_list mesh_face_list j rows acc = Returned acc' ->
  entries_confirmed src_face_list mesh_face_list acc ->
  entries_confirmed src_face_list mesh_face_list acc'.
Proof.
  intros Hrows. revert j acc.
  induction Hrows as [|row rows Hrow _ IH]; intros j acc H Hacc; simpl in H.
  - now injection H as <-.
  - destruct (confirm_row src_face_list mesh_face_list j row acc) as [acc1|e] eqn:Hr;
      [|discriminate].
    simpl in H. apply (IH (S j) acc1 H).
    exact (confirm_row_confirmed _ _ _ _ _ _ Hrow Hr Hacc).
Qed.

(** Every pair the function reports is backed by a reference of the named
    group that resolves to an element which is the same geometry as the
    face of the entry. *)
Lemma matchFaces_pairs (doc : Document) (ref_lists : list (list Ref)) (shape : Shape)
    (result : list (list (nat * Ref))) :
  matchFacesToTargetShape doc ref_lists shape = Returned result ->
  forall k entry nb br, result !! k = Some entry -> (nb, br) ∈ entry ->
    exists rl bf face,
      ref_lists !! nb = Some rl /\ br ∈ rl /\ resolve doc br = Returned bf
      /\ Faces shape !! k = Some face /\ isSameGeometry bf face = Some true.
Proof.
  unfold matchFacesToTargetShape. intros H.
  destruct (resolve_groups doc 0 ref_lists []) as [src0|e] eqn:Hres; [|discriminate].
  simpl in H.
  set (src := sort_by_CenterOfMass (fun bf : SrcFace => bf.1.1) src0) in *.
  set (mesh := sort_by_CenterOfMass (fun mf : MeshFace => mf.1)
                 (zip (Faces shape) (seq 0 (length (Faces shape))))) in *.
  destruct (sweep src mesh) as [st|e] eqn:Hsweep; [|discriminate]. simpl in H.
  assert (Hfrom : candidates_from src (Sweep.candidate_mesh_faces st)).
  { unfold sweep in Hsweep. apply (sweep_loop_from _ _ _ _ _ Hsweep).
    unfold sweep_init, candidates_from. simpl.
    apply Forall_fmap, Forall_forall. intros mf _. constructor. }
  assert (Hconf : entries_confirmed src mesh result).
  { apply (confirm_rows_confirmed _ _ _ _ _ _ Hfrom H).
    intros k entry pair Hk Hp. rewrite list_lookup_fmap in Hk.
    destruct (mesh !! k); [|discriminate]. injection Hk as <-. inversion Hp. }
  intros k entry nb br Hk Hp.
  destruct (Hconf k entry (nb, br) Hk Hp) as (bf & mf & Hsrc & Hmesh & Hsame).
  simpl in Hsrc.
  unfold src in Hsrc. rewrite sort_by_CenterOfMass_perm in Hsrc.
  unfold mesh in Hmesh. rewrite sort_by_CenterOfMass_perm in Hmesh.
  destruct (resolve_groups_items _ _ _ _ _ Hres _ Hsrc)
    as [Hnil | (rl & _ & Hlook & Hmem & Hbf)]; [inversion Hnil|].
  simpl in Hlook, Hmem, Hbf. rewrite Nat.sub_0_r in Hlook.
  apply list_elem_of_lookup in Hmesh as [p Hp'].
  rewrite lookup_zip_with in Hp'.
  destruct (Faces shape !! p) as [f|] eqn:Hf; [|discriminate]. simpl in Hp'.
  destruct (seq 0 (length (Faces shape)) !! p) as [q|] eqn:Hq; [|discriminate].
  injection Hp' as -> ->.
  apply lookup_seq in Hq as [-> _]. simpl in Hf.
  exists rl, bf, mf. auto.
Qed.

(** X1: every pair (group, reference) in the entry of face k of a returned
    result names a reference that is listed in that group, resolves, and
    resolves to an element that [isSameGeometry] accepts for face k. *)
Theorem matchFaces_sound (doc : Document) (ref_lists : list (list Ref)) (shape : Shape)
    (result : list (list (nat * Ref))) :
  matchFacesToTargetShape doc ref_lists shape = Returned result ->
  forall k entry nb br, result !! k = Some entry -> (nb, br) ∈ entry ->
    exists rl bf face,
      ref_lists !! nb = Some rl /\ br ∈ rl /\ resolve doc br = Returned bf
      /\ Faces shape !! k = Some face /\ isSameGeometry bf face = Some true.
Proof. apply matchFaces_pairs. Qed.

Lemma matchFaces_sound_witness :
  exists rl bf face,
    [[("Strip", "Face1")]; [("Strip", "Face3")]]%string !! 1%nat = Some rl
    /\ ("Strip", "Face3")%string ∈ rl
    /\ resolve Sample.doc ("Strip", "Face3")%string = Returned bf
    /\ Faces Sample.strip !! 2%nat = Some face /\ isSameGeometry bf face = Some true.
Proof.
  apply (matchFaces_sound Sample.doc
           [[("Strip", "Face1")]; [("Strip", "Face3")]]%string Sample.strip
           [[(0%nat, ("Strip", "Face1")%string)]; [];
            [(1%nat, ("Strip", "Face3")%string)]]
           ltac:(vm_compute; reflexivity)
           2%nat [(1%nat, ("Strip", "Face3")%string)] 1%nat ("Strip", "Face3")%string).
  - reflexivity.
  - constructor.
Defined.

(** X2: the call returns exactly when every reference of every group
    resolves, and it then returns one entry per face of the target shape. *)
Theorem matchFaces_returns_iff (doc : Document) (ref_lists : list (list Ref))
    (shape : Shape) :
  (Forall (Forall (resolves doc)) ref_lists
   <-> exists result, matchFacesToTargetShape doc ref_lists shape = Returned result)
  /\ (forall result, matchFacesToTargetShape doc ref_lists shape = Returned result ->
                     length result = length (Faces shape)).
Proof.
  split.
  - split.
    + intros Hall.
      destruct (matchFacesToTargetShape_returns doc ref_lists shape Hall)
        as (result & H & _). eauto.
    + intros [result H]. unfold matchFacesToTargetShape in H.
      destruct (resolve_groups doc 0 ref_lists []) as [src|e] eqn:Hres; [|discriminate].
      exact (resolve_groups_Returned _ _ _ _ _ Hres).
  - intros result H.
    assert (Hall : Forall (Forall (resolves doc)) ref_lists).
    { unfold matchFacesToTargetShape in H.
      destruct (resolve_groups doc 0 ref_lists []) as [src|e] eqn:Hres; [|discriminate].
      exact (resolve_groups_Returned _ _ _ _ _ Hres). }
    destruct (matchFacesToTargetShape_returns doc ref_lists shape Hall)
      as (result' & H' & Hlen). congruence.
Qed.

(** X3: when every reference resolves and no resolved element is the same
    geometry as any face of the target shape, every entry of the result is
    empty: a shared centre of mass alone never produces a pair. *)
Theorem matchFaces_no_false_positive (doc : Document) (ref_lists : list (list Ref))
    (shape : Shape) :
  Forall (Forall (resolves doc)) ref_lists ->
  (forall rl br bf face,
      rl ∈ ref_lists -> br ∈ rl -> resolve doc br = Returned bf ->
      face ∈ Faces shape -> isSameGeometry bf face <> Some true) ->
  matchFacesToTargetShape doc ref_lists shape
  = Returned (replicate (length (Faces shape)) []).
Proof.
  intros Hall Hnone.
  destruct (matchFacesToTargetShape_returns doc ref_lists shape Hall)
    as (result & H & Hlen).
  rewrite H. f_equal. symmetry. apply replicate_as_Forall. split; [assumption|].
  apply Forall_forall. intros entry Hentry.
  apply list_elem_of_lookup in Hentry as [k Hk].
  destruct entry as [|[nb br] entry]; [reflexivity|]. exfalso.
  destruct (matchFaces_pairs _ _ _ _ H k _ nb br Hk)
    as (rl & bf & face & Hrl & Hbr & Hres & Hface & Hsame); [left|].
  apply (Hnone rl br bf face); try assumption.
  - apply list_elem_of_lookup. eauto.
  - apply list_elem_of_lookup. eauto.
Qed.

Lemma matchFaces_no_false_positive_witness :
  matchFacesToTargetShape Sample.doc
    [[("Strip", "Face2")]; [("Strip", "Face3")]]%string Sample.single
  = Returned (replicate (length (Faces Sample.single)) []).
Proof.
  apply (matchFaces_no_false_positive Sample.doc
           [[("Strip", "Face2")]; [("Strip", "Face3")]]%string Sample.single).
  - repeat constructor; eexists; vm_compute; reflexivity.
  - intros rl br bf face Hrl Hbr Hres Hface.
    apply list_elem_of_singleton in Hface as ->.
    apply elem_of_cons in Hrl as [-> | Hrl];
      [|apply list_elem_of_singleton in Hrl as ->];
      apply list_elem_of_singleton in Hbr as ->;
      vm_compute in Hres; injection Hres as <-; vm_compute; discriminate.
Defined.

(** ** No pair is reported twice *)

Lemma sweep_body_distinct (st st' : Sweep.State) (src_i : SrcFace) (mesh_j : MeshFace) :
  sweep_body src_i mesh_j st = Returned st' ->
  rows_distinct (Sweep.i st) (Sweep.j st) (Sweep.candidate_mesh_faces st) ->
  rows_distinct (Sweep.i st') (Sweep.j st') (Sweep.candidate_mesh_faces st').
Proof.
  intros Hbody Hinv. unfold sweep_body in Hbody.
  destruct (CofM_cmp src_i.1.1 mesh_j.1 =? 0)%Z.
  - unfold append_at in Hbody.
    destruct (Sweep.candidate_mesh_faces st !! Sweep.j st) as [row0|] eqn:Hrow;
      [|discriminate].
    injection Hbody as <-. simpl. intros j' row Hj'.
    destruct (decide (j' = Sweep.j st)) as [->|Hne].
    + rewrite list_lookup_insert_eq in Hj' by (eapply lookup_lt_Some; exact Hrow).
      injection Hj' as <-. destruct (Hinv _ _ Hrow) as [Hnd Hall].
      rewrite Forall_forall in Hall. split.
      * rewrite map_app. apply NoDup_app. split; [assumption|]. split.
        -- intros n Hn Hn'. simpl in Hn'. apply list_elem_of_singleton in Hn' as ->.
           apply list_elem_of_fmap in Hn as (c & Hc & Hin).
           destruct (Hall c Hin) as [Hlt | [_ Hlt]]; lia.
        -- simpl. apply NoDup_singleton.
      * apply Forall_app. split.
        -- apply Forall_forall. intros c Hc. destruct (Hall c Hc) as [Hlt | [_ Hlt]];
             [now left | lia].
        -- apply Forall_singleton. simpl. right. lia.
    + rewrite list_lookup_insert_ne in Hj' by congruence.
      destruct (Hinv _ _ Hj') as [Hnd Hall]. split; [assumption|].
      eapply Forall_impl; [exact Hall|]. intros c [Hc | [Hc Hlt]]; [now left | right; lia].
  - destruct (CofM_cmp src_i.1.1 mesh_j.1 <? 0)%Z; injection Hbody as <-; simpl;
      intros j' row Hj'; destruct (Hinv _ _ Hj') as [Hnd Hall]; (split; [assumption|]);
      (eapply Forall_impl; [exact Hall|]); intros c [Hc | [Hc Hlt]];
      try (left; lia); try (right; lia).
Qed.

Lemma sweep_loop_distinct (src_face_list : list SrcFace) (mesh_face_list : list MeshFace)
    (fuel : nat) (st st' : Sweep.State) :
  sweep_loop fuel src_face_list mesh_face_list st = Returned st' ->
  rows_distinct (Sweep.i st) (Sweep.j st) (Sweep.candidate_mesh_faces st) ->
  rows_distinct (Sweep.i st') (Sweep.j st') (Sweep.candidate_mesh_faces st').
Proof.
  revert st. induction fuel as [|fuel IH]; intros st Hloop Hinv; simpl in Hloop.
  - now injection Hloop as <-.
  - destruct (src_face_list !! Sweep.i st) as [src_i|] eqn:Hi;
      [|now injection Hloop as <-].
    destruct (mesh_face_list !! Sweep.j st) as [mesh_j|] eqn:Hj;
      [|now injection Hloop as <-].
    destruct (sweep_body src_i mesh_j st) as [st1|e] eqn:Hbody; [|discriminate].
    simpl in Hloop. apply (IH st1 Hloop).
    exact (sweep_body_distinct _ _ _ _ Hbody Hinv).
Qed.

Lemma alter_alter {A : Type} (f g : A -> A) (k : nat) (l : list A) :
  alter f k (alter g k l) = alter (fun a => f (g a)) k l.
Proof.
  apply list_eq. intros m. destruct (decide (k = m)) as [<-|Hne].
  - rewrite !list_lookup_alter_eq. now destruct (l !! k).
  - now rewrite !list_lookup_alter_ne.
Qed.

Lemma confirm_row_alter (src_face_list : list SrcFace) (mesh_face_list : list MeshFace)
    (j : nat) (row : list Candidate) (acc acc' : list (list (nat * Ref)))
    (mf : Element) (k0 : nat) :
  mesh_face_list !! j = Some (mf, k0) ->
  confirm_row src_face_list mesh_face_list j row acc = Returned acc' ->
  exists cs, cs `sublist_of` row
             /\ acc' = alter (fun e => e ++ map pair_of cs) k0 acc.
Proof.
  intros Hj. revert acc. induction row as [|[[i nb] bref] row IH]; intros acc H;
    simpl in H.
  - injection H as <-. exists []. split; [constructor|].
    symmetry. apply list_alter_id. intros e. apply app_nil_r.
  - unfold index_ in H.
    destruct (src_face_list !! i) as [src_i|]; [|discriminate]. simpl in H.
    rewrite Hj in H. simpl in H.
    destruct (truthy (isSameGeometry src_i.1.1 mf)).
    + unfold append_at in H. destruct (acc !! k0) as [l|] eqn:Hl; [|discriminate].
      simpl in H. destruct (IH _ H) as (cs & Hsub & ->).
      exists ((i, nb, bref) :: cs). split; [now constructor|].
      replace (<[k0:=l ++ [(nb, bref)]]> acc)
        with (alter (fun e => e ++ [(nb, bref)]) k0 acc).
      * rewrite alter_alter. apply list_alter_ext; [|reflexivity..].
        intros e _. simpl. now rewrite <- app_assoc.
      * apply list_eq. intros m. rewrite list_lookup_alter.
        destruct (decide (k0 = m)) as [<-|Hne].
        -- rewrite list_lookup_insert_eq by (eapply lookup_lt_Some; exact Hl).
           now rewrite Hl.
        -- now rewrite list_lookup_insert_ne.
    + simpl in H. destruct (IH _ H) as (cs & Hsub & ->).
      exists cs. split; [now constructor | reflexivity].
Qed.

Lemma confirm_rows_from_rows (src_face_list : list SrcFace) (mesh_face_list : list MeshFace)
    (all_rows rest : list (list Candidate)) (j : nat)
    (acc acc' : list (list (nat * Ref))) :
  NoDup (map snd mesh_face_list) ->
  length all_rows = length mesh_face_list ->
  drop j all_rows = rest ->
  confirm_rows src_face_list mesh_face_list j rest acc = Returned acc' ->
  entries_from_rows mesh_face_list all_rows j acc ->
  entries_from_rows mesh_face_list all_rows (length all_rows) acc'.
Proof.
  intros Hnd Hlen. revert j acc.
  induction rest as [|row rest IH]; intros j acc Hdrop H Hinv; simpl in H.
  - injection H as <-.
    assert (Hj : (length all_rows <= j)%nat).
    { destruct (decide (length all_rows <= j)%nat) as [|Hn]; [assumption|].
      assert (Hl : length (drop j all_rows) = 0%nat) by now rewrite Hdrop.
      rewrite length_drop in Hl. lia. }
    intros k e Hk. destruct (Hinv k e Hk) as [-> | (j' & row & cs & mf & Hj' & Hm & Hr & Hs & ->)];
      [now left|].
    right. exists j', row, cs, mf. repeat split; try assumption.
    apply lookup_lt_Some in Hr. lia.
  - assert (Hrow : all_rows !! j = Some row).
    { rewrite <- (Nat.add_0_r j), <- lookup_drop, Hdrop. reflexivity. }
    assert (Hrest : drop (S j) all_rows = rest).
    { rewrite (drop_S all_rows row j Hrow) in Hdrop. congruence. }
    destruct (confirm_row src_face_list mesh_face_list j row acc) as [acc1|e] eqn:Hr;
      [|discriminate].
    simpl in H.
    destruct (lookup_lt_is_Some_2 mesh_face_list j) as [[mf k0] Hm].
    { rewrite <- Hlen. exact (lookup_lt_Some _ _ _ Hrow). }
    destruct (confirm_row_alter _ _ _ _ _ _ mf k0 Hm Hr) as (cs & Hsub & ->).
    apply (IH (S j) _ Hrest H).
    intros k e Hk. rewrite list_lookup_alter in Hk.
    destruct (decide (k0 = k)) as [<-|Hne].
    + destruct (acc !! k0) as [e0|] eqn:He0; [|discriminate].
      injection Hk as <-.
      assert (e0 = []) as ->.
      { destruct (Hinv k0 e0 He0)
          as [-> | (j' & row' & cs' & mf' & Hj' & Hm' & _)]; [reflexivity|].
        exfalso. pose proof (proj1 (NoDup_alt _) Hnd) as Hinj.
        assert (j' = j); [|lia].
        apply (Hinj j' j k0); rewrite list_lookup_fmap.
        - now rewrite Hm'.
        - now rewrite Hm. }
      right. exists j, row, cs, mf. repeat split; try assumption. lia.
    + destruct (Hinv k e Hk) as [-> | (j' & row' & cs' & mf' & Hj' & Hm' & Hr' & Hs' & ->)];
        [now left|].
      right. exists j', row', cs', mf'. repeat split; try assumption. lia.
Qed.

Lemma resolve_group_tags (doc : Document) (i : nat) (rl : list Ref)
    (acc src : list SrcFace) :
  resolve_group doc i rl acc = Returned src ->
  map (fun it : SrcFace => (it.1.2, it.2)) src
  = map (fun it : SrcFace => (it.1.2, it.2)) acc ++ map (pair i) rl.
Proof.
  revert acc. induction rl as [|br rl IH]; intros acc H; simpl in H.
  - injection H as <-. simpl. now rewrite app_nil_r.
  - destruct (resolve doc br) as [bf|e]; [|discriminate]. simpl in H.
    rewrite (IH _ H), map_app. simpl. now rewrite <- app_assoc.
Qed.

Lemma resolve_groups_tags (doc : Document) (i0 : nat) (ref_lists : list (list Ref))
    (acc src : list SrcFace) :
  resolve_groups doc i0 ref_lists acc = Returned src ->
  map (fun it : SrcFace => (it.1.2, it.2)) src
  = map (fun it : SrcFace => (it.1.2, it.2)) acc ++ tagged_refs i0 ref_lists.
Proof.
  revert i0 acc. induction ref_lists as [|rl rest IH]; intros i0 acc H; simpl in H.
  - injection H as <-. unfold tagged_refs. simpl. now rewrite app_nil_r.
  - destruct (resolve_group doc i0 rl acc) as [acc1|e] eqn:Hrl; [|discriminate].
    simpl in H. rewrite (IH _ _ H), (resolve_group_tags _ _ _ _ _ Hrl).
    unfold tagged_refs. rewrite imap_cons. simpl.
    rewrite Nat.add_0_r, <- app_assoc. do 3 f_equal.
    apply imap_ext. intros k x _. simpl. do 2 f_equal. lia.
Qed.

(** X4: when no group lists the same reference twice, no entry of a
    returned result holds the same (group, reference) pair twice. *)
Theorem matchFaces_no_duplicate (doc : Document) (ref_lists : list (list Ref))
    (shape : Shape) (result : list (list (nat * Ref))) :
  NoDup (tagged_refs 0 ref_lists) ->
  matchFacesToTargetShape doc ref_lists shape = Returned result ->
  Forall NoDup result.
Proof.
  intros Htags H. unfold matchFacesToTargetShape in H.
  destruct (resolve_groups doc 0 ref_lists []) as [src0|e] eqn:Hres; [|discriminate].
  simpl in H.
  set (src := sort_by_CenterOfMass (fun bf : SrcFace => bf.1.1) src0) in *.
  set (mesh := sort_by_CenterOfMass (fun mf : MeshFace => mf.1)
                 (zip (Faces shape) (seq 0 (length (Faces shape))))) in *.
  destruct (sweep src mesh) as [st|e] eqn:Hsweep; [|discriminate]. simpl in H.
  set (rows := Sweep.candidate_mesh_faces st) in *.
  assert (Hsrc : NoDup (map (fun it : SrcFace => (it.1.2, it.2)) src)).
  { unfold src. rewrite sort_by_CenterOfMass_perm.
    rewrite (resolve_groups_tags _ _ _ _ _ Hres). exact Htags. }
  assert (Hmesh : NoDup (map snd mesh)).
  { unfold mesh. rewrite sort_by_CenterOfMass_perm.
    rewrite snd_zip by (rewrite length_seq; lia). apply NoDup_seq. }
  assert (Hfrom : candidates_from src rows).
  { unfold sweep in Hsweep. apply (sweep_loop_from _ _ _ _ _ Hsweep).
    unfold sweep_init, candidates_from. simpl.
    apply Forall_fmap, Forall_forall. intros mf _. constructor. }
  assert (Hdist : rows_distinct (Sweep.i st) (Sweep.j st) rows).
  { unfold sweep in Hsweep. apply (sweep_loop_distinct _ _ _ _ _ Hsweep).
    unfold sweep_init. simpl. intros j' row Hj'. rewrite list_lookup_fmap in Hj'.
    destruct (mesh !! j'); [|discriminate]. injection Hj' as <-.
    split; constructor. }
  assert (Hlen : length rows = length mesh).
  { unfold sweep in Hsweep.
    apply (sweep_loop_in_range src mesh _ _ _ Hsweep).
    unfold sweep_init. simpl. split; [apply length_map|].
    apply Forall_fmap, Forall_forall. intros mf _. constructor. }
  assert (Hent : entries_from_rows mesh rows (length rows) result).
  { apply (confirm_rows_from_rows src mesh rows rows 0 _ _ Hmesh Hlen eq_refl H).
    intros k e Hk. left. rewrite list_lookup_fmap in Hk.
    destruct (mesh !! k); [|discriminate]. now injection Hk as <-. }
  apply Forall_forall. intros e He. apply list_elem_of_lookup in He as [k Hk].
  destruct (Hent k e Hk) as [-> | (j' & row & cs & mf & _ & _ & Hrow & Hsub & ->)];
    [constructor|].
  destruct (Hdist _ _ Hrow) as [Hnd _].
  assert (Hrowfrom : Forall (fun c : Candidate =>
            exists bf, src !! c.1.1 = Some (bf, c.1.2, c.2)) row).
  { unfold candidates_from in Hfrom. rewrite Forall_forall in Hfrom.
    apply Hfrom, list_elem_of_lookup. eauto. }
  rewrite Forall_forall in Hrowfrom.
  apply NoDup_fmap_2_strong.
  - intros c c' Hc Hc' Heq.
    assert (Hcr : c ∈ row) by (eapply elem_of_sublist; eauto).
    assert (Hcr' : c' ∈ row) by (eapply elem_of_sublist; eauto).
    destruct (Hrowfrom c Hcr) as [bf Hbf]. destruct (Hrowfrom c' Hcr') as [bf' Hbf'].
    destruct c as [[i nb] br], c' as [[i' nb'] br']. unfold pair_of in Heq.
    simpl in *. injection Heq as -> ->.
    pose proof (proj1 (NoDup_alt _) Hsrc) as Hinj.
    assert (i = i'); [|congruence].
    apply (Hinj i i' (nb', br')); rewrite list_lookup_fmap.
    + now rewrite Hbf.
    + now rewrite Hbf'.
  - eapply sublist_NoDup; [|exact Hsub]. eapply NoDup_fmap_1. exact Hnd.
Qed.

Lemma matchFaces_no_duplicate_witness :
  Forall NoDup
    [[(0%nat, ("Strip", "Face1")%string)]; []; [(1%nat, ("Strip", "Face3")%string)]].
Proof.
  apply (matchFaces_no_duplicate Sample.doc
           [[("Strip", "Face1")]; [("Strip", "Face3")]]%string Sample.strip).
  - apply (bool_decide_unpack _). vm_compute. reflexivity.
  - vm_compute. reflexivity.
Defined.

(** ** [floatEqual] on every binary64 value *)

(** X5: the tolerant comparison does not depend on the order of its
    arguments, for all floats, infinities and NaNs included. *)
Theorem floatEqual_symmetric (a b : float) : floatEqual a b = floatEqual b a.
Proof. apply floatEqual_sym. Qed.

(** X6: a value is tolerantly equal to itself exactly when it is finite: an
    infinity or a NaN is not equal to itself. *)
Theorem floatEqual_self (a : float) : floatEqual a a = finite a.
Proof.
  destruct (finite a) eqn:Ha.
  - now apply floatEqual_refl.
  - destruct a as [s|s| |s m e]; try discriminate.
    + destruct s; vm_compute; reflexivity.
    + reflexivity.
Qed.

(** X7: an infinity is tolerantly equal to every float except a NaN and the
    infinity of its own sign; in particular to every finite number. *)
Theorem floatEqual_infinity (s : bool) (b : float) :
  floatEqual (S754_infinity s) b
  = match b with
    | S754_nan => false
    | S754_infinity s' => negb (eqb s s')
    | _ => true
    end.
Proof.
  destruct b as [sb|sb| |sb mb eb], s; try destruct sb; vm_compute; reflexivity.
Qed.

(** ** [isSameGeometry] on reordered and on degenerate elements *)

(** X8: an element with at least one vertex and finite data is the same
    geometry as any element that has its centre of mass, its area and its
    vertices in another order. *)
Theorem isSameGeometry_permuted (e e' : Element) :
  Vertexes e <> [] -> finite_element e = true -> vertex_permuted e e' ->
  isSameGeometry e e' = Some true.
Proof. apply isSameGeometry_vertex_permuted. Qed.

Lemma isSameGeometry_permuted_witness :
  isSameGeometry (Sample.quad 0 4) (Sample.quad_permuted 0 4) = Some true.
Proof.
  apply (isSameGeometry_permuted (Sample.quad 0 4) (Sample.quad_permuted 0 4)).
  - discriminate.
  - vm_compute. reflexivity.
  - repeat split. simpl.
    etransitivity; [apply perm_swap|]. apply perm_skip.
    etransitivity; [apply perm_skip, perm_swap|]. apply perm_swap.
Defined.

(** X9: when a coordinate of the centre of mass or the area of either
    element is a NaN, the answer is never [True]. *)
Theorem isSameGeometry_nan (e1 e2 : Element) :
  has_nan e1 || has_nan e2 = true -> isSameGeometry e1 e2 <> Some true.
Proof.
  intros Hnan Hsame. unfold isSameGeometry in Hsame.
  destruct ((length (Vertexes e1) =? length (Vertexes e2))%nat
            && (0 <? length (Vertexes e1))%nat); [|discriminate].
  destruct (floatEqual (x (CenterOfMass e1)) (x (CenterOfMass e2))) eqn:Hx;
    [|discriminate].
  destruct (floatEqual (y (CenterOfMass e1)) (y (CenterOfMass e2))) eqn:Hy;
    [|discriminate].
  destruct (floatEqual (z (CenterOfMass e1)) (z (CenterOfMass e2))) eqn:Hz;
    [|discriminate].
  destruct (floatEqual (Area e1) (Area e2)) eqn:Ha; [|discriminate].
  unfold has_nan in Hnan. rewrite !orb_true_iff in Hnan.
  destruct Hnan as [[[[H|H]|H]|H] | [[[H|H]|H]|H]];
    first [ rewrite (floatEqual_nan_l _ _ H) in Hx
          | rewrite (floatEqual_nan_l _ _ H) in Hy
          | rewrite (floatEqual_nan_l _ _ H) in Hz
          | rewrite (floatEqual_nan_l _ _ H) in Ha
          | rewrite (floatEqual_nan_r _ _ H) in Hx
          | rewrite (floatEqual_nan_r _ _ H) in Hy
          | rewrite (floatEqual_nan_r _ _ H) in Hz
          | rewrite (floatEqual_nan_r _ _ H) in Ha ]; discriminate.
Qed.

Lemma isSameGeometry_nan_witness :
  isSameGeometry nan_area_quad nan_area_quad <> Some true.
Proof.
  apply (isSameGeometry_nan nan_area_quad nan_area_quad). vm_compute. reflexivity.
Defined.

(** ** [findElementInShape] for every element type *)

Lemma scan_elements_first (l : list Element) (anElement : Element) (start : nat) :
  match scan_elements l anElement start with
  | Some index => exists j, index = (start + j)%nat /\ first_same_geometry l anElement j
  | None => forall j e, l !! j = Some e -> isSameGeometry e anElement <> Some true
  end.
Proof.
  revert start. induction l as [|a l IH]; intros start; simpl.
  - intros j e H. discriminate.
  - destruct (truthy (isSameGeometry a anElement)) eqn:Ha.
    + exists 0%nat. split; [lia|]. split.
      * exists a. split; [reflexivity | now apply truthy_true].
      * intros j e Hj. lia.
    + specialize (IH (S start)).
      destruct (scan_elements l anElement (S start)) as [index|].
      * destruct IH as (j & -> & (e & Hj & He) & Hmin).
        exists (S j). split; [lia|]. split; [now exists e|].
        intros [|j'] e' Hlt Hl; simpl in Hl.
        -- injection Hl as <-. intros Hc. rewrite Hc in Ha. discriminate.
        -- apply (Hmin j' e'); [lia | assumption].
      * intros [|j] e Hl; simpl in Hl.
        -- injection Hl as <-. intros Hc. rewrite Hc in Ha. discriminate.
        -- exact (IH j e Hl).
Qed.

Lemma first_same_geometry_unique (l : list Element) (anElement : Element) (j j' : nat) :
  first_same_geometry l anElement j -> first_same_geometry l anElement j' -> j = j'.
Proof.
  intros [(e & He & Hs) Hmin] [(e' & He' & Hs') Hmin'].
  destruct (Nat.lt_trichotomy j j') as [Hlt | [-> | Hlt]]; [|reflexivity|].
  - exfalso. exact (Hmin' j e Hlt He Hs).
  - exfalso. exact (Hmin j' e' Hlt He' Hs').
Qed.

Lemma findElementInShape_scan (aShape : Shape) (anElement : Element) :
  (findElementInShape aShape anElement).1
  = element_name (ShapeType anElement)
    <$> scan_elements (searched aShape (ShapeType anElement)) anElement 0.
Proof.
  unfold findElementInShape, searched.
  destruct (ShapeType anElement); simpl;
    try match goal with |- context [scan_elements ?l ?e 0] =>
          destruct (scan_elements l e 0) end; reflexivity.
Qed.

(** X10: for a candidate of any type, the function returns a name exactly
    when some sub-element of the list searched for that type is the same
    geometry as the candidate; the name is then the candidate's own type
    followed by the 1-based position of the first such sub-element. *)
Theorem findElementInShape_first (aShape : Shape) (anElement : Element) (ele : string) :
  (findElementInShape aShape anElement).1 = Some ele
  <-> exists index,
        first_same_geometry (searched aShape (ShapeType anElement)) anElement index
        /\ ele = String.append (ShapeType_str (ShapeType anElement)) (str (index + 1)).
Proof.
  rewrite findElementInShape_scan.
  pose proof (scan_elements_first (searched aShape (ShapeType anElement)) anElement 0) as H.
  destruct (scan_elements (searched aShape (ShapeType anElement)) anElement 0)
    as [index|]; simpl.
  - destruct H as (j & -> & Hfirst). simpl. split.
    + intros [= <-]. exists j. split; [assumption | reflexivity].
    + intros (j' & Hfirst' & ->).
      now rewrite (first_same_geometry_unique _ _ _ _ Hfirst Hfirst').
  - split; [discriminate|].
    intros (j & [(e & He & Hs) _] & _). exfalso. exact (H j e He Hs).
Qed.

(** X11: the function writes to the console exactly when it returns no name
    for a Solid, CompSolid or Compound candidate; a name never comes with
    output, and a Face, Shell, Edge, Wire or Vertex that is not found is
    passed over in silence. *)
Theorem findElementInShape_console (aShape : Shape) (anElement : Element) :
  (findElementInShape aShape anElement).2 <> []
  <-> (findElementInShape aShape anElement).1 = None
      /\ (ShapeType anElement = Solid \/ ShapeType anElement = CompSolid
          \/ ShapeType anElement = Compound).
Proof.
  unfold findElementInShape.
  destruct (ShapeType anElement); simpl;
    try match goal with |- context [scan_elements ?l ?e 0] =>
          destruct (scan_elements l e 0) end; simpl;
    split; try (intros H; exfalso; now apply H); try discriminate;
    try (intros [H _]; discriminate);
    try (intros [_ [H | [H | H]]]; discriminate);
    intros _; split; auto.
Qed.

(** ** Element names *)

Lemma to_uint_not_Nil (n : nat) : Nat.to_uint n <> Decimal.Nil.
Proof.
  rewrite <- (DecimalNat.Unsigned.of_to n) at 1.
  rewrite DecimalNat.Unsigned.to_of. unfold Decimal.unorm.
  destruct (Decimal.nzhead (Nat.to_uint n)); discriminate.
Qed.

Lemma str_inj (n m : nat) : str n = str m -> n = m.
Proof.
  unfold str. intros H. apply DecimalNat.Unsigned.to_uint_inj.
  pose proof (NilZero.usu _ (to_uint_not_Nil n)) as Hn.
  pose proof (NilZero.usu _ (to_uint_not_Nil m)) as Hm.
  rewrite H in Hn. congruence.
Qed.

(** [str] starts with a decimal digit. *)
Lemma str_digit (n : nat) :
  exists c s, str n = String c s /\ (48 <= Ascii.nat_of_ascii c <= 57)%nat.
Proof.
  unfold str. pose proof (to_uint_not_Nil n) as Hn.
  destruct (Nat.to_uint n); [congruence|..]; simpl; eexists _, _;
    (split; [reflexivity | vm_compute; split; repeat constructor]).
Qed.

Lemma append_inj_l (s t t' : string) : String.append s t = String.append s t' -> t = t'.
Proof. induction s as [|a s IH]; simpl; intros H; [assumption|]. injection H. exact IH. Qed.

(** X12: the names [ele_st + str(index + 1)] tell elements apart: two names
    are equal only for the same element type and the same index. *)
Theorem element_name_inj (ele_st ele_st' : ShapeTypeName) (index index' : nat) :
  element_name ele_st index = element_name ele_st' index' <->
  ele_st = ele_st' /\ index = index'.
Proof.
  split; [|now intros [-> ->]].
  unfold element_name. intros H.
  assert (Hst : ele_st = ele_st')
    by (destruct ele_st, ele_st'; try reflexivity; exfalso; cbn in H;
        repeat (injection H as _ H); discriminate H).
  subst ele_st'. split; [reflexivity|].
  apply append_inj_l, str_inj in H. lia.
Qed.

(** * Mesh set-up *)

(** The literals are the correctly rounded quotients of their decimal
    numerators and denominators. *)
Lemma literals_nearest :
  lit_1_0 = of_int 1 /\ lit_1_2 = div (of_int 12) (of_int 10)
  /\ lit_0_01 = div (of_int 1) (of_int 100)
  /\ lit_0_001 = div (of_int 1) (of_int 1000).
Proof. vm_compute. repeat split. Qed.

Lemma lt_le (a b : float) : lt a b = true -> le a b = true.
Proof. unfold lt, le, SFltb, SFleb. now destruct (SFcompare a b) as [[]|]. Qed.


Lemma SFcompare_Eq_positive (a : float) (m : positive) (e : Z) :
  SFcompare a (S754_finite false m e) = Some Eq -> a = S754_finite false m e.
Proof.
  destruct a as [sa|sa| |sa ma ea]; simpl; try destruct sa; try discriminate.
  destruct (ea ?= e)%Z eqn:He; try discriminate.
  apply Z.compare_eq in He. intros [= H]. apply Pos.compare_eq in H. congruence.
Qed.

Lemma le_not_lt_positive (a : float) (m : positive) (e : Z) :
  le a (S754_finite false m e) = true -> lt a (S754_finite false m e) = false ->
  a = S754_finite false m e.
Proof.
  unfold le, lt, SFleb, SFltb. intros Hle Hlt. apply SFcompare_Eq_positive.
  now destruct (SFcompare a (S754_finite false m e)) as [[]|].
Qed.

Lemma positive_le_not_lt (a : float) (m : positive) (e : Z) :
  le (S754_finite false m e) a = true -> lt (S754_finite false m e) a = false ->
  a = S754_finite false m e.
Proof.
  unfold le, lt, SFleb, SFltb. intros Hle Hlt. apply SFcompare_Eq_positive.
  rewrite (SFcompare_antisym (S754_finite false m e) a).
  now destruct (SFcompare (S754_finite false m e) a) as [[]|].
Qed.


(** X13: whatever the expansion ratio of the refinement, a NaN or an
    infinity included, the value written to the boundary-layer settings lies
    between 1.0 and 1.2, and it is the given ratio exactly when that one
    lies between 1.0 and 1.2. *)
Theorem limit_expratio_range (expratio : float) :
  le lit_1_0 (limit_expratio expratio) = true
  /\ le (limit_expratio expratio) lit_1_2 = true
  /\ (limit_expratio expratio = expratio
      <-> le lit_1_0 expratio = true /\ le expratio lit_1_2 = true).
Proof.
  unfold limit_expratio, min, max, gt.
  change (SFltb lit_1_0 expratio) with (lt lit_1_0 expratio).
  destruct (lt lit_1_0 expratio) eqn:H1.
  - destruct (lt expratio lit_1_2) eqn:H2.
    + split; [|split; [|split]]; auto using lt_le.
    + split; [|split; [|split]]; try reflexivity.
      * intros <-. split; reflexivity.
      * intros [_ Hle]. symmetry. now apply le_not_lt_positive.
  - change (lt lit_1_0 lit_1_2) with true. simpl.
    split; [|split; [|split]]; try reflexivity.
    + intros <-. split; reflexivity.
    + intros [Hle _]. symmetry. now apply positive_le_not_lt.
Qed.



(** ** Face names *)

Lemma face_name_inj (i j : nat) : face_name i = face_name j -> i = j.
Proof. unfold face_name. intros H. now apply append_inj_l, str_inj in H. Qed.

Lemma lookup_shape_face_names (faces : list Element) (i : nat) :
  shape_face_names faces !! i
  = if decide (i < length faces)%nat then Some (face_name i) else None.
Proof.
  unfold shape_face_names. rewrite list_lookup_imap.
  destruct (decide (i < length faces)%nat) as [Hlt|Hge].
  - destruct (lookup_lt_is_Some_2 faces i Hlt) as [f ->]. reflexivity.
  - rewrite lookup_ge_None_2 by lia. reflexivity.
Qed.

(** X15: [ShapeFaceNames] holds one name per face of the shape, the name at
    position i is "face" followed by i in decimal, and no two positions hold
    the same name. *)
Theorem shape_face_names_distinct (faces : list Element) :
  length (shape_face_names faces) = length faces
  /\ (forall i, shape_face_names faces !! i
                = if decide (i < length faces)%nat
                  then Some (String.append "face" (str i)) else None)
  /\ NoDup (shape_face_names faces).
Proof.
  split; [|split].
  - unfold shape_face_names. apply length_imap.
  - apply lookup_shape_face_names.
  - apply NoDup_alt. intros i j name Hi Hj.
    rewrite lookup_shape_face_names in Hi, Hj.
    destruct (decide (i < length faces)%nat); [|discriminate].
    destruct (decide (j < length faces)%nat); [|discriminate].
    apply face_name_inj. congruence.
Qed.

Lemma BoundaryFaceMap_fold (l : list nat) (m : gmap string nat) (name : string) :
  fold_left (fun m i => <[face_name i := (i + 1)%nat]> m) l m !! name
  = match list_find (fun i => face_name i = name) (reverse l) with
    | Some (_, i) => Some (i + 1)%nat
    | None => m !! name
    end.
Proof.
  revert m. induction l as [|i l IH]; intros m; simpl; [reflexivity|].
  rewrite IH, reverse_cons.
  destruct (list_find (fun i => face_name i = name) (reverse l)) as [[k v]|] eqn:Hf.
  - erewrite list_find_app_l by exact Hf. reflexivity.
  - rewrite list_find_app_r by exact Hf. simpl.
    destruct (decide (face_name i = name)) as [<-|Hne]; simpl.
    + now rewrite lookup_insert_eq.
    + now rewrite lookup_insert_ne.
Qed.

(** X16: the gmsh boundary map written by [writeMeshCase] holds exactly the
    names of [ShapeFaceNames], and gives the name at position i the number
    i + 1. *)
Theorem BoundaryFaceMap_lookup (faces : list Element) (name : string) (n : nat) :
  BoundaryFaceMap faces !! name = Some n
  <-> exists i, shape_face_names faces !! i = Some name /\ n = (i + 1)%nat.
Proof.
  unfold BoundaryFaceMap. rewrite BoundaryFaceMap_fold, lookup_empty.
  destruct (list_find (fun i => face_name i = name) (reverse (seq 0 (length faces))))
    as [[k i]|] eqn:Hf.
  - apply list_find_Some in Hf as (Hk & Hname & _).
    assert (Hi : (i < length faces)%nat).
    { apply list_elem_of_lookup_2, elem_of_reverse, elem_of_seq in Hk. lia. }
    split.
    + intros [= <-]. exists i. rewrite lookup_shape_face_names.
      destruct (decide (i < length faces)%nat); [|lia]. now rewrite Hname.
    + intros (j & Hj & ->). rewrite lookup_shape_face_names in Hj.
      destruct (decide (j < length faces)%nat); [|discriminate].
      injection Hj as Hj. rewrite <- Hname in Hj. apply face_name_inj in Hj.
      now subst.
  - split; [discriminate|]. intros (j & Hj & ->). exfalso.
    rewrite lookup_shape_face_names in Hj.
    destruct (decide (j < length faces)%nat) as [Hlt|]; [|discriminate].
    injection Hj as Hj. apply list_find_None in Hf. rewrite Forall_forall in Hf.
    apply (Hf j); [|assumption].
    apply elem_of_reverse, elem_of_seq. lia.
Qed.

(** ** Boundary layers *)

Lemma matchFaces_length (doc : Document) (ref_lists : list (list Ref)) (shape : Shape)
    (result : list (list (nat * Ref))) :
  matchFacesToTargetShape doc ref_lists shape = Returned result ->
  length result = length (Faces shape).
Proof.
  intros H.
  assert (Hall : Forall (Forall (resolves doc)) ref_lists).
  { unfold matchFacesToTargetShape in H.
    destruct (resolve_groups doc 0 ref_lists []) as [src|e] eqn:Hres; [|discriminate].
    exact (resolve_groups_Returned _ _ _ _ _ Hres). }
  destruct (matchFacesToTargetShape_returns doc ref_lists shape Hall)
    as (result' & H' & Hlen). congruence.
Qed.

Lemma scan_matched_spec (ShapeFaceNames : list string) (mr_id : nat)
    (mr_obj : MeshRefinement) (i : nat) (sfN : string) (mf : list (nat * Ref))
    (st : Settings) :
  ShapeFaceNames !! i = Some sfN ->
  exists st',
    scan_matched ShapeFaceNames mr_id mr_obj i mf st = Returned st'
    /\ BoundaryLayers st'
       = if touched mr_id mf
         then <[sfN := boundary_layer_of mr_obj]> (BoundaryLayers st)
         else BoundaryLayers st.
Proof.
  intros Hi. revert st. induction mf as [|p mf IH]; intros st; simpl.
  - now exists st.
  - destruct (bool_decide (mr_id = p.1)); simpl.
    + unfold index_. rewrite Hi. simpl.
      destruct (IH (add_boundary_layer mr_obj sfN st)) as (st' & -> & Hbl).
      exists st'. split; [reflexivity|]. rewrite Hbl. simpl.
      destruct (touched mr_id mf); [|reflexivity]. apply insert_insert_eq.
    + exact (IH st).
Qed.

Lemma scan_faces_spec (ShapeFaceNames : list string) (mr_id : nat)
    (mr_obj : MeshRefinement) (bl_matched_faces : list (list (nat * Ref))) :
  forall (i : nat) (st : Settings),
    (i + length bl_matched_faces <= length ShapeFaceNames)%nat ->
    exists st',
      scan_faces ShapeFaceNames mr_id mr_obj i bl_matched_faces st = Returned st'
      /\ forall sfN,
           ((exists k mf, bl_matched_faces !! k = Some mf /\ touched mr_id mf = true
                          /\ ShapeFaceNames !! (i + k)%nat = Some sfN) ->
            BoundaryLayers st' !! sfN = Some (boundary_layer_of mr_obj))
           /\ ((forall k mf, bl_matched_faces !! k = Some mf -> touched mr_id mf = true ->
                             ShapeFaceNames !! (i + k)%nat <> Some sfN) ->
               BoundaryLayers st' !! sfN = BoundaryLayers st !! sfN)
           /\ (BoundaryLayers st !! sfN = Some (boundary_layer_of mr_obj) ->
               BoundaryLayers st' !! sfN = Some (boundary_layer_of mr_obj)).
Proof.
  induction bl_matched_faces as [|mf rest IH]; intros i st Hlen; simpl.
  - exists st. split; [reflexivity|]. intros sfN. split; [|split]; auto.
    intros (k & mf & Hk & _). discriminate.
  - simpl in Hlen.
    destruct (lookup_lt_is_Some_2 ShapeFaceNames i) as [name Hname]; [lia|].
    destruct (scan_matched_spec ShapeFaceNames mr_id mr_obj i name mf st Hname)
      as (st1 & -> & Hbl1). simpl.
    destruct (IH (S i) st1) as (st' & -> & Hspec); [lia|].
    exists st'. split; [reflexivity|]. intros sfN.
    destruct (Hspec sfN) as (H1 & H2 & H3).
    assert (Hkeep : BoundaryLayers st !! sfN = Some (boundary_layer_of mr_obj) ->
                    BoundaryLayers st1 !! sfN = Some (boundary_layer_of mr_obj)).
    { intros Hv. rewrite Hbl1. destruct (touched mr_id mf); [|assumption].
      destruct (decide (name = sfN)) as [->|Hne].
      - apply lookup_insert_eq.
      - now rewrite lookup_insert_ne. }
    split; [|split].
    + intros ([|k] & mf' & Hk & Ht & Hn); simpl in Hk.
      * injection Hk as <-. rewrite Nat.add_0_r, Hname in Hn. injection Hn as ->.
        apply H3. rewrite Hbl1, Ht. apply lookup_insert_eq.
      * apply H1. exists k, mf'. repeat split; try assumption.
        now replace (S i + k)%nat with (i + S k)%nat by lia.
    + intros Hnone. rewrite H2.
      * rewrite Hbl1. destruct (touched mr_id mf) eqn:Ht; [|reflexivity].
        apply lookup_insert_ne. intros ->.
        apply (Hnone 0%nat mf eq_refl Ht). now rewrite Nat.add_0_r.
      * intros k mf' Hk Ht.
        replace (S i + k)%nat with (i + S k)%nat by lia.
        exact (Hnone (S k) mf' Hk Ht).
    + intros Hv. apply H3, Hkeep, Hv.
Qed.

Lemma touched_elem (mr_id : nat) (mf : list (nat * Ref)) :
  touched mr_id mf = true <-> exists br, (mr_id, br) ∈ mf.
Proof.
  unfold touched. rewrite List.existsb_exists. split.
  - intros ([n br] & Hin & Hp). apply bool_decide_eq_true in Hp. simpl in Hp. subst n.
    exists br. now apply list_elem_of_In.
  - intros (br & Hin). exists (mr_id, br). split; [now apply list_elem_of_In|].
    now apply bool_decide_eq_true.
Qed.

Lemma region_face_lists_lookup (mr_objs : list MeshRefinement) (mr_id : nat)
    (mr_obj : MeshRefinement) (rl : list Ref) (br : Ref) :
  mr_objs !! mr_id = Some mr_obj ->
  region_face_lists mr_objs !! mr_id = Some rl -> br ∈ rl ->
  (1 <? NumberLayers mr_obj)%Z && negb (Internal mr_obj) = true
  /\ br ∈ References mr_obj.
Proof.
  intros Hmr Hrl Hbr. unfold region_face_lists in Hrl.
  rewrite list_lookup_fmap, Hmr in Hrl. simpl in Hrl. injection Hrl as <-.
  destruct ((1 <? NumberLayers mr_obj)%Z && negb (Internal mr_obj)).
  - now split.
  - inversion Hbr.
Qed.

(** X17: in the cfMesh branch, with the faces matched for the reference
    lists of the refinements and the face names of the same shape, the
    boundary-layer loop of a refinement raises no [IndexError]; for a
    refinement whose relative length is not zero it writes the refinement's
    entry for every face that the matcher reported for it, and for one whose
    relative length is 0.0 or -0.0 it changes nothing; and every entry of
    [BoundaryLayers] it changes is that entry, under the name of a face that
    one of the refinement's own references resolves to as the same
    geometry. *)
Theorem boundary_layers_matched (doc : Document) (mr_objs : list MeshRefinement)
    (shape : Shape) (bl_matched_faces : list (list (nat * Ref))) (mr_id : nat)
    (mr_obj : MeshRefinement) (st : Settings) :
  matchFacesToTargetShape doc (region_face_lists mr_objs) shape
  = Returned bl_matched_faces ->
  mr_objs !! mr_id = Some mr_obj ->
  exists st',
    boundary_layers (shape_face_names (Faces shape)) bl_matched_faces mr_id mr_obj st
    = Returned st'
    /\ (if float_truthy (RelativeLength mr_obj)
        then forall i mf br,
               bl_matched_faces !! i = Some mf -> (mr_id, br) ∈ mf ->
               BoundaryLayers st' !! String.append "face" (str i)
               = Some (boundary_layer_of mr_obj)
        else st' = st)
    /\ (forall sfN,
          BoundaryLayers st' !! sfN = BoundaryLayers st !! sfN
          \/ exists i face br bf,
               sfN = String.append "face" (str i) /\ Faces shape !! i = Some face
               /\ br ∈ References mr_obj /\ resolve doc br = Returned bf
               /\ isSameGeometry bf face = Some true
               /\ float_truthy (RelativeLength mr_obj) = true
               /\ BoundaryLayers st' !! sfN = Some (boundary_layer_of mr_obj)).
Proof.
  intros Hmatch Hmr.
  pose proof (matchFaces_length _ _ _ _ Hmatch) as Hlen.
  pose proof (matchFaces_pairs _ _ _ _ Hmatch) as Hpairs.
  set (names := shape_face_names (Faces shape)).
  assert (Hnames : forall i mf, bl_matched_faces !! i = Some mf ->
                                names !! i = Some (face_name i)).
  { intros i mf Hi. unfold names. rewrite lookup_shape_face_names.
    apply lookup_lt_Some in Hi. destruct (decide (i < length (Faces shape))%nat); [easy|lia]. }
  unfold boundary_layers.
  destruct (float_truthy (RelativeLength mr_obj)) eqn:Htruthy;
    [|exists st; split; [reflexivity|]; split; [reflexivity | now left]].
  destruct ((1 <? NumberLayers mr_obj)%Z && negb (Internal mr_obj)) eqn:Hguard.
  - destruct (scan_faces_spec names mr_id mr_obj bl_matched_faces 0 st)
      as (st' & Hscan & Hspec).
    { unfold names, shape_face_names. rewrite length_imap. simpl. lia. }
    exists st'. split; [exact Hscan|]. split.
    + intros i mf br Hi Hin. apply (proj1 (Hspec (face_name i))).
      exists i, mf. split; [assumption|]. split; [apply touched_elem; eauto|].
      simpl. eauto.
    + intros sfN.
      set (P := fun x : nat * list (nat * Ref) =>
                  touched mr_id x.2 = true /\ names !! x.1 = Some sfN).
      destruct (decide (Exists P (imap pair bl_matched_faces))) as [Hex|Hno].
      * right. apply Exists_exists in Hex as ([i mf] & Hin & Ht & Hn).
        apply elem_of_lookup_imap in Hin as (i' & mf' & [= -> ->] & Hi).
        simpl in Ht, Hn. apply touched_elem in Ht as [br Hbr].
        destruct (Hpairs i' mf' mr_id br Hi Hbr)
          as (rl & bf & face & Hrl & Hmem & Hres & Hface & Hsame).
        destruct (region_face_lists_lookup _ _ _ _ _ Hmr Hrl Hmem) as [_ Href].
        rewrite (Hnames _ _ Hi) in Hn. injection Hn as <-.
        exists i', face, br, bf. repeat split; try assumption.
        apply (proj1 (Hspec (face_name i'))). exists i', mf'.
        split; [assumption|]. split; [apply touched_elem; eauto|].
        simpl. eauto.
      * left. apply (proj1 (proj2 (Hspec sfN))). intros k mf Hk Ht Hn. apply Hno.
        apply Exists_exists. exists (k, mf). split.
        -- apply elem_of_lookup_imap. eauto.
        -- split; assumption.
  - exists st. split; [reflexivity|]. split; [|now left].
    intros i mf br Hi Hin. exfalso.
    destruct (Hpairs i mf mr_id br Hi Hin) as (rl & bf & face & Hrl & Hmem & _).
    destruct (region_face_lists_lookup _ _ _ _ _ Hmr Hrl Hmem) as [Hg _]. congruence.
Qed.

Lemma boundary_layers_matched_witness :
  exists st',
    boundary_layers (shape_face_names (Faces Sample.strip))
      [[(0%nat, ("Strip", "Face1")%string)]; []; [(1%nat, ("Strip", "Face3")%string)]]
      0 (sample_refinement "MeshRefinement" "Face1") no_settings
    = Returned st'
    /\ (forall i mf br,
          [[(0%nat, ("Strip", "Face1")%string)]; [];
           [(1%nat, ("Strip", "Face3")%string)]] !! i = Some mf ->
          (0%nat, br) ∈ mf ->
          BoundaryLayers st' !! String.append "face" (str i)
          = Some (boundary_layer_of (sample_refinement "MeshRefinement" "Face1")))
    /\ (forall sfN,
          BoundaryLayers st' !! sfN = BoundaryLayers no_settings !! sfN
          \/ exists i face br bf,
               sfN = String.append "face" (str i)
               /\ Faces Sample.strip !! i = Some face
               /\ br ∈ References (sample_refinement "MeshRefinement" "Face1")
               /\ resolve Sample.doc br = Returned bf
               /\ isSameGeometry bf face = Some true
               /\ float_truthy (RelativeLength (sample_refinement "MeshRefinement" "Face1"))
                  = true
               /\ BoundaryLayers st' !! sfN
                  = Some (boundary_layer_of (sample_refinement "MeshRefinement" "Face1"))).
Proof.
  apply (boundary_layers_matched Sample.doc sample_refinements Sample.strip).
  - vm_compute. reflexivity.
  - reflexivity.
Defined.

(** * Members of an analysis *)

Lemma prefix_app (p s : string) :
  String.prefix p s = true <-> exists rest, s = String.append p rest.
Proof.
  revert s. induction p as [|a p IH]; intros s.
  - split; [intros _; now exists s|]. intros _. now destruct s.
  - destruct s as [|b s]; simpl.
    + split; [discriminate | intros [rest H]; discriminate].
    + destruct (Ascii.ascii_dec a b) as [->|Hne].
      * rewrite IH. split; intros [rest H]; exists rest.
        -- rewrite H. reflexivity.
        -- now injection H.
      * split; [discriminate | intros [rest H]; injection H; congruence].
Qed.

Lemma prefix_nil (s : string) : String.prefix EmptyString s = true.
Proof. now destruct s. Qed.

Lemma contains_app (sub pre rest : string) :
  contains sub (String.append pre (String.append sub rest)) = true.
Proof.
  induction pre as [|a pre IH]; simpl.
  - assert (H : String.prefix sub (String.append sub rest) = true)
      by (apply prefix_app; eauto).
    destruct (String.append sub rest); simpl in *; now rewrite H.
  - rewrite IH. apply orb_true_r.
Qed.

Lemma startswith_Zone (name : string) :
  startswith name "PorousZone" = true \/ startswith name "InitialisationZone" = true ->
  contains "Zone" name = true.
Proof.
  unfold startswith. intros [H | H]; apply prefix_app in H as [rest ->].
  - exact (contains_app "Zone" "Porous" rest).
  - exact (contains_app "Zone" "Initialisation" rest).
Qed.

Lemma filter_filter_sublist {A : Type} (P Q : A -> Prop)
    `{forall x, Decision (P x)} `{forall x, Decision (Q x)} (l : list A) :
  (forall x, P x -> Q x) -> filter P l `sublist_of` filter Q l.
Proof.
  intros HPQ. induction l as [|a l IH]; simpl; [constructor|].
  rewrite !filter_cons. destruct (decide (P a)) as [HP|HP].
  - destruct (decide (Q a)) as [HQ|HQ]; [now constructor | now destruct HQ; auto].
  - destruct (decide (Q a)); [now constructor | assumption].
Qed.

(** X18: every porous zone and every initialisation zone of an analysis is
    among its zone objects, in the order of the group, and no object is
    both a porous zone and an initialisation zone. *)
Theorem zone_objects (Group : list FCObject) :
  getPorousZoneObjects Group `sublist_of` getZoneObjects Group
  /\ getInitialisationZoneObjects Group `sublist_of` getZoneObjects Group
  /\ (forall i, i ∈ getPorousZoneObjects Group ->
                i ∉ getInitialisationZoneObjects Group).
Proof.
  unfold getPorousZoneObjects, getInitialisationZoneObjects, getZoneObjects.
  split; [|split].
  - apply filter_filter_sublist. intros i Hi. apply startswith_Zone. now left.
  - apply filter_filter_sublist. intros i Hi. apply startswith_Zone. now right.
  - intros i Hp Hi. apply list_elem_of_filter in Hp as [Hp _].
    apply list_elem_of_filter in Hi as [Hi _]. unfold startswith in Hp, Hi.
    apply prefix_app in Hp as [rest Hp]. apply prefix_app in Hi as [rest' Hi].
    rewrite Hp in Hi. discriminate.
Qed.

Lemma getMeshObject_loop_spec (members : list FCObject) (isPresent : bool)
    (meshObj : list FCObject) (out : list ConsoleOutput) :
  getMeshObject_loop members isPresent meshObj out
  = let meshes := filter (fun i => has_proxy _CfdMesh i = true) members in
    (isPresent || bool_decide (meshes <> []),
     if isPresent then meshObj else meshObj ++ take 1 meshes,
     out ++ replicate (length meshes - (if isPresent then 0 else 1))
              (PrintError msg_more_than_one_mesh)).
Proof.
  revert isPresent meshObj out.
  induction members as [|i rest IH]; intros isPresent meshObj out; simpl.
  - rewrite orb_false_r, !app_nil_r. now destruct isPresent.
  - rewrite filter_cons. destruct (has_proxy _CfdMesh i) eqn:Hi.
    + destruct (decide (true = true)) as [_|Hn]; [|now destruct Hn].
      destruct isPresent; rewrite IH; simpl.
      * rewrite <- app_assoc, Nat.sub_0_r. reflexivity.
      * rewrite Nat.sub_0_r. reflexivity.
    + destruct (decide (false = true)) as [Hn|_]; [discriminate|].
      apply IH.
Qed.

Lemma getMesh_filter (Group : list FCObject) :
  getMesh Group = head (filter (fun i => has_proxy _CfdMesh i = true) Group).
Proof.
  induction Group as [|i rest IH]; simpl; [reflexivity|].
  rewrite filter_cons. destruct (has_proxy _CfdMesh i).
  - destruct (decide (true = true)) as [_|Hn]; [reflexivity | now destruct Hn].
  - destruct (decide (false = true)) as [Hn|_]; [discriminate | exact IH].
Qed.

(** X19: for an analysis, [getMeshObject] returns what [getMesh] returns,
    the first mesh object of the group or [None]; it never fails on
    [meshObj[0]]; and it writes its error once for every mesh object after
    the first. *)
Theorem getMeshObject_getMesh (Group Objects : list FCObject) :
  getMeshObject (Some Group) Objects
  = (Returned (getMesh Group),
     replicate (length (filter (fun i => has_proxy _CfdMesh i = true) Group) - 1)
       (PrintError msg_more_than_one_mesh)).
Proof.
  unfold getMeshObject. rewrite getMeshObject_loop_spec, getMesh_filter. simpl.
  destruct (filter (fun i => has_proxy _CfdMesh i = true) Group) as [|m meshes];
    reflexivity.
Qed.

(** X20: [getPhysicsModel] returns the last member whose name contains
    "PhysicsModel", not the first, and [None] when there is none. *)
Theorem getPhysicsModel_last (Group : list FCObject) :
  getPhysicsModel Group
  = last (filter (fun i => contains "PhysicsModel" (obj_Name i) = true) Group).
Proof.
  unfold getPhysicsModel.
  induction Group as [|i rest IH] using rev_ind; [reflexivity|].
  rewrite fold_left_app, filter_app, filter_cons, filter_nil. simpl.
  destruct (contains "PhysicsModel" (obj_Name i)).
  - destruct (decide (true = true)) as [_|Hn]; [|now destruct Hn].
    now rewrite last_snoc.
  - destruct (decide (false = true)) as [Hn|_]; [discriminate|].
    rewrite app_nil_r. exact IH.
Qed.

(** * The sort and the sweep of [matchFacesToTargetShape] *)

(** X21: when the centres of mass are finite and the tolerant order is
    consistent on each axis, the three stable sort passes (z, then y, then
    x) rearrange the list so that two entries with different centres of mass
    stand in the order that the sweep's comparison expects: the earlier one
    compares below the later one. *)
Theorem sort_by_CenterOfMass_ordered {A : Type} (face : A -> Element) (l : list A) :
  Forall (fun f => finite_CenterOfMass f = true) (map face l) ->
  consistent_keys (fun f => x (CenterOfMass f)) (map face l) ->
  consistent_keys (fun f => y (CenterOfMass f)) (map face l) ->
  consistent_keys (fun f => z (CenterOfMass f)) (map face l) ->
  sort_by_CenterOfMass face l ≡ₚ l
  /\ forall i j p q,
       (i < j)%nat ->
       sort_by_CenterOfMass face l !! i = Some p ->
       sort_by_CenterOfMass face l !! j = Some q ->
       CenterOfMass_equal (face p) (face q) = false ->
       CofM_cmp (face p) (face q) = (-1)%Z.
Proof.
  intros Hfin Hx Hy Hz. split; [apply sort_by_CenterOfMass_perm|].
  assert (Hon : forall a, a ∈ sort_by_CenterOfMass face l -> on_fs face (map face l) a).
  { intros a Ha. rewrite sort_by_CenterOfMass_perm in Ha. unfold on_fs.
    apply list_elem_of_fmap. eauto. }
  assert (Hsorted : no_inversion (after_x face) (sort_by_CenterOfMass face l)).
  { apply (sort_by_CenterOfMass_sorted face (map face l) Hx Hy Hz).
    apply Forall_forall. intros a Ha. unfold on_fs. apply list_elem_of_fmap. eauto. }
  intros i j p q Hij Hi Hj Hne.
  apply (after_x_CofM_cmp face (map face l) Hfin); try assumption.
  - apply Hon. eapply list_elem_of_lookup_2. exact Hi.
  - apply Hon. eapply list_elem_of_lookup_2. exact Hj.
  - exact (StronglySorted_lookup _ _ i j p q Hsorted Hij Hi Hj).
Qed.

Lemma sort_by_CenterOfMass_ordered_witness :
  sort_by_CenterOfMass (fun f : Element => f) (Faces Sample.strip)
  ≡ₚ Faces Sample.strip
  /\ forall i j p q,
       (i < j)%nat ->
       sort_by_CenterOfMass (fun f : Element => f) (Faces Sample.strip) !! i = Some p ->
       sort_by_CenterOfMass (fun f : Element => f) (Faces Sample.strip) !! j = Some q ->
       CenterOfMass_equal p q = false ->
       CofM_cmp p q = (-1)%Z.
Proof.
  apply (sort_by_CenterOfMass_ordered (fun f : Element => f) (Faces Sample.strip)).
  - repeat constructor; vm_compute; reflexivity.
  - apply strip_consistent. right. reflexivity.
  - apply strip_consistent. left. intros f Hf. simpl in Hf. set_unfold.
    destruct_or!; subst; reflexivity.
  - apply strip_consistent. left. intros f Hf. simpl in Hf. set_unfold.
    destruct_or!; subst; reflexivity.
Defined.

(** X22: the sweep over the two sorted lists always ends, for any lists: the
    loop, which may step [j] back to the start of a run of matches, leaves
    through its guard within n_src * (n_mesh + 1) + n_mesh iterations,
    raises nothing, and keeps one row of candidates per target face. *)
Theorem sweep_terminates (src_face_list : list SrcFace) (mesh_face_list : list MeshFace) :
  exists st,
    sweep_loop (length src_face_list * (length mesh_face_list + 1)
                + length mesh_face_list)
      src_face_list mesh_face_list (sweep_init mesh_face_list)
    = Returned st
    /\ sweep_running src_face_list mesh_face_list st = false
    /\ length (Sweep.candidate_mesh_faces st) = length mesh_face_list.
Proof.
  destruct (sweep_exits src_face_list mesh_face_list) as (st & Hsweep & Hrun & Hlen).
  exists st. unfold sweep, sweep_budget, sweep_init in Hsweep. simpl in Hsweep.
  rewrite !Nat.sub_0_r in Hsweep. auto.
Qed.

(** * The active analysis *)

Lemma getActiveAnalysis_from_first (Objects : list DocObject) (pos k : nat) (a : DocObject) :
  Objects !! k = Some a ->
  has_proxy _CfdAnalysis (doc_obj a) && IsActiveAnalysis a = true ->
  (forall j o, (j < k)%nat -> Objects !! j = Some o ->
               has_proxy _CfdAnalysis (doc_obj o) && IsActiveAnalysis o = false) ->
  getActiveAnalysis_from Objects pos = Some ((pos + k)%nat, a).
Proof.
  revert pos k. induction Objects as [|obj rest IH]; intros pos k Hk Ha Hbefore;
    [discriminate|].
  simpl. destruct k as [|k]; simpl in Hk.
  - injection Hk as ->. rewrite Ha, Nat.add_0_r. reflexivity.
  - rewrite (Hbefore 0%nat obj (Nat.lt_0_succ k) eq_refl).
    rewrite (IH (S pos) k Hk Ha).
    + do 2 f_equal. lia.
    + intros j o Hj Ho. apply (Hbefore (S j) o); [lia | exact Ho].
Qed.

(** X23: after [setActiveAnalysis] for an analysis object of the document,
    [getActiveAnalysis] returns that object, now flagged active, and it is
    the only analysis object of the document that is flagged active. *)
Theorem setActiveAnalysis_getActiveAnalysis (Objects : list DocObject) (analysis : nat)
    (a : DocObject) :
  Objects !! analysis = Some a ->
  has_proxy _CfdAnalysis (doc_obj a) = true ->
  getActiveAnalysis (setActiveAnalysis Objects analysis)
  = Some (analysis, set_IsActiveAnalysis true a)
  /\ forall j o,
       setActiveAnalysis Objects analysis !! j = Some o ->
       has_proxy _CfdAnalysis (doc_obj o) = true ->
       (IsActiveAnalysis o = true <-> j = analysis).
Proof.
  intros Hk Ha.
  assert (Hlook : forall j, setActiveAnalysis Objects analysis !! j
            = (fun o => if decide (analysis = j) then set_IsActiveAnalysis true o
                        else if has_proxy _CfdAnalysis (doc_obj o)
                             then set_IsActiveAnalysis false o else o)
              <$> Objects !! j).
  { intros j. unfold setActiveAnalysis. rewrite list_lookup_alter, !list_lookup_fmap.
    destruct (decide (analysis = j)) as [<-|Hne].
    - destruct (Objects !! analysis); simpl; [|reflexivity].
      destruct (has_proxy _CfdAnalysis (doc_obj d)); reflexivity.
    - reflexivity. }
  split.
  - unfold getActiveAnalysis.
    rewrite (getActiveAnalysis_from_first _ 0 analysis (set_IsActiveAnalysis true a)).
    + reflexivity.
    + rewrite Hlook, Hk. simpl. now destruct (decide (analysis = analysis)).
    + simpl. now rewrite Ha.
    + intros j o Hj Ho. rewrite Hlook in Ho.
      destruct (Objects !! j) as [o'|]; [|discriminate]. simpl in Ho.
      destruct (decide (analysis = j)); [lia|]. injection Ho as <-.
      destruct (has_proxy _CfdAnalysis (doc_obj o')) eqn:Hp; simpl.
      * rewrite Hp. reflexivity.
      * rewrite Hp. reflexivity.
  - intros j o Ho Hp. rewrite Hlook in Ho.
    destruct (Objects !! j) as [o'|]; [|discriminate]. simpl in Ho.
    destruct (decide (analysis = j)) as [->|Hne]; injection Ho as <-.
    + simpl. split; auto.
    + destruct (has_proxy _CfdAnalysis (doc_obj o')) eqn:Hp'; simpl.
      * split; [discriminate | congruence].
      * simpl in Hp. congruence.
Qed.

Lemma setActiveAnalysis_getActiveAnalysis_witness :
  getActiveAnalysis (setActiveAnalysis sample_objects 2)
  = Some (2%nat,
          set_IsActiveAnalysis true
            {| doc_obj := {| obj_Name := "CfdAnalysis001"; Proxy := Some _CfdAnalysis |};
               IsActiveAnalysis := false |})
  /\ forall j o,
       setActiveAnalysis sample_objects 2 !! j = Some o ->
       has_proxy _CfdAnalysis (doc_obj o) = true ->
       (IsActiveAnalysis o = true <-> j = 2%nat).
Proof.
  apply (setActiveAnalysis_getActiveAnalysis sample_objects 2); reflexivity.
Defined.

(** * Index lists of the gmsh settings *)

Lemma append_cons (a : Ascii.ascii) (s t : string) :
  String.append (String a s) t = String a (String.append s t).
Proof. reflexivity. Qed.

Lemma append_nil_r (s : string) : String.append s EmptyString = s.
Proof. induction s as [|a s IH]; [reflexivity|]. now rewrite append_cons, IH. Qed.

Lemma append_assoc (s t u : string) :
  String.append (String.append s t) u = String.append s (String.append t u).
Proof. induction s as [|a s IH]; [reflexivity|]. now rewrite !append_cons, IH. Qed.

Lemma uint_all_digits (d : Decimal.uint) :
  all_digits (NilEmpty.string_of_uint d) = true.
Proof. induction d; simpl; try reflexivity; exact IHd. Qed.

Lemma str_all_digits (n : nat) : all_digits (str n) = true.
Proof.
  unfold str, NilZero.string_of_uint.
  destruct (Nat.to_uint n); try reflexivity; apply uint_all_digits.
Qed.

Lemma rstrip_cons (chars : string) (c : Ascii.ascii) (s : string) :
  rstrip chars (String c s)
  = match rstrip chars s with
    | EmptyString => if char_in c chars then EmptyString else String c EmptyString
    | String a r => String c (String a r)
    end.
Proof. reflexivity. Qed.

Lemma rstrip_digits (s t : string) :
  all_digits s = true -> rstrip ", " (String.append s t) = String.append s (rstrip ", " t).
Proof.
  induction s as [|c s IH]; intros Hs; [reflexivity|].
  change (is_digit c && all_digits s = true) in Hs.
  apply andb_true_iff in Hs as [Hc Hs].
  rewrite !append_cons, rstrip_cons, (IH Hs).
  destruct (String.append s (rstrip ", " t)); [|reflexivity].
  assert (Hnot : char_in c ", " = false).
  { unfold char_in. rewrite orb_false_r. apply orb_false_iff.
    split; apply Ascii.eqb_neq; intros ->; vm_compute in Hc; discriminate. }
  now rewrite Hnot.
Qed.

Lemma rstrip_kept (chars s t : string) :
  rstrip chars t <> EmptyString ->
  rstrip chars (String.append s t) = String.append s (rstrip chars t).
Proof.
  intros Ht. induction s as [|c s IH]; [reflexivity|].
  rewrite !append_cons, rstrip_cons, IH.
  destruct (String.append s (rstrip chars t)) eqn:Hst; [|reflexivity].
  destruct s; [|discriminate]. now destruct Ht.
Qed.

Lemma str_not_empty (n : nat) (t : string) : String.append (str n) t <> EmptyString.
Proof. destruct (str_digit n) as (c & s & -> & _). discriminate. Qed.

Lemma index_list_sep_join (ns : list nat) :
  index_list ns = sep_join ", " (map (fun n => str (n + 1)) ns).
Proof.
  unfold index_list, join. induction ns as [|n ns IH]; [reflexivity|].
  simpl map. simpl fold_right. rewrite append_assoc, rstrip_digits by apply str_all_digits.
  destruct ns as [|m ns].
  - simpl. now rewrite append_nil_r.
  - rewrite rstrip_kept.
    + rewrite IH. reflexivity.
    + rewrite IH. simpl map.
      destruct (map (fun n0 => str (n0 + 1)) ns); simpl.
      * destruct (str_digit (m + 1)) as (c & s & -> & _). discriminate.
      * apply str_not_empty.
Qed.

(** X24: the index lists of the gmsh settings (the nodes of a refined
    element, and the solids of the shape) are the numbers n + 1 in decimal
    separated by ", ": the final [rstrip] removes the last separator and
    nothing else.  For a shape with k solids the setting lists 1 to k. *)
Theorem index_list_join (ns : list nat) (aShape : Shape) :
  index_list ns = sep_join ", " (map (fun n => str (n + 1)) ns)
  /\ Solids_setting aShape = sep_join ", " (map str (seq 1 (length (Solids aShape)))).
Proof.
  split; [apply index_list_sep_join|].
  unfold Solids_setting. rewrite index_list_sep_join. f_equal.
  rewrite <- fmap_S_seq, <- list_fmap_compose. apply list_fmap_ext.
  intros _ n _. simpl. f_equal. lia.
Qed.

(** * The six comparisons of the sort key *)

(** X25: on finite key values the six comparison methods of the key wrapper
    agree with each other: [>] is [<] with the arguments exchanged, [<=] is
    the negation of [>], [>=] the negation of [<], and [!=] the negation of
    [==]. *)
Theorem K_operators_consistent (a b : K) :
  finite_key a -> finite_key b ->
  K_gt a b = K_lt b a
  /\ K_le a b = negb (K_gt a b)
  /\ K_ge a b = negb (K_lt a b)
  /\ K_ne a b = negb (K_eq a b).
Proof.
  unfold finite_key, K_gt, K_lt, K_le, K_ge, K_ne, K_eq, gt. intros Ha Hb.
  rewrite (floatEqual_sym (val b) (val a)).
  split; [reflexivity|]. split; [|split; [|reflexivity]].
  - destruct (floatEqual (val a) (val b)) eqn:Hfe.
    + now rewrite orb_true_r, andb_false_r.
    + rewrite orb_false_r, andb_true_r.
      now rewrite (floatEqual_false_lt _ _ Ha Hb Hfe).
  - destruct (floatEqual (val a) (val b)) eqn:Hfe.
    + now rewrite orb_true_r, andb_false_r.
    + rewrite orb_false_r, andb_true_r.
      rewrite (floatEqual_false_lt _ _ Ha Hb Hfe). now rewrite negb_involutive.
Qed.

Lemma K_operators_consistent_witness :
  K_gt (mkK (of_int 2)) (mkK (of_int 1)) = K_lt (mkK (of_int 1)) (mkK (of_int 2))
  /\ K_le (mkK (of_int 2)) (mkK (of_int 1)) = negb (K_gt (mkK (of_int 2)) (mkK (of_int 1)))
  /\ K_ge (mkK (of_int 2)) (mkK (of_int 1)) = negb (K_lt (mkK (of_int 2)) (mkK (of_int 1)))
  /\ K_ne (mkK (of_int 2)) (mkK (of_int 1)) = negb (K_eq (mkK (of_int 2)) (mkK (of_int 1))).
Proof.
  apply (K_operators_consistent (mkK (of_int 2)) (mkK (of_int 1))); reflexivity.
Defined.

(** * Completeness of [matchFacesToTargetShape] without reference ties *)

(** ** The tolerant order on one axis *)

Section AxisOrder.
Context (c : Element -> float) (fs : list Element).
Hypothesis fs_finite_c : forall f, f ∈ fs -> finite (c f) = true.
Hypothesis fs_c : consistent_keys c fs.

Let L (f g : Element) : bool := K_lt (compKeyFn c f) (compKeyFn c g).
Let E (f g : Element) : bool := floatEqual (c f) (c g).

Lemma axis_lt_ne (f g : Element) : L f g = true -> E f g = false.
Proof.
  unfold L, E, K_lt, compKeyFn. simpl. rewrite andb_true_iff.
  intros [_ H]. now apply negb_true_iff.
Qed.

Lemma axis_ne_lt (f g : Element) :
  f ∈ fs -> g ∈ fs -> E f g = false -> L f g = true \/ L g f = true.
Proof.
  intros Hf Hg He. unfold L, E, K_lt, compKeyFn in *. simpl.
  rewrite (floatEqual_sym (c g) (c f)), He, !andb_true_r.
  rewrite (floatEqual_false_lt _ _ (fs_finite_c f Hf) (fs_finite_c g Hg) He).
  destruct (lt (c g) (c f)); auto.
Qed.

Lemma axis_eq_sym (f g : Element) : E f g = E g f.
Proof. apply floatEqual_sym. Qed.

Lemma axis_lt_eq (f g h : Element) :
  f ∈ fs -> g ∈ fs -> h ∈ fs -> L f g = true -> E g h = true -> L f h = true.
Proof.
  intros Hf Hg Hh Hfg Hgh.
  destruct (fs_c f h g Hf Hh Hg Hfg) as [H | H]; [exact H|].
  apply axis_lt_ne in H. rewrite axis_eq_sym in H. congruence.
Qed.

Lemma axis_eq_lt (f g h : Element) :
  f ∈ fs -> g ∈ fs -> h ∈ fs -> E f g = true -> L g h = true -> L f h = true.
Proof.
  intros Hf Hg Hh Hfg Hgh.
  destruct (fs_c g f h Hg Hf Hh Hgh) as [H | H]; [|exact H].
  apply axis_lt_ne in H. rewrite axis_eq_sym in H. congruence.
Qed.

Lemma axis_eq_trans (f g h : Element) :
  f ∈ fs -> g ∈ fs -> h ∈ fs -> E f g = true -> E g h = true -> E f h = true.
Proof.
  intros Hf Hg Hh Hfg Hgh. destruct (E f h) eqn:Hfh; [reflexivity|]. exfalso.
  destruct (axis_ne_lt f h Hf Hh Hfh) as [H | H].
  - destruct (fs_c f g h Hf Hg Hh H) as [H' | H']; apply axis_lt_ne in H'; congruence.
  - destruct (fs_c h g f Hh Hg Hf H) as [H' | H']; apply axis_lt_ne in H';
      rewrite axis_eq_sym in H'; congruence.
Qed.

End AxisOrder.

(** ** The lexicographic order of the sweep *)

Lemma CofM_cmp_lt_iff (f g : Element) :
  CofM_cmp f g = (-1)%Z
  <-> K_lt (keyx id f) (keyx id g) = true
      \/ (floatEqual (x (CenterOfMass f)) (x (CenterOfMass g)) = true
          /\ (K_lt (keyy id f) (keyy id g) = true
              \/ (floatEqual (y (CenterOfMass f)) (y (CenterOfMass g)) = true
                  /\ K_lt (keyz id f) (keyz id g) = true))).
Proof.
  unfold CofM_cmp, keyx, keyy, keyz, compKeyFn, K_lt. simpl.
  destruct (floatEqual (x (CenterOfMass f)) (x (CenterOfMass g)));
    destruct (floatEqual (y (CenterOfMass f)) (y (CenterOfMass g)));
    destruct (floatEqual (z (CenterOfMass f)) (z (CenterOfMass g)));
    destruct (lt (x (CenterOfMass f)) (x (CenterOfMass g)));
    destruct (lt (y (CenterOfMass f)) (y (CenterOfMass g)));
    destruct (lt (z (CenterOfMass f)) (z (CenterOfMass g)));
    simpl; split; intros H; try discriminate; try reflexivity; auto;
    try (destruct H as [H | [H [H' | [H' H'']]]]; discriminate).
Qed.

Lemma CofM_cmp_eq_iff (f g : Element) :
  CofM_cmp f g = 0%Z <-> CenterOfMass_equal f g = true.
Proof.
  unfold CofM_cmp, CenterOfMass_equal.
  destruct (floatEqual (x (CenterOfMass f)) (x (CenterOfMass g)));
    destruct (floatEqual (y (CenterOfMass f)) (y (CenterOfMass g)));
    destruct (floatEqual (z (CenterOfMass f)) (z (CenterOfMass g)));
    destruct (lt (x (CenterOfMass f)) (x (CenterOfMass g)));
    destruct (lt (y (CenterOfMass f)) (y (CenterOfMass g)));
    destruct (lt (z (CenterOfMass f)) (z (CenterOfMass g)));
    simpl; split; intros H; try discriminate; reflexivity.
Qed.

Section LexOrder.
Context (fs : list Element).
Hypothesis fs_finite : Forall (fun f => finite_CenterOfMass f = true) fs.
Hypothesis fs_x : consistent_keys (fun f => x (CenterOfMass f)) fs.
Hypothesis fs_y : consistent_keys (fun f => y (CenterOfMass f)) fs.
Hypothesis fs_z : consistent_keys (fun f => z (CenterOfMass f)) fs.

Lemma fs_finite_x (f : Element) : f ∈ fs -> finite (x (CenterOfMass f)) = true.
Proof.
  intros Hf. rewrite Forall_forall in fs_finite. pose proof (fs_finite f Hf) as H.
  unfold finite_CenterOfMass in H. rewrite !andb_true_iff in H. tauto.
Qed.

Lemma fs_finite_y (f : Element) : f ∈ fs -> finite (y (CenterOfMass f)) = true.
Proof.
  intros Hf. rewrite Forall_forall in fs_finite. pose proof (fs_finite f Hf) as H.
  unfold finite_CenterOfMass in H. rewrite !andb_true_iff in H. tauto.
Qed.

Lemma fs_finite_all (f : Element) : f ∈ fs -> finite_CenterOfMass f = true.
Proof. intros Hf. rewrite Forall_forall in fs_finite. exact (fs_finite f Hf). Qed.

(** Whatever compares below [h] compares below [g], or [g] compares below
    [h]: the sweep's comparison is a strict weak order on [fs]. *)
Lemma CofM_cmp_cotrans (f g h : Element) :
  f ∈ fs -> g ∈ fs -> h ∈ fs ->
  CofM_cmp f h = (-1)%Z -> CofM_cmp f g = (-1)%Z \/ CofM_cmp g h = (-1)%Z.
Proof.
  intros Hf Hg Hh. rewrite !CofM_cmp_lt_iff. unfold keyx, keyy, keyz, id.
  assert (Hxcase :
    K_lt (compKeyFn (fun f => x (CenterOfMass f)) f)
         (compKeyFn (fun f => x (CenterOfMass f)) h) <> true ->
    floatEqual (x (CenterOfMass f)) (x (CenterOfMass h)) = true ->
    K_lt (compKeyFn (fun f => x (CenterOfMass f)) f)
         (compKeyFn (fun f => x (CenterOfMass f)) g) = true
    \/ K_lt (compKeyFn (fun f => x (CenterOfMass f)) g)
            (compKeyFn (fun f => x (CenterOfMass f)) h) = true
    \/ (floatEqual (x (CenterOfMass f)) (x (CenterOfMass g)) = true
        /\ floatEqual (x (CenterOfMass g)) (x (CenterOfMass h)) = true)).
  { intros _ Ex.
    destruct (floatEqual (x (CenterOfMass f)) (x (CenterOfMass g))) eqn:Exfg.
    - right. right. split; [reflexivity|].
      apply (axis_eq_trans _ fs fs_finite_x fs_x g f h Hg Hf Hh); [|exact Ex].
      now rewrite floatEqual_sym.
    - destruct (axis_ne_lt _ fs fs_finite_x f g Hf Hg Exfg) as [H | H]; [now left|].
      right. left. exact (axis_lt_eq _ fs fs_x g f h Hg Hf Hh H Ex). }
  assert (Hycase :
    floatEqual (y (CenterOfMass f)) (y (CenterOfMass h)) = true ->
    K_lt (compKeyFn (fun f => y (CenterOfMass f)) f)
         (compKeyFn (fun f => y (CenterOfMass f)) g) = true
    \/ K_lt (compKeyFn (fun f => y (CenterOfMass f)) g)
            (compKeyFn (fun f => y (CenterOfMass f)) h) = true
    \/ (floatEqual (y (CenterOfMass f)) (y (CenterOfMass g)) = true
        /\ floatEqual (y (CenterOfMass g)) (y (CenterOfMass h)) = true)).
  { intros Ey.
    destruct (floatEqual (y (CenterOfMass f)) (y (CenterOfMass g))) eqn:Eyfg.
    - right. right. split; [reflexivity|].
      apply (axis_eq_trans _ fs fs_finite_y fs_y g f h Hg Hf Hh); [|exact Ey].
      now rewrite floatEqual_sym.
    - destruct (axis_ne_lt _ fs fs_finite_y f g Hf Hg Eyfg) as [H | H]; [now left|].
      right. left. exact (axis_lt_eq _ fs fs_y g f h Hg Hf Hh H Ey). }
  intros [Hx | (Ex & Hrest)].
  - destruct (fs_x f g h Hf Hg Hh Hx) as [H | H]; [left | right]; now left.
  - destruct (Hxcase ltac:(intros H; apply axis_lt_ne in H; congruence) Ex)
      as [H | [H | [Exfg Exgh]]]; [left; now left | right; now left |].
    destruct Hrest as [Hy | (Ey & Hz)].
    + destruct (fs_y f g h Hf Hg Hh Hy) as [H | H];
        [left | right]; right; (split; [assumption|]); now left.
    + destruct (Hycase Ey) as [H | [H | [Eyfg Eygh]]].
      * left. right. split; [assumption|]. now left.
      * right. right. split; [assumption|]. now left.
      * destruct (fs_z f g h Hf Hg Hh Hz) as [H | H];
          [left | right]; right; (split; [assumption|]); right; now split.
Qed.

Lemma CofM_cmp_gt (f g : Element) :
  f ∈ fs -> g ∈ fs -> CofM_cmp f g = (-1)%Z -> CofM_cmp g f = 1%Z.
Proof.
  intros Hf Hg H. rewrite (CofM_cmp_antisym f g), H by now apply fs_finite_all.
  reflexivity.
Qed.

(** If [s] does not compare below [m] and compares below [s'], then [s']
    compares above [m]. *)
Lemma CofM_cmp_above (s s' m : Element) :
  s ∈ fs -> s' ∈ fs -> m ∈ fs ->
  CofM_cmp s m <> (-1)%Z -> CofM_cmp s s' = (-1)%Z -> CofM_cmp s' m = 1%Z.
Proof.
  intros Hs Hs' Hm Hsm Hss'.
  destruct (CofM_cmp_cotrans s m s' Hs Hm Hs' Hss') as [H | H]; [congruence|].
  now apply CofM_cmp_gt.
Qed.

(** If [s] compares below [m] and [m'] does not compare below [m], then [s]
    compares below [m']. *)
Lemma CofM_cmp_below (s m m' : Element) :
  s ∈ fs -> m ∈ fs -> m' ∈ fs ->
  CofM_cmp s m = (-1)%Z -> CofM_cmp m' m <> (-1)%Z -> CofM_cmp s m' = (-1)%Z.
Proof.
  intros Hs Hm Hm' Hsm Hm'm.
  destruct (CofM_cmp_cotrans s m' m Hs Hm' Hm Hsm) as [H | H]; [exact H | congruence].
Qed.

End LexOrder.

(** ** The sweep records every pair of equal centres of mass *)

Lemma CofM_cmp_range (f g : Element) :
  CofM_cmp f g = (-1)%Z \/ CofM_cmp f g = 0%Z \/ CofM_cmp f g = 1%Z.
Proof.
  unfold CofM_cmp.
  destruct (floatEqual (x (CenterOfMass f)) (x (CenterOfMass g)));
    destruct (floatEqual (y (CenterOfMass f)) (y (CenterOfMass g)));
    destruct (floatEqual (z (CenterOfMass f)) (z (CenterOfMass g)));
    destruct (lt (x (CenterOfMass f)) (x (CenterOfMass g)));
    destruct (lt (y (CenterOfMass f)) (y (CenterOfMass g)));
    destruct (lt (z (CenterOfMass f)) (z (CenterOfMass g))); auto.
Qed.

Lemma recorded_insert (rows : list (list Candidate)) (j : nat) (row : list Candidate)
    (c : Candidate) (a b : nat) :
  rows !! j = Some row ->
  recorded rows a b -> recorded (<[j := row ++ [c]]> rows) a b.
Proof.
  intros Hj (row' & c' & Hb & Hc' & Ha).
  destruct (decide (b = j)) as [->|Hne].
  - exists (row ++ [c]), c'. rewrite list_lookup_insert_eq by (eapply lookup_lt_Some; eauto).
    repeat split; [|assumption]. apply elem_of_app. left. congruence.
  - exists row', c'. rewrite list_lookup_insert_ne by congruence. auto.
Qed.

Section SweepComplete.
Context (src_face_list : list SrcFace) (mesh_face_list : list MeshFace)
  (fs : list Element).
Hypothesis fs_finite : Forall (fun f => finite_CenterOfMass f = true) fs.
Hypothesis fs_x : consistent_keys (fun f => x (CenterOfMass f)) fs.
Hypothesis fs_y : consistent_keys (fun f => y (CenterOfMass f)) fs.
Hypothesis fs_z : consistent_keys (fun f => z (CenterOfMass f)) fs.
Hypothesis src_in : forall i s, src_face_list !! i = Some s -> s.1.1 ∈ fs.
Hypothesis mesh_in : forall j m, mesh_face_list !! j = Some m -> m.1 ∈ fs.
Hypothesis src_sorted :
  forall i i' s s', (i < i')%nat ->
    src_face_list !! i = Some s -> src_face_list !! i' = Some s' ->
    CofM_cmp s.1.1 s'.1.1 = (-1)%Z.
Hypothesis mesh_sorted :
  forall j j' m m', (j < j')%nat ->
    mesh_face_list !! j = Some m -> mesh_face_list !! j' = Some m' ->
    CofM_cmp m'.1 m.1 <> (-1)%Z.

Lemma sweep_body_covered (st st' : Sweep.State) (src_i : SrcFace) (mesh_j : MeshFace) :
  src_face_list !! Sweep.i st = Some src_i ->
  mesh_face_list !! Sweep.j st = Some mesh_j ->
  sweep_body src_i mesh_j st = Returned st' ->
  covered src_face_list mesh_face_list st ->
  covered src_face_list mesh_face_list st'.
Proof.
  intros Hi Hj Hbody (HA & HB & HC & HD). unfold sweep_body in Hbody.
  destruct (CofM_cmp src_i.1.1 mesh_j.1 =? 0)%Z eqn:H0.
  - (* a match: record it and move on to the next target face *)
    apply Z.eqb_eq in H0. unfold append_at in Hbody.
    destruct (Sweep.candidate_mesh_faces st !! Sweep.j st) as [row|] eqn:Hrow;
      [|discriminate].
    injection Hbody as <-. unfold covered. simpl. split; [|split; [|split]].
    + intros i' j' s m Hlt Hs Hm Hc. apply recorded_insert; [assumption|]. eauto.
    + intros j' s m Hlt Hs Hm Hc.
      destruct (decide (j' = Sweep.j st)) as [->|Hne].
      * exists (row ++ [(Sweep.i st, src_i.1.2, src_i.2)]), (Sweep.i st, src_i.1.2, src_i.2).
        rewrite list_lookup_insert_eq by (eapply lookup_lt_Some; eauto).
        repeat split. apply elem_of_app. right. constructor.
      * apply recorded_insert; [assumption|]. apply (HB j' s m); [lia|assumption..].
    + intros j' s m Hlt Hs Hm.
      destruct (decide (j' = Sweep.j st)) as [->|Hne].
      * assert (s = src_i) by congruence. assert (m = mesh_j) by congruence.
        subst. rewrite H0. discriminate.
      * apply (HC j' s m); [lia|assumption..].
    + intros _. destruct (Sweep.matching st); [specialize (HD eq_refl)|]; lia.
  - apply Z.eqb_neq in H0.
    destruct (CofM_cmp src_i.1.1 mesh_j.1 <? 0)%Z eqn:Hneg; injection Hbody as <-;
      unfold covered; simpl.
    + (* the reference face is below: next reference face, back to the run start *)
      assert (Hlt : CofM_cmp src_i.1.1 mesh_j.1 = (-1)%Z).
      { apply Z.ltb_lt in Hneg.
        destruct (CofM_cmp_range src_i.1.1 mesh_j.1) as [H | [H | H]]; lia. }
      assert (Hj' : ((if Sweep.matching st then Sweep.j_match_start st else Sweep.j st)
                     <= Sweep.j st)%nat).
      { destruct (Sweep.matching st); [apply HD; reflexivity | lia]. }
      assert (Hnext : forall j' s' m,
                (j' < Sweep.j st)%nat -> src_face_list !! (Sweep.i st + 1)%nat = Some s' ->
                mesh_face_list !! j' = Some m -> CofM_cmp s'.1.1 m.1 = 1%Z).
      { intros j' s' m Hlt' Hs' Hm.
        apply (CofM_cmp_above fs fs_finite fs_x fs_y fs_z src_i.1.1); eauto.
        apply (src_sorted (Sweep.i st) (Sweep.i st + 1)); [lia|assumption..]. }
      split; [|split; [|split]].
      * intros i' j' s m Hlt' Hs Hm Hc.
        destruct (decide (i' = Sweep.i st)) as [->|Hne]; [|apply (HA i' j' s m); auto; lia].
        assert (s = src_i) by congruence. subst s.
        destruct (decide (j' < Sweep.j st)%nat) as [Hjlt|Hjge]; [now apply (HB j' src_i m)|].
        exfalso.
        assert (Hbelow : CofM_cmp src_i.1.1 m.1 = (-1)%Z); [|congruence].
        destruct (decide (j' = Sweep.j st)) as [->|Hjne]; [congruence|].
        apply (CofM_cmp_below fs fs_finite fs_x fs_y fs_z src_i.1.1 mesh_j.1 m.1); eauto.
        apply (mesh_sorted (Sweep.j st) j'); [lia|assumption..].
      * intros j' s' m Hlt' Hs' Hm Hc.
        rewrite (Hnext j' s' m) in Hc; [discriminate|lia|assumption..].
      * intros j' s' m Hlt' Hs' Hm.
        rewrite (Hnext j' s' m); [discriminate|lia|assumption..].
      * discriminate.
    + (* the reference face is above: next target face *)
      split; [|split; [|split]].
      * exact HA.
      * intros j' s m Hlt Hs Hm Hc.
        destruct (decide (j' = Sweep.j st)) as [->|Hne].
        -- assert (s = src_i) by congruence. assert (m = mesh_j) by congruence.
           subst. congruence.
        -- apply (HB j' s m); [lia|assumption..].
      * intros j' s m Hlt Hs Hm.
        destruct (decide (j' = Sweep.j st)) as [->|Hne].
        -- assert (s = src_i) by congruence. assert (m = mesh_j) by congruence.
           subst. apply Z.ltb_ge in Hneg. lia.
        -- apply (HC j' s m); [lia|assumption..].
      * discriminate.
Qed.

Lemma sweep_loop_covered (fuel : nat) (st st' : Sweep.State) :
  sweep_loop fuel src_face_list mesh_face_list st = Returned st' ->
  covered src_face_list mesh_face_list st ->
  covered src_face_list mesh_face_list st'.
Proof.
  revert st. induction fuel as [|fuel IH]; intros st Hloop Hinv; simpl in Hloop.
  - now injection Hloop as <-.
  - destruct (src_face_list !! Sweep.i st) as [src_i|] eqn:Hi;
      [|now injection Hloop as <-].
    destruct (mesh_face_list !! Sweep.j st) as [mesh_j|] eqn:Hj;
      [|now injection Hloop as <-].
    destruct (sweep_body src_i mesh_j st) as [st1|e] eqn:Hbody; [|discriminate].
    simpl in Hloop. apply (IH st1 Hloop).
    exact (sweep_body_covered _ _ _ _ Hi Hj Hbody Hinv).
Qed.

(** Once the loop has left through its guard, every pair of a reference
    position and a target position with equal centres of mass is recorded. *)
Lemma covered_all (st : Sweep.State) :
  sweep_running src_face_list mesh_face_list st = false ->
  covered src_face_list mesh_face_list st ->
  forall i j s m,
    src_face_list !! i = Some s -> mesh_face_list !! j = Some m ->
    CofM_cmp s.1.1 m.1 = 0%Z -> recorded (Sweep.candidate_mesh_faces st) i j.
Proof.
  intros Hrun (HA & HB & HC & _) i j s m Hs Hm Hc.
  destruct (decide (i < Sweep.i st)%nat) as [Hlt|Hge]; [now apply (HA i j s m)|].
  assert (Hi : (Sweep.i st < length src_face_list)%nat).
  { apply lookup_lt_Some in Hs. lia. }
  assert (Hj : (length mesh_face_list <= Sweep.j st)%nat).
  { unfold sweep_running in Hrun. apply andb_false_iff in Hrun as [H | H];
      apply Nat.ltb_ge in H; lia. }
  assert (Hjlt : (j < Sweep.j st)%nat) by (apply lookup_lt_Some in Hm; lia).
  destruct (decide (i = Sweep.i st)) as [->|Hne]; [now apply (HB j s m)|].
  exfalso. destruct (lookup_lt_is_Some_2 _ _ Hi) as [s0 Hs0].
  assert (H1 : CofM_cmp s.1.1 m.1 = 1%Z); [|congruence].
  apply (CofM_cmp_above fs fs_finite fs_x fs_y fs_z s0.1.1); eauto.
  apply (src_sorted (Sweep.i st) i); [lia|assumption..].
Qed.

End SweepComplete.

(** ** The comprehensive check keeps every candidate that passes it *)

Lemma append_at_grows {A : Type} (ll ll' : list (list A)) (n : nat) (v : A) :
  append_at ll n v = Returned ll' ->
  (forall k e p, ll !! k = Some e -> p ∈ e -> exists e', ll' !! k = Some e' /\ p ∈ e')
  /\ exists e', ll' !! n = Some e' /\ v ∈ e'.
Proof.
  unfold append_at. destruct (ll !! n) as [l|] eqn:Hl; [|discriminate].
  intros [= <-]. split.
  - intros k e p Hk Hp. destruct (decide (k = n)) as [->|Hne].
    + exists (l ++ [v]). rewrite list_lookup_insert_eq by (eapply lookup_lt_Some; eauto).
      split; [reflexivity|]. apply elem_of_app. left. congruence.
    + exists e. now rewrite list_lookup_insert_ne by congruence.
  - exists (l ++ [v]). rewrite list_lookup_insert_eq by (eapply lookup_lt_Some; eauto).
    split; [reflexivity|]. apply elem_of_app. right. constructor.
Qed.

Lemma confirm_row_complete (src_face_list : list SrcFace) (mesh_face_list : list MeshFace)
    (j : nat) (mf : Element) (k0 : nat) (row : list Candidate)
    (acc acc' : list (list (nat * Ref))) :
  mesh_face_list !! j = Some (mf, k0) ->
  confirm_row src_face_list mesh_face_list j row acc = Returned acc' ->
  (forall k e p, acc !! k = Some e -> p ∈ e -> exists e', acc' !! k = Some e' /\ p ∈ e')
  /\ (forall c, c ∈ row -> confirmed src_face_list mf c = true ->
                exists e', acc' !! k0 = Some e' /\ pair_of c ∈ e').
Proof.
  intros Hj. revert acc. induction row as [|[[i nb] bref] row IH]; intros acc H;
    simpl in H.
  - injection H as <-. split; [eauto|]. intros c Hc. inversion Hc.
  - unfold index_ in H.
    destruct (src_face_list !! i) as [src_i|] eqn:Hi; [|discriminate]. simpl in H.
    rewrite Hj in H. simpl in H.
    destruct (truthy (isSameGeometry src_i.1.1 mf)) eqn:Hsame.
    + destruct (append_at acc k0 (nb, bref)) as [acc1|e] eqn:Happ; [|discriminate].
      simpl in H. destruct (IH _ H) as [Hmono Hall].
      destruct (append_at_grows _ _ _ _ Happ) as [Hmono1 (e1 & He1 & Hin1)].
      split.
      * intros k e p Hk Hp. destruct (Hmono1 k e p Hk Hp) as (e' & Hk' & Hp'). eauto.
      * intros c Hc Hconf. apply elem_of_cons in Hc as [->|Hc]; [|eauto].
        exact (Hmono k0 e1 (nb, bref) He1 Hin1).
    + simpl in H. destruct (IH _ H) as [Hmono Hall]. split; [exact Hmono|].
      intros c Hc Hconf. apply elem_of_cons in Hc as [->|Hc]; [|eauto].
      unfold confirmed in Hconf. simpl in Hconf. rewrite Hi in Hconf. congruence.
Qed.

Lemma confirm_rows_complete (src_face_list : list SrcFace) (mesh_face_list : list MeshFace)
    (rows : list (list Candidate)) :
  forall (j0 : nat) (acc acc' : list (list (nat * Ref))),
    (j0 + length rows <= length mesh_face_list)%nat ->
    confirm_rows src_face_list mesh_face_list j0 rows acc = Returned acc' ->
    (forall k e p, acc !! k = Some e -> p ∈ e -> exists e', acc' !! k = Some e' /\ p ∈ e')
    /\ (forall d row c mf k,
          rows !! d = Some row -> c ∈ row ->
          mesh_face_list !! (j0 + d)%nat = Some (mf, k) ->
          confirmed src_face_list mf c = true ->
          exists e', acc' !! k = Some e' /\ pair_of c ∈ e').
Proof.
  induction rows as [|row rows IH]; intros j0 acc acc' Hlen H; simpl in H.
  - injection H as <-. split; [eauto|]. intros d row c mf k Hd. discriminate.
  - simpl in Hlen.
    destruct (confirm_row src_face_list mesh_face_list j0 row acc) as [acc1|e] eqn:Hr;
      [|discriminate].
    simpl in H. destruct (IH (S j0) acc1 acc' ltac:(lia) H) as [Hmono Hall].
    destruct (lookup_lt_is_Some_2 mesh_face_list j0 ltac:(lia)) as [[mf0 k0] Hm0].
    destruct (confirm_row_complete _ _ _ _ _ _ _ _ Hm0 Hr) as [Hmono1 Hall1].
    split.
    + intros k e p Hk Hp. destruct (Hmono1 k e p Hk Hp) as (e' & Hk' & Hp'). eauto.
    + intros [|d] row' c mf k Hd Hc Hm Hconf; simpl in Hd.
      * injection Hd as <-. rewrite Nat.add_0_r, Hm0 in Hm. injection Hm as <- <-.
        destruct (Hall1 c Hc Hconf) as (e1 & He1 & Hin1). eauto.
      * apply (Hall d row' c mf k Hd Hc); [|assumption].
        now replace (S j0 + d)%nat with (j0 + S d)%nat by lia.
Qed.

(** ** Every resolved reference is in the source list *)

Lemma resolve_group_complete (doc : Document) (i : nat) (rl : list Ref)
    (acc src : list SrcFace) :
  resolve_group doc i rl acc = Returned src ->
  (forall item, item ∈ acc -> item ∈ src)
  /\ (forall br bf, br ∈ rl -> resolve doc br = Returned bf -> (bf, i, br) ∈ src).
Proof.
  revert acc. induction rl as [|br0 rl IH]; intros acc H; simpl in H.
  - injection H as <-. split; [auto|]. intros br bf Hbr. inversion Hbr.
  - destruct (resolve doc br0) as [bf0|e] eqn:Hbr0; [|discriminate]. simpl in H.
    destruct (IH _ H) as [Hacc Hall]. split.
    + intros item Hitem. apply Hacc, elem_of_app. now left.
    + intros br bf Hbr Hres. apply elem_of_cons in Hbr as [->|Hbr]; [|eauto].
      apply Hacc, elem_of_app. right.
      assert (bf = bf0) by congruence. subst. constructor.
Qed.

Lemma resolve_groups_complete (doc : Document) (ref_lists : list (list Ref)) :
  forall (i0 : nat) (acc src : list SrcFace),
    resolve_groups doc i0 ref_lists acc = Returned src ->
    (forall item, item ∈ acc -> item ∈ src)
    /\ (forall d rl br bf,
          ref_lists !! d = Some rl -> br ∈ rl -> resolve doc br = Returned bf ->
          (bf, (i0 + d)%nat, br) ∈ src).
Proof.
  induction ref_lists as [|rl0 rest IH]; intros i0 acc src H; simpl in H.
  - injection H as <-. split; [auto|]. intros d rl br bf Hd. discriminate.
  - destruct (resolve_group doc i0 rl0 acc) as [acc1|e] eqn:Hrl; [|discriminate].
    simpl in H. destruct (IH _ _ _ H) as [Hacc Hall].
    destruct (resolve_group_complete _ _ _ _ _ Hrl) as [Hacc1 Hall1]. split.
    + intros item Hitem. auto.
    + intros [|d] rl br bf Hd Hbr Hres; simpl in Hd.
      * injection Hd as <-. rewrite Nat.add_0_r. eauto.
      * replace (i0 + S d)%nat with (S i0 + d)%nat by lia. eauto.
Qed.

Lemma tagged_refs_snd (i0 : nat) (ref_lists : list (list Ref)) :
  map snd (tagged_refs i0 ref_lists) = concat ref_lists.
Proof.
  unfold tagged_refs. revert i0. induction ref_lists as [|rl rest IH]; intros i0;
    [reflexivity|].
  rewrite imap_cons. simpl. rewrite map_app. f_equal.
  - rewrite map_map. simpl. apply map_id.
  - rewrite <- (IH (S i0)). do 2 f_equal. apply imap_ext. intros k l _. simpl.
    do 2 f_equal. lia.
Qed.

(** ** The result holds every match *)

Lemma isSameGeometry_CofM_cmp (bf mf : Element) :
  isSameGeometry bf mf = Some true -> CofM_cmp bf mf = 0%Z.
Proof.
  intros H. apply CofM_cmp_eq_iff. unfold CenterOfMass_equal.
  unfold isSameGeometry in H.
  destruct ((length (Vertexes bf) =? length (Vertexes mf))%nat
            && (0 <? length (Vertexes bf))%nat); [|discriminate].
  destruct (floatEqual (x (CenterOfMass bf)) (x (CenterOfMass mf))); [|discriminate].
  destruct (floatEqual (y (CenterOfMass bf)) (y (CenterOfMass mf))); [|discriminate].
  destruct (floatEqual (z (CenterOfMass bf)) (z (CenterOfMass mf))); [|discriminate].
  reflexivity.
Qed.

Lemma matchFaces_finds (doc : Document) (ref_lists : list (list Ref)) (shape : Shape)
    (fs : list Element) (result : list (list (nat * Ref))) :
  matchFacesToTargetShape doc ref_lists shape = Returned result ->
  elements_among doc ref_lists shape fs ->
  Forall (fun f => finite_CenterOfMass f = true) fs ->
  consistent_keys (fun f => x (CenterOfMass f)) fs ->
  consistent_keys (fun f => y (CenterOfMass f)) fs ->
  consistent_keys (fun f => z (CenterOfMass f)) fs ->
  no_reference_ties doc ref_lists ->
  forall nb rl br bf k face,
    ref_lists !! nb = Some rl -> br ∈ rl -> resolve doc br = Returned bf ->
    Faces shape !! k = Some face -> isSameGeometry bf face = Some true ->
    exists entry, result !! k = Some entry /\ (nb, br) ∈ entry.
Proof.
  intros H [Hsrc_fs Hmesh_fs] Hfin Hx Hy Hz Hties.
  unfold matchFacesToTargetShape in H.
  destruct (resolve_groups doc 0 ref_lists []) as [src0|e] eqn:Hres; [|discriminate].
  simpl in H.
  set (src := sort_by_CenterOfMass (fun bf : SrcFace => bf.1.1) src0) in *.
  set (mesh := sort_by_CenterOfMass (fun mf : MeshFace => mf.1)
                 (zip (Faces shape) (seq 0 (length (Faces shape))))) in *.
  destruct (sweep src mesh) as [st|e] eqn:Hsweep; [|discriminate]. simpl in H.
  set (rows := Sweep.candidate_mesh_faces st) in *.
  (* the source list *)
  assert (F1 : forall item, item ∈ src0 ->
             resolve doc item.2 = Returned item.1.1 /\ item.1.1 ∈ fs).
  { intros item Hitem.
    destruct (resolve_groups_items _ _ _ _ _ Hres _ Hitem)
      as [Hnil | (rl & _ & Hlook & Hmem & Hr)]; [inversion Hnil|].
    split; [assumption|]. apply (Hsrc_fs rl item.2); try assumption.
    apply list_elem_of_lookup. eauto. }
  assert (F2 : map (fun it : SrcFace => it.2) src0 = concat ref_lists).
  { rewrite <- (tagged_refs_snd 0 ref_lists).
    pose proof (resolve_groups_tags _ _ _ _ _ Hres) as Ht. simpl in Ht.
    rewrite <- Ht, map_map. reflexivity. }
  assert (F3 : forall p q a b, p <> q -> src0 !! p = Some a -> src0 !! q = Some b ->
                               CenterOfMass_equal a.1.1 b.1.1 = false).
  { intros p q a b Hpq Ha Hb.
    apply (Hties p q a.2 b.2); try assumption.
    - rewrite <- F2. change (map ?f ?l) with (f <$> l). now rewrite list_lookup_fmap, Ha.
    - rewrite <- F2. change (map ?f ?l) with (f <$> l). now rewrite list_lookup_fmap, Hb.
    - apply F1. apply list_elem_of_lookup. eauto.
    - apply F1. apply list_elem_of_lookup. eauto. }
  assert (Hsrc_perm : src ≡ₚ src0) by apply sort_by_CenterOfMass_perm.
  assert (Hmesh_perm : mesh ≡ₚ zip (Faces shape) (seq 0 (length (Faces shape))))
    by apply sort_by_CenterOfMass_perm.
  assert (Hsrc_on : forall s, s ∈ src -> on_fs (fun bf : SrcFace => bf.1.1) fs s).
  { intros s Hs. rewrite Hsrc_perm in Hs. apply F1, Hs. }
  assert (Hmesh_on : forall m, m ∈ mesh -> on_fs (fun mf : MeshFace => mf.1) fs m).
  { intros [f n] Hm. rewrite Hmesh_perm in Hm. apply elem_of_zip_l in Hm.
    unfold on_fs. simpl. auto. }
  (* both lists are sorted *)
  assert (Hsrc_sorted : forall i i' s s', (i < i')%nat ->
            src !! i = Some s -> src !! i' = Some s' ->
            CofM_cmp s.1.1 s'.1.1 = (-1)%Z).
  { intros i i' s s' Hlt Hs Hs'.
    assert (Hs_in : s ∈ src) by (apply list_elem_of_lookup; eauto).
    assert (Hs'_in : s' ∈ src) by (apply list_elem_of_lookup; eauto).
    apply (after_x_CofM_cmp (fun bf : SrcFace => bf.1.1) fs Hfin); auto.
    - assert (Hsorted : no_inversion (after_x (fun bf : SrcFace => bf.1.1)) src).
      { apply (sort_by_CenterOfMass_sorted _ fs Hx Hy Hz).
        apply Forall_forall. intros a Ha. apply F1, Ha. }
      exact (StronglySorted_lookup _ _ i i' s s' Hsorted Hlt Hs Hs').
    - apply Permutation_inj in Hsrc_perm as [_ (f & Hinj & Hf)].
      apply (F3 (f i) (f i')).
      + intros Heq. apply Hinj in Heq. lia.
      + now rewrite <- Hf.
      + now rewrite <- Hf. }
  assert (Hmesh_sorted : forall j j' m m', (j < j')%nat ->
            mesh !! j = Some m -> mesh !! j' = Some m' ->
            CofM_cmp m'.1 m.1 <> (-1)%Z).
  { intros j j' m m' Hlt Hm Hm'.
    assert (Hm_in : m ∈ mesh) by (apply list_elem_of_lookup; eauto).
    assert (Hm'_in : m' ∈ mesh) by (apply list_elem_of_lookup; eauto).
    assert (Hfm : finite_CenterOfMass m.1 = true).
    { rewrite Forall_forall in Hfin. apply Hfin, (Hmesh_on m Hm_in). }
    assert (Hfm' : finite_CenterOfMass m'.1 = true).
    { rewrite Forall_forall in Hfin. apply Hfin, (Hmesh_on m' Hm'_in). }
    rewrite (CofM_cmp_antisym m.1 m'.1 Hfm Hfm').
    destruct (CenterOfMass_equal m.1 m'.1) eqn:Heq.
    - apply CofM_cmp_eq_iff in Heq. rewrite Heq. discriminate.
    - assert (Hsorted : no_inversion (after_x (fun mf : MeshFace => mf.1)) mesh).
      { apply (sort_by_CenterOfMass_sorted _ fs Hx Hy Hz).
        apply Forall_forall. intros a Ha.
        rewrite <- Hmesh_perm in Ha. exact (Hmesh_on a Ha). }
      assert (Hc : CofM_cmp m.1 m'.1 = (-1)%Z).
      { apply (after_x_CofM_cmp (fun mf : MeshFace => mf.1) fs Hfin m m'); auto.
        exact (StronglySorted_lookup _ _ j j' m m' Hsorted Hlt Hm Hm'). }
      rewrite Hc. discriminate. }
  (* the sweep *)
  destruct (sweep_exits src mesh) as (st' & Hsweep' & Hrun & Hlen).
  assert (st' = st) by congruence. subst st'.
  assert (Hsrc_in : forall i s, src !! i = Some s -> s.1.1 ∈ fs).
  { intros i s Hs. apply Hsrc_on. apply list_elem_of_lookup. eauto. }
  assert (Hmesh_in : forall j m, mesh !! j = Some m -> m.1 ∈ fs).
  { intros j m Hm. apply Hmesh_on. apply list_elem_of_lookup. eauto. }
  assert (Hcov : covered src mesh st).
  { unfold sweep in Hsweep.
    apply (sweep_loop_covered src mesh fs Hfin Hx Hy Hz Hsrc_in Hmesh_in
             Hsrc_sorted Hmesh_sorted _ _ _ Hsweep).
    unfold covered, sweep_init. simpl.
    split; [|split; [|split]]; try discriminate; intros; lia. }
  assert (Hfrom : candidates_from src rows).
  { unfold sweep in Hsweep. apply (sweep_loop_from _ _ _ _ _ Hsweep).
    unfold sweep_init, candidates_from. simpl.
    apply Forall_fmap, Forall_forall. intros mf _. constructor. }
  destruct (confirm_rows_complete src mesh rows 0 _ _ ltac:(simpl; unfold rows; lia) H)
    as [_ Hall].
  (* the given match *)
  intros nb rl br bf k face Hrl Hbr Hbf Hface Hsame.
  assert (Hitem : (bf, nb, br) ∈ src).
  { rewrite Hsrc_perm.
    destruct (resolve_groups_complete _ _ _ _ _ Hres) as [_ Hc].
    exact (Hc nb rl br bf Hrl Hbr Hbf). }
  apply list_elem_of_lookup in Hitem as [i Hi].
  assert (Hmf : (face, k) ∈ mesh).
  { rewrite Hmesh_perm. apply list_elem_of_lookup. exists k.
    rewrite lookup_zip_with, Hface. simpl.
    rewrite lookup_seq_lt by (eapply lookup_lt_Some; eauto). reflexivity. }
  apply list_elem_of_lookup in Hmf as [j Hj].
  destruct (covered_all src mesh fs Hfin Hx Hy Hz Hsrc_in Hmesh_in
              Hsrc_sorted st Hrun Hcov i j _ _ Hi Hj)
    as (row & c & Hrow & Hc & Hci).
  { simpl. now apply isSameGeometry_CofM_cmp. }
  assert (Hcand : exists bf', src !! c.1.1 = Some (bf', c.1.2, c.2)).
  { unfold candidates_from in Hfrom. rewrite Forall_forall in Hfrom.
    assert (Hrow_in : row ∈ rows) by (apply list_elem_of_lookup; eauto).
    pose proof (Hfrom row Hrow_in) as Hr. rewrite Forall_forall in Hr. exact (Hr c Hc). }
  destruct Hcand as [bf' Hbf']. rewrite Hci, Hi in Hbf'. injection Hbf' as <- Hnb Hbr'.
  destruct (Hall j row c face k Hrow Hc Hj) as (entry & Hentry & Hin).
  { unfold confirmed. rewrite Hci, Hi. simpl. now rewrite Hsame. }
  exists entry. split; [exact Hentry|].
  unfold pair_of in Hin. now rewrite <- Hnb, <- Hbr' in Hin.
Qed.

(** X26: when the centres of mass involved are finite, the tolerant order is
    consistent on each axis, and no two reference occurrences resolve to
    elements with tolerantly equal centres of mass, a returned result is
    exact: the entry of face k holds the pair (group, reference) if and only
    if the reference is listed in that group and resolves to an element that
    is the same geometry as face k. *)
Theorem matchFaces_exact (doc : Document) (ref_lists : list (list Ref)) (shape : Shape)
    (fs : list Element) (result : list (list (nat * Ref))) (k nb : nat) (br : Ref) :
  matchFacesToTargetShape doc ref_lists shape = Returned result ->
  elements_among doc ref_lists shape fs ->
  Forall (fun f => finite_CenterOfMass f = true) fs ->
  consistent_keys (fun f => x (CenterOfMass f)) fs ->
  consistent_keys (fun f => y (CenterOfMass f)) fs ->
  consistent_keys (fun f => z (CenterOfMass f)) fs ->
  no_reference_ties doc ref_lists ->
  (exists entry, result !! k = Some entry /\ (nb, br) ∈ entry)
  <-> (exists rl bf face,
         ref_lists !! nb = Some rl /\ br ∈ rl /\ resolve doc br = Returned bf
         /\ Faces shape !! k = Some face /\ isSameGeometry bf face = Some true).
Proof.
  intros H Hamong Hfin Hx Hy Hz Hties. split.
  - intros (entry & Hk & Hin). exact (matchFaces_pairs _ _ _ _ H k entry nb br Hk Hin).
  - intros (rl & bf & face & Hrl & Hbr & Hres & Hface & Hsame).
    exact (matchFaces_finds doc ref_lists shape fs result H Hamong Hfin Hx Hy Hz Hties
             nb rl br bf k face Hrl Hbr Hres Hface Hsame).
Qed.

Lemma matchFaces_exact_witness :
  (exists entry,
      [[(0%nat, ("Strip", "Face1")%string)]; []; [(1%nat, ("Strip", "Face3")%string)]]
        !! 2%nat = Some entry
      /\ (1%nat, ("Strip", "Face3")%string) ∈ entry)
  <-> (exists rl bf face,
         [[("Strip", "Face1")]; [("Strip", "Face3")]]%string !! 1%nat = Some rl
         /\ ("Strip", "Face3")%string ∈ rl
         /\ resolve Sample.doc ("Strip", "Face3")%string = Returned bf
         /\ Faces Sample.strip !! 2%nat = Some face
         /\ isSameGeometry bf face = Some true).
Proof.
  apply (matchFaces_exact Sample.doc [[("Strip", "Face1")]; [("Strip", "Face3")]]%string
           Sample.strip (Faces Sample.strip)).
  - vm_compute. reflexivity.
  - split; [|auto]. intros rl br bf Hrl Hbr Hres.
    apply elem_of_cons in Hrl as [-> | Hrl];
      [|apply list_elem_of_singleton in Hrl as ->];
      apply list_elem_of_singleton in Hbr as ->;
      vm_compute in Hres; injection Hres as <-.
    + apply (list_elem_of_lookup_2 _ 0%nat). reflexivity.
    + apply (list_elem_of_lookup_2 _ 2%nat). reflexivity.
  - repeat constructor; vm_compute; reflexivity.
  - apply strip_consistent. right. reflexivity.
  - apply strip_consistent. left. intros f Hf. simpl in Hf. set_unfold.
    destruct_or!; subst; reflexivity.
  - apply strip_consistent. left. intros f Hf. simpl in Hf. set_unfold.
    destruct_or!; subst; reflexivity.
  - intros [|[|p]] [|[|q]] br br' bf bf' Hpq Hp Hq Hbf Hbf'; try congruence;
      try discriminate; simpl in Hp, Hq; injection Hp as <-; injection Hq as <-;
      vm_compute in Hbf, Hbf'; injection Hbf as <-; injection Hbf' as <-;
      vm_compute; reflexivity.
Defined.
